(** * The vg [Counter]: coverage counts and edit records over a graph basis

  A shallow embedding of [src/counter.cpp].  The development follows the
  source file: the C++ value model ([size_t] arithmetic, [std::string]
  indexing, undefined behaviour as a fault), the escaping codec, the key
  and value encoding, the compressed suffix array seen through its text,
  the [Counter] object with its temporary edit files, and the query path. *)

From Stdlib Require Import ZArith Lia.
From Stdlib.Strings Require Import Byte.
From stdpp Require Import base list.

Open Scope Z_scope.

(** ** The C++ value model *)

Module Cpp.

(** What ends a run of the program other than a normal return. *)
Inductive fault : Type :=
| OutOfBounds      (* a read or write outside an array or string *)
| DivisionByZero   (* integer division by zero *)
| AssertionFailed  (* [assert] on a false condition *)
| NullPointer      (* a read through a null pointer *)
| OutOfFuel.       (* the model's loop budget ran out; never the code's *)

Inductive result (A : Type) : Type :=
| Ok (a : A)
| Fault (f : fault).
Arguments Ok {A} a.
Arguments Fault {A} f.

Definition bind {A B} (r : result A) (k : A -> result B) : result B :=
  match r with
  | Ok a => k a
  | Fault f => Fault f
  end.

(** [size_t] is a 64-bit unsigned integer. *)
Definition size_modulus : Z := 2 ^ 64.
Definition wrap (z : Z) : Z := z mod size_modulus.

(** [s.size()] *)
Definition size {A} (s : list A) : Z := Z.of_nat (length s).

(** [s[i]] on a [std::string]: the characters, then the terminating null
    at [i == size()]; any other index is outside the object. *)
Definition string_at (s : list byte) (i : Z) : result byte :=
  if (0 <=? i) && (i <? size s) then
    match s !! Z.to_nat i with
    | Some c => Ok c
    | None => Fault OutOfBounds
    end
  else if i =? size s then Ok x00
  else Fault OutOfBounds.

(** [v[i]] on a [std::vector] or an sdsl vector: no terminator. *)
Definition vector_at {A} (v : list A) (i : Z) : result A :=
  if (0 <=? i) && (i <? size v) then
    match v !! Z.to_nat i with
    | Some c => Ok c
    | None => Fault OutOfBounds
    end
  else Fault OutOfBounds.

End Cpp.

Import Cpp.

Notation "x <- c1 ;; c2" := (bind c1 (fun x => c2))
(at level 100, c1 at next level, right associativity).

Fixpoint foldM {A B} (f : A -> B -> result A) (l : list B) (a : A) : result A :=
  match l with
  | [] => Ok a
  | b :: l' => a' <- f a b ;; foldM f l' a'
  end.

Fixpoint mapM {A B} (f : A -> result B) (l : list A) : result (list B) :=
  match l with
  | [] => Ok []
  | a :: l' => b <- f a ;; bs <- mapM f l' ;; Ok (b :: bs)
  end.

(** ** The escaping codec *)

Module Codec.

(** [Counter::escape_delim]: every character is pushed, and pushed a
    second time when it is the delimiter. *)
Fixpoint escape_delim (s : list byte) (d : byte) : list byte :=
  match s with
  | [] => []
  | c :: s' =>
      if Byte.eqb c d then c :: c :: escape_delim s' d
      else c :: escape_delim s' d
  end.

(** The loop of [Counter::unescape_delim] from index [i] on, with the
    output [unescaped] so far.  The bound [s.size()-1] and the test
    [i == s.size()-2] are [size_t] expressions and wrap. *)
Fixpoint unescape_loop (fuel : nat) (s : list byte) (d : byte)
    (i : Z) (unescaped : list byte) : result (list byte) :=
  match fuel with
  | O => if i <? wrap (size s - 1) then Fault OutOfFuel else Ok unescaped
  | S fuel' =>
      if i <? wrap (size s - 1) then
        c <- string_at s i ;;
        b <- string_at s (wrap (i + 1)) ;;
        let unescaped' :=
          if Byte.eqb c d && Byte.eqb b d then unescaped ++ [c]
          else if i =? wrap (size s - 2) then (unescaped ++ [c]) ++ [b]
          else unescaped ++ [c] in
        unescape_loop fuel' s d (wrap (i + 1)) unescaped'
      else Ok unescaped
  end.

(** [Counter::unescape_delim].  The loop makes fewer than [s.size() + 1]
    passes before it returns or faults ([unescape_delim_fuel]). *)
Definition unescape_delim (s : list byte) (d : byte) : result (list byte) :=
  unescape_loop (S (length s)) s d 0 [].

Section Delims.
Variables delim1 delim2 : byte.

(** [Counter::escape_delims] *)
Definition escape_delims (s : list byte) : list byte :=
  escape_delim (escape_delim s delim1) delim2.

(** [Counter::unescape_delims] *)
Definition unescape_delims (s : list byte) : result (list byte) :=
  u <- unescape_delim s delim1 ;;
  unescape_delim u delim2.

End Delims.

End Codec.

Import Codec.

(** ** The compressed suffix array, through the text it indexes *)

Module Csa.

(** An sdsl [csa_sada] is used through [construct], [size], [extract] and
    [locate] only; it is modelled by its text, the bytes of the file it was
    built from followed by the null symbol sdsl appends (the one
    [Counter::write_edits] chomps). *)
Definition csa : Type := list byte.

Definition construct (file : list byte) : csa := file ++ [x00].

(** [extract(csa, begin, end)]: the text from [begin] to [end], both
    included; sdsl requires [begin <= end < csa.size()]. *)
Definition extract (c : csa) (b e : Z) : result (list byte) :=
  if (0 <=? b) && (b <=? e) && (e <? size c) then
    Ok (take (Z.to_nat (e - b + 1)) (drop (Z.to_nat b) c))
  else Fault OutOfBounds.

Fixpoint starts_with (pat s : list byte) : bool :=
  match pat, s with
  | [], _ => true
  | _ :: _, [] => false
  | p :: pat', c :: s' => Byte.eqb p c && starts_with pat' s'
  end.

Fixpoint occurrences (pat s : list byte) (k : Z) : list Z :=
  match s with
  | [] => []
  | _ :: s' =>
      if starts_with pat s then k :: occurrences pat s' (k + 1)
      else occurrences pat s' (k + 1)
  end.

(** [locate(csa, pattern)]: the offsets of all occurrences of a non-empty
    pattern.  sdsl leaves their order open; here they are increasing. *)
Definition locate (c : csa) (pat : list byte) : list Z := occurrences pat c 0.

End Csa.

Import Csa.

(** ** External collaborators *)

(** The xg index, as far as the counter uses it: [xgidx->seq_length] and
    the free functions [xg_node_start] and [xg_node_length]. *)
Record XG : Type := {
  seq_length : Z;
  xg_node_start : Z -> Z;
  xg_node_length : Z -> Z
}.

(** Modelled from the spec: the [Position] message of vg.proto, which is not
    in the source file, "node id + offset + strand". *)
Record Position : Type := {
  node_id : Z;
  offset : Z;
  is_reverse : bool
}.

(** The [Edit] message and the functions on messages that the counter
    calls; none of them is defined in the source file. *)
Record Messages : Type := {
  Edit : Type;
  from_length : Edit -> Z;
  edit_is_match : Edit -> bool;
  reverse_complement_edit : Edit -> Edit;
  Edit_SerializeToString : Edit -> list byte;
  Edit_ParseFromString : list byte -> Edit;
  Position_SerializeToString : Position -> list byte;
  reverse : Position -> Z -> Position
}.

(** A [Mapping]: [has_position()] with [position()], and [edit()]. *)
Record Mapping (M : Messages) : Type := {
  position : option Position;
  edit : list (Edit M)
}.
Arguments position {M} _.
Arguments edit {M} _.

(** An [Alignment], by [aln.path().mapping()]. *)
Definition Alignment (M : Messages) : Type := list (Mapping M).

(** ** The counter *)

(** The members of [Counter].  A [gcsa::CounterArray], an sdsl [int_vector]
    and a [dac_vector] are vectors of [size_t] counts.  A temporary file is
    identified with its bytes on disk and an open [ofstream] with the bytes
    written through it; [tmpfstreams[i]] is the stream opened on
    [edit_tmpfile_names[i]]. *)
Record Counter : Type := {
  xgidx : option XG;
  bin_size : Z;
  n_bins : Z;
  is_compacted : bool;
  coverage_dynamic : list Z;
  edit_tmpfile_names : list (list byte);
  tmpfstreams : list (list byte);
  coverage_civ : list Z;
  edit_csas : list csa
}.

(** Member updates, for the assignments of the source. *)
Definition set_tmpfiles (c : Counter) (names streams : list (list byte)) : Counter :=
  {| xgidx := xgidx c; bin_size := bin_size c; n_bins := n_bins c;
     is_compacted := is_compacted c;
     coverage_dynamic := coverage_dynamic c;
     edit_tmpfile_names := names; tmpfstreams := streams;
     coverage_civ := coverage_civ c; edit_csas := edit_csas c |}.

Definition set_coverage_dynamic (c : Counter) (coverage : list Z) : Counter :=
  {| xgidx := xgidx c; bin_size := bin_size c; n_bins := n_bins c;
     is_compacted := is_compacted c;
     coverage_dynamic := coverage;
     edit_tmpfile_names := edit_tmpfile_names c; tmpfstreams := tmpfstreams c;
     coverage_civ := coverage_civ c; edit_csas := edit_csas c |}.

Definition set_compact (c : Counter) (civ : list Z) (csas : list csa) : Counter :=
  {| xgidx := xgidx c; bin_size := bin_size c; n_bins := n_bins c;
     is_compacted := is_compacted c;
     coverage_dynamic := coverage_dynamic c;
     edit_tmpfile_names := edit_tmpfile_names c; tmpfstreams := tmpfstreams c;
     coverage_civ := civ; edit_csas := csas |}.

Definition set_is_compacted (c : Counter) (b : bool) : Counter :=
  {| xgidx := xgidx c; bin_size := bin_size c; n_bins := n_bins c;
     is_compacted := b;
     coverage_dynamic := coverage_dynamic c;
     edit_tmpfile_names := edit_tmpfile_names c; tmpfstreams := tmpfstreams c;
     coverage_civ := coverage_civ c; edit_csas := edit_csas c |}.

Definition set_bins (c : Counter) (binsz nbins : Z) : Counter :=
  {| xgidx := xgidx c; bin_size := binsz; n_bins := nbins;
     is_compacted := is_compacted c;
     coverage_dynamic := coverage_dynamic c;
     edit_tmpfile_names := edit_tmpfile_names c; tmpfstreams := tmpfstreams c;
     coverage_civ := coverage_civ c; edit_csas := edit_csas c |}.

(** Modelled from the spec: the member initialisers of counter.hpp, which is
    not in the source file.  An instance starts Open, and bin size [0] with
    one bin is the single-bin case. *)
Definition Counter_default : Counter :=
  {| xgidx := None; bin_size := 0; n_bins := 1; is_compacted := false;
     coverage_dynamic := []; edit_tmpfile_names := []; tmpfstreams := [];
     coverage_civ := []; edit_csas := [] |}.

(** [Counter::Counter(xg::XG*, size_t)]: the coverage array first, then the
    division for the number of bins. *)
Definition Counter_new (xidx : XG) (binsz : Z) : result Counter :=
  let coverage := replicate (Z.to_nat (seq_length xidx)) 0 in
  if binsz =? 0 then Fault DivisionByZero
  else Ok {| xgidx := Some xidx; bin_size := binsz;
             n_bins := wrap (seq_length xidx / binsz + 1);
             is_compacted := false;
             coverage_dynamic := coverage;
             edit_tmpfile_names := []; tmpfstreams := [];
             coverage_civ := []; edit_csas := [] |}.

(** [Counter::bin_for_position] *)
Definition bin_for_position (c : Counter) (i : Z) : Z :=
  if bin_size c >? 0 then i / bin_size c else 0.

(** [Counter::graph_length] *)
Definition graph_length (c : Counter) : Z := size (coverage_civ c).

(** [Counter::coverage_at_position] *)
Definition coverage_at_position (c : Counter) (i : Z) : result Z :=
  vector_at (coverage_civ c) i.

(** [CounterArray::increment(i, val)]; [increment(i)] adds one. *)
Definition increment (a : list Z) (i val : Z) : result (list Z) :=
  v <- vector_at a i ;;
  Ok (<[Z.to_nat i := wrap (v + val)]> a).

(** [Counter::ensure_edit_tmpfiles_open]: one fresh, empty file and one
    stream on it per bin.  Opening the files is taken to succeed. *)
Definition ensure_edit_tmpfiles_open (c : Counter) : Counter :=
  match tmpfstreams c with
  | [] =>
      set_tmpfiles c (replicate (Z.to_nat (n_bins c)) [])
                     (replicate (Z.to_nat (n_bins c)) [])
  | _ :: _ => c
  end.

(** [Counter::remove_edit_tmpfiles] *)
Definition remove_edit_tmpfiles (c : Counter) : Counter :=
  set_tmpfiles c [] (tmpfstreams c).

(** [Counter::make_dynamic]: on a compacted instance [assert(false)] ends
    the run, and the assignment after it is not reached. *)
Definition make_dynamic (c : Counter) : result Counter :=
  if negb (is_compacted c) then Ok c
  else Fault AssertionFailed.

(** [Counter::position_in_basis], on the index [xgidx] points to: the
    [int64_t] sum, returned as a [size_t]. *)
Definition position_in_basis (M : Messages) (xg : XG) (pos : Position) : Z :=
  if is_reverse pos then
    wrap (xg_node_start xg (node_id pos)
          + offset (reverse M pos (xg_node_length xg (node_id pos))) - 1)
  else
    wrap (xg_node_start xg (node_id pos) + offset pos).

(** The compacted form as [Counter::serialize] writes it and
    [Counter::load] reads it. *)
Record counter_file : Type := {
  file_bin_size : Z;
  file_n_bins : Z;
  file_coverage_civ : list Z;
  file_edit_csas : list csa
}.

(** [Counter::load] *)
Definition load (c : Counter) (f : counter_file) : Counter :=
  set_compact (set_bins c (file_bin_size f) (file_n_bins f))
    (file_coverage_civ f)
    (take (Z.to_nat (file_n_bins f)) (file_edit_csas f)).

(** [Counter::load_from_file] *)
Definition load_from_file (c : Counter) (f : counter_file) : Counter :=
  set_is_compacted (load c f) true.

Section Encoding.
Variables delim1 delim2 : byte.
Variable M : Messages.

(** [Counter::pos_key] *)
Definition pos_key (i : Z) : list byte :=
  let offset := 2 in
  let pos := {| node_id := wrap (i + offset); offset := 0; is_reverse := false |} in
  [delim1; delim2; delim1]
    ++ escape_delims delim1 delim2 (Position_SerializeToString M pos).

(** [Counter::edit_value] *)
Definition edit_value (e : Edit M) (revcomp : bool) : list byte :=
  let edit_repr :=
    if revcomp then Edit_SerializeToString M (reverse_complement_edit M e)
    else Edit_SerializeToString M e in
  [delim1] ++ escape_delims delim1 delim2 edit_repr.

(** [Counter::close_edit_tmpfiles]: every stream gets the pad and is
    closed, which leaves its file with all that was written. *)
Definition close_edit_tmpfiles (c : Counter) : Counter :=
  match tmpfstreams c with
  | [] => c
  | _ :: _ =>
      set_tmpfiles c ((fun s => s ++ [delim1]) <$> tmpfstreams c) []
  end.

(** [Counter::make_compact] *)
Definition make_compact (c : Counter) : result Counter :=
  if is_compacted c then Ok c
  else
    let c := close_edit_tmpfiles c in
    coverage_iv <-
      mapM (fun i => vector_at (coverage_dynamic c) i)
           (seqZ 0 (size (coverage_dynamic c))) ;;
    let c := set_compact c coverage_iv (construct <$> edit_tmpfile_names c) in
    let c := remove_edit_tmpfiles c in
    Ok (set_is_compacted c true).

(** [Counter::serialize]: compacts, then writes the members. *)
Definition serialize (c : Counter) : result (Counter * counter_file) :=
  c <- make_compact c ;;
  Ok (c, {| file_bin_size := bin_size c;
            file_n_bins := size (edit_csas c);
            file_coverage_civ := coverage_civ c;
            file_edit_csas := edit_csas c |}).

(** The body of the loop over [mapping.edit()] in [Counter::add], on the
    counter and the running index [i]. *)
Definition add_edit (record_edits rev : bool) (st : Counter * Z) (e : Edit M)
    : result (Counter * Z) :=
  let (c, i) := st in
  c <-
    (if edit_is_match M e then
       coverage <-
         foldM (fun coverage j =>
                  increment coverage (if rev then wrap (i - j) else wrap (i + j)) 1)
               (seqZ 0 (wrap (from_length M e))) (coverage_dynamic c) ;;
       Ok (set_coverage_dynamic c coverage)
     else if record_edits then
       let pos_repr := pos_key i in
       let edit_repr := edit_value e rev in
       let bin := bin_for_position c i in
       s <- vector_at (tmpfstreams c) bin ;;
       Ok (set_tmpfiles c (edit_tmpfile_names c)
             (<[Z.to_nat bin := s ++ pos_repr ++ edit_repr]> (tmpfstreams c)))
     else Ok c) ;;
  Ok (c, if rev then wrap (i - from_length M e) else wrap (i + from_length M e)).

(** The body of the loop over [aln.path().mapping()]; [position_in_basis]
    reads through [xgidx], which is null in a default-constructed instance. *)
Definition add_mapping (record_edits : bool) (c : Counter) (m : Mapping M)
    : result Counter :=
  match position m with
  | None => Ok c
  | Some pos =>
      match xgidx c with
      | None => Fault NullPointer
      | Some xg =>
          let i := position_in_basis M xg pos in
          st <- foldM (add_edit record_edits (is_reverse pos)) (edit m) (c, i) ;;
          Ok (fst st)
      end
  end.

(** [Counter::add] *)
Definition add (c : Counter) (aln : Alignment M) (record_edits : bool)
    : result Counter :=
  foldM (add_mapping record_edits) aln (ensure_edit_tmpfiles_open c).

(** [Counter::write_edits(ostream&, size_t)] *)
Definition write_edits_bin (c : Counter) (out : list byte) (bin : Z)
    : result (list byte) :=
  edit_csa <- vector_at (edit_csas c) bin ;;
  s <- extract edit_csa 0 (wrap (size edit_csa - 2)) ;;
  Ok (out ++ s ++ [delim1]).

(** [Counter::write_edits(vector<ofstream>&)] *)
Definition write_edits (c : Counter) (out : list (list byte))
    : result (list (list byte)) :=
  foldM (fun out i =>
           o <- vector_at out i ;;
           o <- write_edits_bin c o i ;;
           Ok (<[Z.to_nat i := o]> out))
        (seqZ 0 (n_bins c)) out.

(** [Counter::collect_coverage] *)
Definition collect_coverage (this c : Counter) : result Counter :=
  coverage <-
    foldM (fun coverage i =>
             v <- coverage_at_position c i ;;
             increment coverage i v)
          (seqZ 0 (graph_length c)) (coverage_dynamic this) ;;
  Ok (set_coverage_dynamic this coverage).

(** [Counter::merge_from_files], on the contents of the named files. *)
Definition merge_from_files (this : Counter) (files : list counter_file)
    : result Counter :=
  foldM (fun this f =>
           let c := load Counter_default f in
           out <- write_edits c (tmpfstreams this) ;;
           collect_coverage (set_tmpfiles this (edit_tmpfile_names this) out) c)
        files (ensure_edit_tmpfiles_open this).

(** The character [extract(edit_csa, e, e)[0]]. *)
Definition char_at (edit_csa : csa) (e : Z) : result byte :=
  s <- extract edit_csa e e ;;
  string_at s 0.

(** [while (extract(edit_csa, e, e)[0] != delim1) ++e;] *)
Fixpoint skip_to_delim (fuel : nat) (edit_csa : csa) (e : Z) : result Z :=
  match fuel with
  | O => Fault OutOfFuel
  | S fuel' =>
      ch <- char_at edit_csa e ;;
      if negb (Byte.eqb ch delim1) then skip_to_delim fuel' edit_csa (wrap (e + 1))
      else Ok e
  end.

(** [while (extract(edit_csa, f, f)[0] == delim1) ++f;] *)
Fixpoint skip_delims (fuel : nat) (edit_csa : csa) (f : Z) : result Z :=
  match fuel with
  | O => Fault OutOfFuel
  | S fuel' =>
      ch <- char_at edit_csa f ;;
      if Byte.eqb ch delim1 then skip_delims fuel' edit_csa (wrap (f + 1))
      else Ok f
  end.

(** The [while (true)] loop of [Counter::edits_at_position]: the value of
    [e] at the [break]. *)
Fixpoint find_end (fuel : nat) (edit_csa : csa) (e : Z) : result Z :=
  match fuel with
  | O => Fault OutOfFuel
  | S fuel' =>
      e <- skip_to_delim (S (length edit_csa)) edit_csa e ;;
      f <- skip_delims (S (length edit_csa)) edit_csa e ;;
      let c := wrap (f - e) in
      let e := f in
      if negb (c mod 2 =? 0) then Ok e
      else find_end fuel' edit_csa e
  end.

(** The string [value] that [Counter::edits_at_position] hands to
    [ParseFromString] for the occurrence [occ] of [key]. *)
Definition edit_value_at (edit_csa : csa) (key : list byte) (occ : Z)
    : result (list byte) :=
  let b := wrap (occ + size key + 1) in
  e <- find_end (S (length edit_csa)) edit_csa b ;;
  s <- extract edit_csa b e ;;
  unescape_delims delim1 delim2 s.

(** The strings [value] of a call of [Counter::edits_at_position], one per
    occurrence. *)
Definition edit_values_at_position (c : Counter) (i : Z)
    : result (list (list byte)) :=
  if i =? 0 then Ok []
  else
    let key := pos_key i in
    let bin := bin_for_position c i in
    edit_csa <- vector_at (edit_csas c) bin ;;
    mapM (edit_value_at edit_csa key) (locate edit_csa key).

(** [Counter::edits_at_position] *)
Definition edits_at_position (c : Counter) (i : Z) : result (list (Edit M)) :=
  values <- edit_values_at_position c i ;;
  Ok (Edit_ParseFromString M <$> values).

End Encoding.

(** ** A concrete message layer, for running the counter

    The protobuf wire format of the two messages, written out so that the
    definitions above can be evaluated on concrete alignments. *)

Module Proto.

Record edit : Type := {
  edit_from_length : Z;
  edit_to_length : Z;
  edit_sequence : list byte
}.

Definition byte_of_Z (z : Z) : byte :=
  match Byte.of_N (Z.to_N (z mod 256)) with
  | Some b => b
  | None => x00
  end.

Definition Z_of_byte (b : byte) : Z := Z.of_N (Byte.to_N b).

(** Base-128 varint, least significant group first. *)
Fixpoint varint (fuel : nat) (z : Z) : list byte :=
  match fuel with
  | O => []
  | S fuel' =>
      if z <? 128 then [byte_of_Z z]
      else byte_of_Z (z mod 128 + 128) :: varint fuel' (z / 128)
  end.

Definition uvarint (z : Z) : list byte := varint 10 (wrap z).

Fixpoint read_varint (fuel : nat) (s : list byte) : option (Z * list byte) :=
  match fuel, s with
  | S fuel', b :: s' =>
      if Z_of_byte b <? 128 then Some (Z_of_byte b, s')
      else
        match read_varint fuel' s' with
        | Some (z, rest) => Some (Z_of_byte b - 128 + 128 * z, rest)
        | None => None
        end
  | _, _ => None
  end.

(** Fields 1, 2 and 3 of [Edit]; a field at its default is not written. *)
Definition serialize_edit (e : edit) : list byte :=
  (if edit_from_length e =? 0 then [] else x08 :: uvarint (edit_from_length e))
  ++ (if edit_to_length e =? 0 then [] else x10 :: uvarint (edit_to_length e))
  ++ (match edit_sequence e with
      | [] => []
      | _ :: _ => x1a :: uvarint (size (edit_sequence e)) ++ edit_sequence e
      end).

(** Fields 1, 2 and 4 of [Position]. *)
Definition serialize_position (p : Position) : list byte :=
  (if node_id p =? 0 then [] else x08 :: uvarint (node_id p))
  ++ (if offset p =? 0 then [] else x10 :: uvarint (offset p))
  ++ (if is_reverse p then [x20; x01] else []).

(** Parsing merges fields into the message until the input ends or stops
    being a field of [Edit]; the fields read up to there are kept.  The two
    lengths are kept as the varints that are read, without the truncation
    to 32 bits of the generated parser: the inputs evaluated below stay
    under 2^31. *)
Fixpoint parse_fields (fuel : nat) (s : list byte) (e : edit) : edit :=
  match fuel, s with
  | S fuel', tag :: s' =>
      if Byte.eqb tag x08 then
        match read_varint 10 s' with
        | Some (z, rest) =>
            parse_fields fuel' rest
              {| edit_from_length := z; edit_to_length := edit_to_length e;
                 edit_sequence := edit_sequence e |}
        | None => e
        end
      else if Byte.eqb tag x10 then
        match read_varint 10 s' with
        | Some (z, rest) =>
            parse_fields fuel' rest
              {| edit_from_length := edit_from_length e; edit_to_length := z;
                 edit_sequence := edit_sequence e |}
        | None => e
        end
      else if Byte.eqb tag x1a then
        match read_varint 10 s' with
        | Some (n, rest) =>
            if (Z.to_nat n <=? length rest)%nat then
              parse_fields fuel' (drop (Z.to_nat n) rest)
                {| edit_from_length := edit_from_length e;
                   edit_to_length := edit_to_length e;
                   edit_sequence := take (Z.to_nat n) rest |}
            else e
        | None => e
        end
      else e
  | _, _ => e
  end.

Definition parse_edit (s : list byte) : edit :=
  parse_fields (length s) s
    {| edit_from_length := 0; edit_to_length := 0; edit_sequence := [] |}.

Definition complement (b : byte) : byte :=
  if Byte.eqb b x41 then x54        (* A -> T *)
  else if Byte.eqb b x54 then x41   (* T -> A *)
  else if Byte.eqb b x43 then x47   (* C -> G *)
  else if Byte.eqb b x47 then x43   (* G -> C *)
  else b.

Definition messages : Messages :=
  {| Edit := edit;
     from_length := edit_from_length;
     edit_is_match := fun e =>
       (edit_from_length e =? edit_to_length e)
       && match edit_sequence e with [] => true | _ :: _ => false end;
     reverse_complement_edit := fun e =>
       {| edit_from_length := edit_from_length e;
          edit_to_length := edit_to_length e;
          edit_sequence := complement <$> rev (edit_sequence e) |};
     Edit_SerializeToString := serialize_edit;
     Edit_ParseFromString := parse_edit;
     Position_SerializeToString := serialize_position;
     reverse := fun p len =>
       {| node_id := node_id p; offset := len - offset p;
          is_reverse := negb (is_reverse p) |} |}.

(** A graph of one node, with id 1, of the given length. *)
Definition one_node (len : Z) : XG :=
  {| seq_length := len;
     xg_node_start := fun _ => 0;
     xg_node_length := fun _ => len |}.

Definition forward (off : Z) : Position :=
  {| node_id := 1; offset := off; is_reverse := false |}.

Definition match_edit (len : Z) : edit :=
  {| edit_from_length := len; edit_to_length := len; edit_sequence := [] |}.

(** A substitution of one base by [A]. *)
Definition snp : edit :=
  {| edit_from_length := 1; edit_to_length := 1; edit_sequence := [x41] |}.

(** A deletion of [len] bases. *)
Definition deletion (len : Z) : edit :=
  {| edit_from_length := len; edit_to_length := 0; edit_sequence := [] |}.

(** The mapping at [pos] with the given edits. *)
Definition mapping (pos : Position) (edits : list edit) : Mapping messages :=
  Build_Mapping messages (Some pos) edits.

(** The marker bytes, "separators that are somewhat unusual". *)
Definition delim1 : byte := xff.
Definition delim2 : byte := xfe.

(** The run of the specification's scenario: basis length 10, bin size 5, a
    trivial match over positions 3 to 5, then one substitution at position 7,
    then compaction. *)
Definition scenario_alignments : list (Alignment messages) :=
  [ [mapping (forward 3) [match_edit 3]]; [mapping (forward 7) [snp]] ].

Definition scenario : result Counter :=
  c <- Counter_new (one_node 10) 5 ;;
  c <- foldM (fun c aln => add delim1 delim2 messages c aln true)
         scenario_alignments c ;;
  make_compact delim1 c.

(** An edit at position 0: a substitution at the first base. *)
Definition origin_alignments : list (Alignment messages) :=
  [ [mapping (forward 0) [snp]] ].

Definition origin_scenario : result Counter :=
  c <- Counter_new (one_node 10) 5 ;;
  c <- foldM (fun c aln => add delim1 delim2 messages c aln true)
         origin_alignments c ;;
  make_compact delim1 c.

(** A deletion of 255 bases at position 7 of a basis of 1000 positions; its
    length is written as the two bytes [ff 01]. *)
Definition deletion_alignments : list (Alignment messages) :=
  [ [mapping (forward 7) [deletion 255]] ].

Definition deletion_scenario : result Counter :=
  c <- Counter_new (one_node 1000) 500 ;;
  c <- foldM (fun c aln => add delim1 delim2 messages c aln true)
         deletion_alignments c ;;
  make_compact delim1 c.

Definition scenario_counter : Counter :=
  match scenario with
  | Ok c => c
  | Fault _ => Counter_default
  end.

End Proto.

(** ** The claims of the specification, in its own words *)

(** Number of bins: "nBins = binSize>0 ? ceil(L / binSize) : 1". *)
Definition spec_n_bins (L binSize : Z) : Z :=
  if binSize >? 0 then (L + binSize - 1) / binSize else 1.

(** What the write path does to the counter, one event per increment of the
    coverage array and one per record appended to an edit log. *)
Inductive event (M : Messages) : Type :=
| Increment (p : Z)
| Record (i : Z) (e : Edit M) (rev : bool).
Arguments Increment {M} p.
Arguments Record {M} i e rev.

Section Events.
Variable M : Messages.

(** The positions of a trivial-match segment of length [len] met at [i]:
    "i, i+1, ..." on the forward strand and "i, i-1, ..." on the reverse
    strand. *)
Definition segment_positions (rev : bool) (i len : Z) : list Z :=
  (fun j => if rev then i - j else i + j) <$> seqZ 0 len.

(** The events of the edits of one mapping, met from position [i] on. *)
Fixpoint edit_events (record_edits rev : bool) (i : Z) (edits : list (Edit M))
    : list (event M) :=
  match edits with
  | [] => []
  | e :: edits' =>
      (if edit_is_match M e then
         Increment <$> segment_positions rev i (from_length M e)
       else if record_edits then [Record i e rev]
       else [])
      ++ edit_events record_edits rev
           (if rev then i - from_length M e else i + from_length M e) edits'
  end.

Definition mapping_events (record_edits : bool) (xg : XG) (m : Mapping M)
    : list (event M) :=
  match position m with
  | None => []
  | Some pos =>
      edit_events record_edits (is_reverse pos) (position_in_basis M xg pos) (edit m)
  end.

(** The events of a sequence of [add] calls. *)
Definition add_events (record_edits : bool) (xg : XG) (alns : list (Alignment M))
    : list (event M) :=
  concat ((fun aln => concat (mapping_events record_edits xg <$> aln)) <$> alns).

(** The number of increments at position [p]. *)
Fixpoint tally (evs : list (event M)) (p : Z) : Z :=
  match evs with
  | [] => 0
  | Increment q :: evs' => (if q =? p then 1 else 0) + tally evs' p
  | Record _ _ _ :: evs' => tally evs' p
  end.

(** The records appended to the log of bin [bin], with bins of [binsz]
    positions. *)
Fixpoint records_in (binsz : Z) (evs : list (event M)) (bin : Z)
    : list (Z * Edit M * bool) :=
  match evs with
  | [] => []
  | Increment _ :: evs' => records_in binsz evs' bin
  | Record i e rev :: evs' =>
      if i / binsz =? bin then (i, e, rev) :: records_in binsz evs' bin
      else records_in binsz evs' bin
  end.

(** An event the arrays have room for: an increment inside the basis, a
    record at a position whose bin has an edit log. *)
Definition event_in_range (L binsz nbins : Z) (ev : event M) : Prop :=
  match ev with
  | Increment p => 0 <= p < L
  | Record i _ _ => 0 <= i < size_modulus /\ i / binsz < nbins
  end.

(** The lengths of all edits are [size_t] values. *)
Definition lengths_in_range (alns : list (Alignment M)) : Prop :=
  Forall (Forall (fun m =>
            Forall (fun e => 0 <= from_length M e < size_modulus) (edit m)))
         alns.

End Events.

(** What one call of the write path appends to a bin's edit log: the key of
    the position, then the value of the edit. *)
Definition stored_record (delim1 delim2 : byte) (M : Messages)
    (r : Z * Edit M * bool) : list byte :=
  let '(i, e, rev) := r in
  pos_key delim1 delim2 M i ++ edit_value delim1 delim2 M e rev.

(** An edit log with the given records, closed: the records in order, then
    the pad. *)
Definition closed_log (delim1 delim2 : byte) (M : Messages)
    (recs : list (Z * Edit M * bool)) : list byte :=
  concat (stored_record delim1 delim2 M <$> recs) ++ [delim1].

(** The offsets at which the records of a log start, the first at [k]. *)
Fixpoint record_offsets (delim1 delim2 : byte) (M : Messages)
    (recs : list (Z * Edit M * bool)) (k : nat) : list nat :=
  match recs with
  | [] => []
  | r :: recs' =>
      k :: record_offsets delim1 delim2 M recs'
             (k + length (stored_record delim1 delim2 M r))
  end.

(** The vector [f 0, ..., f (n - 1)]. *)
Definition tabulate {A} (f : Z -> A) (n : Z) : list A := f <$> seqZ 0 n.

(** The coverage array after the events [evs] on a basis of [L] positions,
    from zero counts. *)
Definition coverage_after (M : Messages) (L : Z) (evs : list (event M)) : list Z :=
  tabulate (fun p => wrap (tally M evs p)) L.

(** The bytes written to the edit log of bin [bin]. *)
Definition log_of (delim1 delim2 : byte) (M : Messages) (binsz : Z)
    (evs : list (event M)) (bin : Z) : list byte :=
  concat (stored_record delim1 delim2 M <$> records_in M binsz evs bin).

(** The edit logs after the events [evs], from empty logs. *)
Definition logs_after (delim1 delim2 : byte) (M : Messages) (binsz nbins : Z)
    (evs : list (event M)) : list (list byte) :=
  tabulate (log_of delim1 delim2 M binsz evs) nbins.

(** The open instance on [xg] whose write path has seen the events [evs]. *)
Definition open_counter (delim1 delim2 : byte) (M : Messages) (xg : XG)
    (binsz nbins : Z) (evs : list (event M)) : Counter :=
  {| xgidx := Some xg; bin_size := binsz; n_bins := nbins;
     is_compacted := false;
     coverage_dynamic := coverage_after M (seq_length xg) evs;
     edit_tmpfile_names := replicate (Z.to_nat nbins) [];
     tmpfstreams := logs_after delim1 delim2 M binsz nbins evs;
     coverage_civ := []; edit_csas := [] |}.

(** The same instance once compacted. *)
Definition compacted_counter (delim1 delim2 : byte) (M : Messages) (xg : XG)
    (binsz nbins : Z) (evs : list (event M)) : Counter :=
  {| xgidx := Some xg; bin_size := binsz; n_bins := nbins;
     is_compacted := true;
     coverage_dynamic := coverage_after M (seq_length xg) evs;
     edit_tmpfile_names := [];
     tmpfstreams := [];
     coverage_civ := coverage_after M (seq_length xg) evs;
     edit_csas :=
       tabulate (fun bin => construct (log_of delim1 delim2 M binsz evs bin ++ [delim1]))
                nbins |}.

(** The scan of the read path as a machine over the bytes from offset [k]
    on: it is in a run of [n] marker bytes ([0]: in none), and stops at the
    first other byte after a run of odd length. *)
Fixpoint run_end (delim1 : byte) (l : list byte) (n k : Z) : option Z :=
  match l with
  | [] => None
  | ch :: l' =>
      if Byte.eqb ch delim1 then run_end delim1 l' (n + 1) (k + 1)
      else if negb (n mod 2 =? 0) then Some k
      else run_end delim1 l' 0 (k + 1)
  end.

(** Equality of bytes is decidable. *)
#[global] Instance byte_eq_decision : EqDecision byte := Byte.byte_eq_dec.

(** The bytes of the placeholder position that [pos_key] escapes. *)
Definition position_bytes (M : Messages) (i : Z) : list byte :=
  Position_SerializeToString M
    {| node_id := wrap (i + 2); offset := 0; is_reverse := false |}.

(** The edit as [edit_value] serializes it: on the forward strand. *)
Definition forward_edit (M : Messages) (e : Edit M) (rev : bool) : Edit M :=
  if rev then reverse_complement_edit M e else e.

(** What an edit log is made of: records, and pairs of marker bytes (the pad
    of a log that was copied by [write_edits] and the marker written after
    it). *)
Inductive token (M : Messages) : Type :=
| Rec (i : Z) (e : Edit M) (rev : bool)
| Gap.
Arguments Rec {M} i e rev.
Arguments Gap {M}.

Section Tokens.
Variables delim1 delim2 : byte.
Variable M : Messages.

Definition token_bytes (t : token M) : list byte :=
  match t with
  | Rec i e rev => stored_record delim1 delim2 M (i, e, rev)
  | Gap => [delim1; delim1]
  end.

(** A closed log with the given tokens. *)
Definition token_log (toks : list (token M)) : list byte :=
  concat (token_bytes <$> toks) ++ [delim1].

(** The text of the index of a log from some token on. *)
Definition log_tail (toks : list (token M)) : list byte :=
  concat (token_bytes <$> toks) ++ [delim1; x00].

(** What follows the escaped payload of a record in the text, up to the
    first byte after the run of markers: the run, then the second byte of
    the next key or the null symbol that ends the text. *)
Fixpoint terminator (toks : list (token M)) : list byte :=
  match toks with
  | [] => [delim1; x00]
  | Gap :: toks' => delim1 :: delim1 :: terminator toks'
  | Rec _ _ _ :: _ => [delim1; delim2]
  end.

(** The offsets of the records with the given key, the first token at
    [k]. *)
Fixpoint matching_offsets (key : list byte) (toks : list (token M)) (k : Z)
    : list Z :=
  match toks with
  | [] => []
  | Gap :: toks' => matching_offsets key toks' (k + 2)
  | Rec i e rev :: toks' =>
      (if decide (key = pos_key delim1 delim2 M i) then [k] else [])
      ++ matching_offsets key toks'
           (k + size (stored_record delim1 delim2 M (i, e, rev)))
  end.

(** The strings that the read path hands to the parser for the records
    with the given key. *)
Fixpoint stored_values (key : list byte) (toks : list (token M))
    : list (list byte) :=
  match toks with
  | [] => []
  | Gap :: toks' => stored_values key toks'
  | Rec i e rev :: toks' =>
      if decide (key = pos_key delim1 delim2 M i) then
        (escape_delims delim1 delim2
           (Edit_SerializeToString M (forward_edit M e rev))
         ++ terminator toks')
        :: stored_values key toks'
      else stored_values key toks'
  end.

(** The edits, on the forward strand, of the records with the given key. *)
Fixpoint stored_edits (key : list byte) (toks : list (token M))
    : list (Edit M) :=
  match toks with
  | [] => []
  | Gap :: toks' => stored_edits key toks'
  | Rec i e rev :: toks' =>
      if decide (key = pos_key delim1 delim2 M i) then
        forward_edit M e rev :: stored_edits key toks'
      else stored_edits key toks'
  end.

(** The positions of the records of a log. *)
Fixpoint token_positions (toks : list (token M)) : list Z :=
  match toks with
  | [] => []
  | Gap :: toks' => token_positions toks'
  | Rec i _ _ :: toks' => i :: token_positions toks'
  end.

End Tokens.

(** No key of a position in [P] is the beginning of the key of another: the
    serialization of the placeholder positions is a prefix code. *)
Definition prefix_free_keys (M : Messages) (P : Z -> Prop) : Prop :=
  forall i j,
    P i -> P j ->
    position_bytes M i `prefix_of` position_bytes M j ->
    position_bytes M i = position_bytes M j.

(** The tokens of a log that holds records only. *)
Definition rec_tokens {M : Messages} (recs : list (Z * Edit M * bool))
    : list (token M) :=
  (fun r => let '(i, e, rev) := r in Rec i e rev) <$> recs.

(** An open instance on [xg] given by the entries of its coverage array and
    of its edit logs. *)
Definition merging_counter (xg : XG) (binsz nbins : Z) (coverage : Z -> Z)
    (logs : Z -> list byte) : Counter :=
  {| xgidx := Some xg; bin_size := binsz; n_bins := nbins;
     is_compacted := false;
     coverage_dynamic := tabulate coverage (seq_length xg);
     edit_tmpfile_names := replicate (Z.to_nat nbins) [];
     tmpfstreams := tabulate logs nbins;
     coverage_civ := []; edit_csas := [] |}.

(** The parser returns the same edit for the escaped bytes of a stored edit
    whatever odd run of markers and whatever other byte follow them: it
    reads the fields of the edit and stops at the first marker. *)
Definition parse_ignores_terminator (delim1 delim2 : byte) (M : Messages)
    (stored : Edit M -> Prop) : Prop :=
  forall (e : Edit M) (g g' : nat) (x x' : byte),
    stored e -> x <> delim1 -> x' <> delim1 ->
    Edit_ParseFromString M
      (escape_delims delim1 delim2 (Edit_SerializeToString M e)
       ++ repeat delim1 (2 * g + 1) ++ [x])
    = Edit_ParseFromString M
        (escape_delims delim1 delim2 (Edit_SerializeToString M e)
         ++ repeat delim1 (2 * g' + 1) ++ [x']).

(** What the last pass of the loop of [unescape_delim] leaves of the last
    two characters [c] and [b] of the string. *)
Definition unescape_tail (d c b : byte) : list byte :=
  if Byte.eqb c d && Byte.eqb b d then [c] else [c; b].

(** The tokens of the edit logs of [Proto.scenario_counter]: one
    substitution at position 7, in the bin of the positions 5 to 9. *)
Definition scenario_tokens (bin : Z) : list (token Proto.messages) :=
  if bin =? 1 then [@Rec Proto.messages 7 Proto.snp false] else [].

(** The members that the queries and the serialized form read. *)
Definition compact_members (c : Counter) : Z * Z * bool * list Z * list csa :=
  (bin_size c, n_bins c, is_compacted c, coverage_civ c, edit_csas c).

(** The increments among the events of the write path. *)
Fixpoint increments_only {M : Messages} (evs : list (event M)) : list (event M) :=
  match evs with
  | [] => []
  | Increment p :: evs' => Increment p :: increments_only evs'
  | Record _ _ _ :: evs' => increments_only evs'
  end.

(** A saved instance over the basis and the bins of [xg] with bins of
    [binsz] positions, whose edit logs are closed logs of the tokens
    [toks]. *)
Definition file_fits (delim1 delim2 : byte) (M : Messages) (xg : XG) (binsz : Z)
    (f : counter_file) (toks : Z -> list (token M)) : Prop :=
  file_n_bins f = seq_length xg / binsz + 1
  /\ size (file_coverage_civ f) = seq_length xg
  /\ file_edit_csas f
     = tabulate (fun bin => construct (token_log delim1 delim2 M (toks bin)))
                (seq_length xg / binsz + 1)
  /\ forall bin, size (construct (token_log delim1 delim2 M (toks bin))) < size_modulus.

(** [Counter::edits_at_position] with the order in which [locate] reports
    the occurrences left open: sdsl reports them in the order of the suffix
    array, here [order] applied to the increasing offsets.  With the
    identity for [order] these are [edit_values_at_position] and
    [edits_at_position]. *)
Definition edit_values_in_order (delim1 delim2 : byte) (M : Messages)
    (order : list Z -> list Z) (c : Counter) (i : Z) : result (list (list byte)) :=
  if i =? 0 then Ok []
  else
    let key := pos_key delim1 delim2 M i in
    let bin := bin_for_position c i in
    edit_csa <- vector_at (edit_csas c) bin ;;
    mapM (edit_value_at delim1 delim2 edit_csa key) (order (locate edit_csa key)).

Definition edits_in_order (delim1 delim2 : byte) (M : Messages)
    (order : list Z -> list Z) (c : Counter) (i : Z) : result (list (Edit M)) :=
  values <- edit_values_in_order delim1 delim2 M order c i ;;
  Ok (Edit_ParseFromString M <$> values).

(** * Properties *)

(** ** The C++ value model *)

Lemma wrap_small z : 0 <= z < size_modulus -> wrap z = z.
Proof. intros H. unfold wrap. apply Z.mod_small. exact H. Qed.

Lemma size_modulus_pos : 0 < size_modulus.
Proof. reflexivity. Qed.

Lemma wrap_range z : 0 <= wrap z < size_modulus.
Proof. unfold wrap. apply Z.mod_pos_bound. exact size_modulus_pos. Qed.

Lemma size_nonneg {A} (s : list A) : 0 <= size s.
Proof. unfold size. lia. Qed.

Lemma size_app {A} (s t : list A) : size (s ++ t) = size s + size t.
Proof. unfold size. rewrite length_app. lia. Qed.

Lemma size_cons {A} (a : A) (s : list A) : size (a :: s) = 1 + size s.
Proof. unfold size. simpl length. lia. Qed.

Lemma size_repeat {A} (a : A) (n : nat) : size (repeat a n) = Z.of_nat n.
Proof. unfold size. rewrite repeat_length. reflexivity. Qed.

Lemma string_at_app (pre : list byte) (c : byte) (post : list byte) :
  string_at (pre ++ c :: post) (size pre) = Ok c.
Proof.
  unfold string_at.
  assert (Hlt : (0 <=? size pre) && (size pre <? size (pre ++ c :: post)) = true).
  { rewrite size_app, size_cons.
    pose proof (size_nonneg pre). pose proof (size_nonneg post).
    apply andb_true_intro. split; [apply Z.leb_le | apply Z.ltb_lt]; lia. }
  rewrite Hlt. unfold size. rewrite Nat2Z.id.
  rewrite list_lookup_middle by reflexivity. reflexivity.
Qed.

Lemma vector_at_lookup {A} (v : list A) (i : Z) (a : A) :
  0 <= i -> v !! Z.to_nat i = Some a -> vector_at v i = Ok a.
Proof.
  intros Hi Hl. unfold vector_at.
  assert (Hlt : (Z.to_nat i < length v)%nat) by (eapply lookup_lt_Some; eauto).
  assert (Hb : (0 <=? i) && (i <? size v) = true).
  { apply andb_true_intro. unfold size. split; [apply Z.leb_le | apply Z.ltb_lt]; lia. }
  rewrite Hb, Hl. reflexivity.
Qed.

Lemma vector_at_Ok {A} (v : list A) (i : Z) (a : A) :
  vector_at v i = Ok a -> 0 <= i < size v /\ v !! Z.to_nat i = Some a.
Proof.
  unfold vector_at. destruct ((0 <=? i) && (i <? size v)) eqn:Hb; [| discriminate].
  apply andb_prop in Hb as [H1 H2]. apply Z.leb_le in H1. apply Z.ltb_lt in H2.
  destruct (v !! Z.to_nat i) eqn:Hl; [| discriminate].
  intros [= ->]. auto.
Qed.

(** ** Bytes *)

Lemma eqb_refl_byte (b : byte) : Byte.eqb b b = true.
Proof. apply Byte.byte_dec_lb. reflexivity. Qed.

Lemma eqb_neq_byte (a b : byte) : a <> b -> Byte.eqb a b = false.
Proof.
  intros H. destruct (Byte.eqb a b) eqn:E; [| reflexivity].
  apply Byte.byte_dec_bl in E. contradiction.
Qed.

Lemma eqb_sym_byte (a b : byte) : Byte.eqb a b = Byte.eqb b a.
Proof.
  destruct (Byte.eqb a b) eqn:E.
  - apply Byte.byte_dec_bl in E. subst. symmetry. apply eqb_refl_byte.
  - apply Byte.eqb_false in E. symmetry. apply eqb_neq_byte. congruence.
Qed.

(** ** What [unescape_delim] computes *)

Section Unescape.
Variable d : byte.

(** From index [size pre1] on, every pass pushes the character it is at;
    only the last one looks at what follows. *)
Lemma unescape_loop_run (pre2 : list byte) :
  forall (pre1 : list byte) (c b : byte) (fuel : nat) (acc : list byte),
    size (pre1 ++ pre2 ++ [c; b]) < size_modulus ->
    (length pre2 < fuel)%nat ->
    unescape_loop fuel (pre1 ++ pre2 ++ [c; b]) d (size pre1) acc
    = Ok (acc ++ pre2 ++ unescape_tail d c b).
Proof.
  induction pre2 as [| x pre2 IH]; intros pre1 c b fuel acc Hsz Hfuel.
  - destruct fuel as [| fuel]; [simpl in Hfuel; lia |].
    cbn [app] in *. cbn [unescape_loop].
    pose proof (size_nonneg pre1) as Hp.
    rewrite size_app, !size_cons in Hsz.
    change (size (@nil byte)) with 0 in Hsz.
    assert (Hn : size (pre1 ++ [c; b]) = size pre1 + 2).
    { rewrite size_app, !size_cons. reflexivity. }
    rewrite Hn.
    replace (size pre1 + 2 - 1) with (size pre1 + 1) by lia.
    replace (size pre1 + 2 - 2) with (size pre1) by lia.
    rewrite !wrap_small by lia.
    assert (Hlt : (size pre1 <? size pre1 + 1) = true) by (apply Z.ltb_lt; lia).
    rewrite Hlt.
    rewrite string_at_app. cbn [bind].
    replace (pre1 ++ [c; b]) with ((pre1 ++ [c]) ++ [b]) at 1
      by (rewrite <- app_assoc; reflexivity).
    replace (size pre1 + 1) with (size (pre1 ++ [c]))
      by (rewrite size_app, size_cons; reflexivity).
    rewrite string_at_app. cbn [bind].
    rewrite size_app, size_cons. change (size (@nil byte)) with 0.
    rewrite Z.eqb_refl.
    assert (Hstop : forall f a,
      unescape_loop f ((pre1 ++ [c]) ++ [b]) d (size pre1 + (1 + 0)) a = Ok a).
    { intros f a.
      assert (Hge : (size pre1 + (1 + 0) <? wrap (size ((pre1 ++ [c]) ++ [b]) - 1)) = false).
      { rewrite !size_app, !size_cons. change (size (@nil byte)) with 0.
        rewrite wrap_small by lia. apply Z.ltb_ge. lia. }
      destruct f; cbn [unescape_loop]; rewrite Hge; reflexivity. }
    replace (pre1 ++ [c; b]) with ((pre1 ++ [c]) ++ [b])
      by (rewrite <- app_assoc; reflexivity).
    rewrite Hstop. unfold unescape_tail.
    destruct (Byte.eqb c d && Byte.eqb b d); rewrite <- ?app_assoc; reflexivity.
  - destruct fuel as [| fuel]; [simpl in Hfuel; lia |].
    cbn [app] in *. cbn [unescape_loop].
    pose proof (size_nonneg pre1) as Hp. pose proof (size_nonneg pre2) as Hp2.
    assert (Hn : size (pre1 ++ x :: pre2 ++ [c; b]) = size pre1 + size pre2 + 3).
    { rewrite !size_app, !size_cons, size_app, !size_cons.
      change (size (@nil byte)) with 0. lia. }
    rewrite Hn in *.
    rewrite !wrap_small by lia.
    assert (Hlt : (size pre1 <? size pre1 + size pre2 + 3 - 1) = true)
      by (apply Z.ltb_lt; lia).
    rewrite Hlt.
    rewrite string_at_app. cbn [bind].
    replace (pre1 ++ x :: pre2 ++ [c; b]) with ((pre1 ++ [x]) ++ pre2 ++ [c; b])
      by (rewrite <- app_assoc; reflexivity).
    assert (Hnext : exists y rest, pre2 ++ [c; b] = y :: rest).
    { destruct pre2; cbn [app]; eauto. }
    destruct Hnext as (y & rest & Hy).
    replace (size pre1 + 1) with (size (pre1 ++ [x]))
      by (rewrite size_app, size_cons; reflexivity).
    rewrite Hy at 1. rewrite string_at_app. cbn [bind].
    assert (Hne : (size pre1 =? size pre1 + size pre2 + 3 - 2) = false)
      by (apply Z.eqb_neq; lia).
    rewrite size_app, size_cons. change (size (@nil byte)) with 0.
    rewrite Hne.
    replace (size pre1 + (1 + 0)) with (size (pre1 ++ [x]))
      by (rewrite size_app, size_cons; reflexivity).
    replace (if Byte.eqb x d && Byte.eqb y d then acc ++ [x] else acc ++ [x])
      with (acc ++ [x]) by (destruct (Byte.eqb x d && Byte.eqb y d); reflexivity).
    rewrite IH.
    + rewrite <- app_assoc. reflexivity.
    + rewrite <- app_assoc. cbn [app]. lia.
    + simpl in Hfuel. lia.
Qed.

(** With two characters or more: the input, without its last character
    when the last two are both the delimiter. *)
Lemma unescape_delim_two (pre : list byte) (c b : byte) :
  size (pre ++ [c; b]) < size_modulus ->
  unescape_delim (pre ++ [c; b]) d = Ok (pre ++ unescape_tail d c b).
Proof.
  intros Hsz. unfold unescape_delim.
  apply (unescape_loop_run pre [] c b _ []).
  - exact Hsz.
  - rewrite length_app. simpl. lia.
Qed.

(** With one character the loop body never runs. *)
Lemma unescape_delim_one (c : byte) : unescape_delim [c] d = Ok [].
Proof. reflexivity. Qed.

(** On the empty string [s.size()-1] wraps, the loop is entered and its
    first pass reads [s[1]]. *)
Lemma unescape_delim_empty : unescape_delim [] d = Fault OutOfBounds.
Proof. reflexivity. Qed.

End Unescape.

(** The loop budget of [unescape_delim] is never what ends it. *)
Lemma unescape_delim_fuel (s : list byte) (d : byte) (fuel : nat) :
  size s < size_modulus ->
  (length s < fuel)%nat ->
  unescape_loop fuel s d 0 [] = unescape_delim s d.
Proof.
  intros Hsz Hfuel.
  destruct (rev s) as [| b [| c pre]] eqn:Hrev.
  - apply (f_equal (@rev byte)) in Hrev. rewrite rev_involutive in Hrev.
    subst s. destruct fuel; [simpl in Hfuel; lia | reflexivity].
  - apply (f_equal (@rev byte)) in Hrev. rewrite rev_involutive in Hrev.
    subst s. destruct fuel; [simpl in Hfuel; lia |].
    destruct fuel; reflexivity.
  - apply (f_equal (@rev byte)) in Hrev. rewrite rev_involutive in Hrev.
    assert (Hs : s = rev pre ++ [c; b]).
    { rewrite Hrev. cbn [rev]. rewrite <- app_assoc. reflexivity. }
    rewrite Hs in *.
    rewrite unescape_delim_two by exact Hsz.
    apply (unescape_loop_run d (rev pre) [] c b fuel []).
    + exact Hsz.
    + rewrite length_app in Hfuel. simpl in Hfuel. lia.
Qed.

(** ** Escaping round trip *)

(** C1. The round trip [unescape_delims (escape_delims s) = s] fails on the
    string of three marker bytes, whatever the two marker bytes are: a
    doubled marker is pushed on both passes over it, so of the six bytes of
    the escaped form at least five come back. *)
Theorem unescape_escape_three_markers (delim1 delim2 : byte) :
  unescape_delims delim1 delim2
    (escape_delims delim1 delim2 [delim1; delim1; delim1])
  <> Ok [delim1; delim1; delim1].
Proof.
  unfold escape_delims, unescape_delims. cbn [escape_delim].
  rewrite eqb_refl_byte. cbn [escape_delim].
  destruct (Byte.eqb delim1 delim2) eqn:E.
  - apply Byte.byte_dec_bl in E. subst delim2.
    pose proof (unescape_delim_two delim1 (repeat delim1 10) delim1 delim1
                  ltac:(reflexivity)) as H1.
    pose proof (unescape_delim_two delim1 (repeat delim1 9) delim1 delim1
                  ltac:(reflexivity)) as H2.
    unfold unescape_tail in H1, H2. rewrite eqb_refl_byte in H1, H2.
    cbn [andb repeat app] in H1, H2.
    rewrite H1. cbn [bind]. rewrite H2. discriminate.
  - pose proof (unescape_delim_two delim1 (repeat delim1 4) delim1 delim1
                  ltac:(reflexivity)) as H1.
    pose proof (unescape_delim_two delim2 (repeat delim1 3) delim1 delim1
                  ltac:(reflexivity)) as H2.
    unfold unescape_tail in H1, H2. rewrite eqb_refl_byte in H1. rewrite E in H2.
    cbn [andb repeat app] in H1, H2.
    rewrite H1. cbn [bind]. rewrite H2. discriminate.
Qed.

(** C10. [unescape_delim] on the empty string does not return the empty
    string: the bound [s.size()-1] wraps, the loop is entered, and its first
    pass reads [s[1]], outside the string; [unescape_delims] inherits it.  A
    one-character string is read within bounds and comes back empty. *)
Theorem unescape_delim_empty_out_of_bounds (delim1 delim2 d c : byte) :
  unescape_delim [] d = Fault OutOfBounds
  /\ unescape_delims delim1 delim2 [] = Fault OutOfBounds
  /\ unescape_delim [c] d = Ok [].
Proof. repeat split. Qed.

(** ** The number of bins *)

Lemma ceil_or_one_more (L b : Z) :
  0 < b -> 0 <= L ->
  L / b + 1 = spec_n_bins L b + (if L mod b =? 0 then 1 else 0).
Proof.
  intros Hb HL. unfold spec_n_bins.
  assert (Hgt : (b >? 0) = true) by (apply Z.gtb_lt; lia).
  rewrite Hgt.
  pose proof (Z.div_mod L b ltac:(lia)) as Hdm.
  pose proof (Z.mod_pos_bound L b Hb) as Hr.
  destruct (L mod b =? 0) eqn:E.
  - apply Z.eqb_eq in E.
    assert (Hq : (L + b - 1) / b = L / b).
    { symmetry. apply (Z.div_unique _ _ _ (b - 1)); lia. }
    lia.
  - apply Z.eqb_neq in E.
    assert (Hq : (L + b - 1) / b = L / b + 1).
    { symmetry. apply (Z.div_unique _ _ _ (L mod b - 1)); lia. }
    lia.
Qed.

(** C2, as the code has it.  With a positive bin size the constructor
    returns an instance with [seq_length / bin_size + 1] bins: the ceiling of
    the specification when the bin size does not divide the basis length,
    and one bin more when it does. *)
Theorem Counter_new_n_bins (xidx : XG) (binsz : Z) :
  0 < binsz ->
  0 <= seq_length xidx ->
  seq_length xidx / binsz + 1 < size_modulus ->
  exists c,
    Counter_new xidx binsz = Ok c
    /\ n_bins c = seq_length xidx / binsz + 1
    /\ n_bins c = spec_n_bins (seq_length xidx) binsz
                  + (if seq_length xidx mod binsz =? 0 then 1 else 0).
Proof.
  intros Hb HL Hsmall. unfold Counter_new.
  assert (Hnz : (binsz =? 0) = false) by (apply Z.eqb_neq; lia).
  rewrite Hnz. eexists. split; [reflexivity |]. cbn [n_bins].
  assert (Hq : 0 <= seq_length xidx / binsz) by (apply Z.div_pos; lia).
  rewrite wrap_small by lia.
  split; [reflexivity |]. apply ceil_or_one_more; assumption.
Qed.

Lemma Counter_new_n_bins_witness :
  exists c,
    Counter_new (Proto.one_node 10) 5 = Ok c
    /\ n_bins c = 10 / 5 + 1
    /\ n_bins c = spec_n_bins 10 5 + (if 10 mod 5 =? 0 then 1 else 0).
Proof.
  apply (Counter_new_n_bins (Proto.one_node 10) 5); cbn [seq_length Proto.one_node].
  - lia.
  - lia.
  - reflexivity.
Defined.

(** C2, as the specification has it, fails for basis length 10 and bin
    size 5: three bins, where the ceiling is two. *)
Lemma Counter_new_n_bins_not_ceil :
  ~ (exists c,
       Counter_new (Proto.one_node 10) 5 = Ok c
       /\ n_bins c = spec_n_bins 10 5).
Proof.
  intros (c & Hc & Hn). vm_compute in Hc. injection Hc as <-.
  vm_compute in Hn. discriminate.
Qed.

(** With bin size [0] the constructor divides by zero. *)
Lemma Counter_new_zero_bin_size (xidx : XG) :
  Counter_new xidx 0 = Fault DivisionByZero.
Proof. reflexivity. Qed.

(** ** The life cycle *)

(** C8. On a compacted instance [make_compact] returns at once and changes
    no member; and whatever instance [make_compact] returns is compacted, so
    compacting it again changes nothing. *)
Theorem make_compact_idempotent (delim1 : byte) (c : Counter) :
  (is_compacted c = true -> make_compact delim1 c = Ok c)
  /\ (forall c', make_compact delim1 c = Ok c' ->
               is_compacted c' = true /\ make_compact delim1 c' = Ok c').
Proof.
  assert (Hnoop : forall c0, is_compacted c0 = true -> make_compact delim1 c0 = Ok c0).
  { intros c0 H. unfold make_compact. rewrite H. reflexivity. }
  split; [apply Hnoop |].
  intros c' H.
  assert (Hc : is_compacted c' = true).
  { unfold make_compact in H. destruct (is_compacted c) eqn:E.
    - injection H as <-. exact E.
    - destruct (mapM _ _) in H; cbn [bind] in H; [| discriminate].
      injection H as <-. reflexivity. }
  split; [exact Hc | apply Hnoop; exact Hc].
Qed.

Lemma make_compact_idempotent_witness :
  make_compact Proto.delim1 Proto.scenario_counter = Ok Proto.scenario_counter
  /\ is_compacted Proto.scenario_counter = true.
Proof.
  split.
  - apply (proj1 (make_compact_idempotent Proto.delim1 Proto.scenario_counter)).
    reflexivity.
  - apply (proj2 (make_compact_idempotent Proto.delim1 Proto.scenario_counter)
             Proto.scenario_counter).
    apply (proj1 (make_compact_idempotent Proto.delim1 Proto.scenario_counter)).
    reflexivity.
Defined.

(** C9. On a compacted instance [make_dynamic] reaches [assert(false)]: the
    call ends in a failed assertion and returns no instance. *)
Theorem make_dynamic_compacted_fails (c : Counter) :
  is_compacted c = true -> make_dynamic c = Fault AssertionFailed.
Proof. intros H. unfold make_dynamic. rewrite H. reflexivity. Qed.

Lemma make_dynamic_compacted_fails_witness :
  is_compacted Proto.scenario_counter = true
  /\ make_dynamic Proto.scenario_counter = Fault AssertionFailed.
Proof.
  split; [reflexivity |].
  apply (make_dynamic_compacted_fails Proto.scenario_counter). reflexivity.
Defined.

(** An open instance is returned as it is. *)
Lemma make_dynamic_open (c : Counter) :
  is_compacted c = false -> make_dynamic c = Ok c.
Proof. intros H. unfold make_dynamic. rewrite H. reflexivity. Qed.

(** ** The key prefix *)

Section KeyPrefix.
Variables delim1 delim2 : byte.
Variable M : Messages.
Hypothesis delims_differ : delim1 <> delim2.

Local Abbreviation esc := (escape_delims delim1 delim2).
Local Abbreviation prefix_marker := [delim1; delim2; delim1].

Lemma escape_delim_app (s t : list byte) (d : byte) :
  escape_delim (s ++ t) d = escape_delim s d ++ escape_delim t d.
Proof.
  induction s as [| c s IH]; [reflexivity |].
  cbn [app escape_delim]. rewrite IH.
  destruct (Byte.eqb c d); reflexivity.
Qed.

(** Escaping works character by character: a marker byte becomes a pair,
    any other byte stays. *)
Lemma escape_delims_cons (c : byte) (p : list byte) :
  esc (c :: p)
  = (if Byte.eqb c delim1 then [delim1; delim1]
     else if Byte.eqb c delim2 then [delim2; delim2]
     else [c]) ++ esc p.
Proof.
  unfold escape_delims. cbn [escape_delim].
  destruct (Byte.eqb c delim1) eqn:E1.
  - apply Byte.byte_dec_bl in E1. subst c.
    cbn [escape_delim]. rewrite (eqb_neq_byte _ _ delims_differ). reflexivity.
  - cbn [escape_delim]. destruct (Byte.eqb c delim2) eqn:E2.
    + apply Byte.byte_dec_bl in E2. subst c. reflexivity.
    + reflexivity.
Qed.

Lemma escape_delims_nil : esc [] = [].
Proof. reflexivity. Qed.

Lemma marker_at_start (l : list byte) :
  starts_with prefix_marker l = true ->
  exists rest, l = delim1 :: delim2 :: delim1 :: rest.
Proof.
  destruct l as [| a [| b [| c rest]]]; cbn [starts_with];
    rewrite ?andb_false_r; try discriminate.
  intros H. rewrite andb_true_r in H.
  apply andb_prop in H as [Ha H]. apply andb_prop in H as [Hb Hc].
  apply Byte.byte_dec_bl in Ha, Hb, Hc. subst. eauto.
Qed.

Lemma marker_at_start_intro (rest : list byte) :
  starts_with prefix_marker (delim1 :: delim2 :: delim1 :: rest) = true.
Proof. cbn [starts_with]. rewrite !eqb_refl_byte. reflexivity. Qed.

(** An occurrence of the prefix in [x :: esc p ++ t] lies in [t], when [t]
    does not start with the second marker: inside an escaped payload a
    second marker byte always has a second marker byte next to it. *)
Lemma marker_skips_payload (p : list byte) :
  forall (x : byte) (t : list byte) (k : nat),
    head t <> Some delim2 ->
    starts_with prefix_marker (drop k (x :: esc p ++ t)) = true ->
    exists k', k = (1 + length (esc p) + k')%nat
               /\ starts_with prefix_marker (drop k' t) = true.
Proof.
  induction p as [| c p IH]; intros x t k Ht Hocc.
  - rewrite escape_delims_nil in *. cbn [app length] in *.
    destruct k as [| k].
    + cbn [drop] in Hocc. apply marker_at_start in Hocc as [rest Hrest].
      injection Hrest as _ Hrest. rewrite Hrest in Ht. cbn in Ht. congruence.
    + cbn [drop] in Hocc. exists k. split; [lia | exact Hocc].
  - rewrite escape_delims_cons in *.
    destruct k as [| k].
    + cbn [drop] in Hocc. apply marker_at_start in Hocc as [rest Hrest].
      injection Hrest as Hx Hrest.
      destruct (Byte.eqb c delim1) eqn:E1.
      * cbn [app] in Hrest. congruence.
      * destruct (Byte.eqb c delim2) eqn:E2.
        -- cbn [app] in Hrest. congruence.
        -- cbn [app] in Hrest. apply Byte.eqb_false in E2. congruence.
    + cbn [drop] in Hocc.
      destruct (Byte.eqb c delim1) eqn:E1; [| destruct (Byte.eqb c delim2) eqn:E2].
      * cbn [app] in Hocc |- *. destruct k as [| k].
        -- cbn [drop] in Hocc. apply marker_at_start in Hocc as [rest Hrest].
           congruence.
        -- cbn [drop] in Hocc. apply IH in Hocc as (k' & -> & Hk'); [| exact Ht].
           exists k'. split; [cbn [length]; lia | exact Hk'].
      * cbn [app] in Hocc |- *. destruct k as [| k].
        -- cbn [drop] in Hocc. apply marker_at_start in Hocc as [rest Hrest].
           congruence.
        -- cbn [drop] in Hocc. apply IH in Hocc as (k' & -> & Hk'); [| exact Ht].
           exists k'. split; [cbn [length]; lia | exact Hk'].
      * cbn [app] in Hocc |- *.
        apply IH in Hocc as (k' & -> & Hk'); [| exact Ht].
        exists k'. split; [cbn [length]; lia | exact Hk'].
Qed.

(** An occurrence of the prefix in a record followed by text that starts
    with the first marker is at the start of the record or in that text. *)
Lemma marker_in_record (r : Z * Edit M * bool) (rest : list byte) (k : nat) :
  head rest = Some delim1 ->
  starts_with prefix_marker (drop k (stored_record delim1 delim2 M r ++ rest)) = true ->
  k = 0%nat
  \/ exists k', k = (length (stored_record delim1 delim2 M r) + k')%nat
                /\ starts_with prefix_marker (drop k' rest) = true.
Proof.
  destruct r as [[i e] rev]. intros Hrest Hocc.
  unfold stored_record, pos_key, edit_value in *.
  cbn [app] in Hocc. rewrite <- !app_assoc in Hocc. cbn [app] in Hocc.
  destruct k as [| [| k]]; [left; reflexivity | |].
  - cbn [drop] in Hocc. apply marker_at_start in Hocc as [rest' Hrest'].
    congruence.
  - right. cbn [drop] in Hocc.
    apply marker_skips_payload in Hocc as (k1 & -> & Hocc); [| cbn; congruence].
    apply marker_skips_payload in Hocc as (k2 & -> & Hocc);
      [| rewrite Hrest; congruence].
    exists k2. split; [| exact Hocc].
    cbn [app length]. rewrite !length_app. cbn [length]. lia.
Qed.

(** No escaped payload contains the prefix. *)
Lemma escaped_payload_has_no_marker (p : list byte) (k : nat) :
  starts_with prefix_marker (drop k (esc p)) = false.
Proof.
  destruct (starts_with prefix_marker (drop k (esc p))) eqn:H; [| reflexivity].
  exfalso.
  assert (Hocc : starts_with prefix_marker (drop (S k) (x00 :: esc p ++ [])) = true).
  { cbn [drop]. rewrite app_nil_r. exact H. }
  apply marker_skips_payload in Hocc as (k' & Hk & Hk'); [| cbn; congruence].
  destruct k'; cbn in Hk'; discriminate.
Qed.

Local Abbreviation log := (closed_log delim1 delim2 M).
Local Abbreviation offsets := (record_offsets delim1 delim2 M).

Lemma closed_log_cons (r : Z * Edit M * bool) (recs : list (Z * Edit M * bool)) :
  log (r :: recs) = stored_record delim1 delim2 M r ++ log recs.
Proof. unfold closed_log. cbn [fmap list_fmap concat]. rewrite <- app_assoc. reflexivity. Qed.

Lemma closed_log_head (recs : list (Z * Edit M * bool)) :
  head (log recs) = Some delim1.
Proof.
  destruct recs as [| [[i e] rev] recs]; [reflexivity |].
  rewrite closed_log_cons. reflexivity.
Qed.

Lemma record_offsets_shift (recs : list (Z * Edit M * bool)) (k n : nat) :
  offsets recs (n + k) = (fun o => (n + o)%nat) <$> offsets recs k.
Proof.
  revert k. induction recs as [| r recs IH]; intros k; [reflexivity |].
  cbn [record_offsets fmap list_fmap]. f_equal.
  replace (n + k + length (stored_record delim1 delim2 M r))%nat
    with (n + (k + length (stored_record delim1 delim2 M r)))%nat by lia.
  apply IH.
Qed.

(** In a closed log the prefix occurs at the record starts and nowhere
    else. *)
Lemma marker_at_record_starts (recs : list (Z * Edit M * bool)) (k : nat) :
  starts_with prefix_marker (drop k (log recs)) = true <-> k ∈ offsets recs 0%nat.
Proof.
  revert k. induction recs as [| [[i e] rev] recs IH]; intros k.
  - cbn [record_offsets]. split.
    + intros H. destruct k as [| [| k]]; cbn in H; try discriminate.
      rewrite andb_false_r in H. discriminate.
    + intros H. apply elem_of_nil in H. contradiction.
  - rewrite closed_log_cons. cbn [record_offsets].
    set (r := stored_record delim1 delim2 M (i, e, rev)).
    assert (Hr : r = delim1 :: delim2 :: delim1 ::
                   esc (Position_SerializeToString M
                          {| node_id := wrap (i + 2); offset := 0; is_reverse := false |})
                   ++ delim1 ::
                   esc (if rev then Edit_SerializeToString M (reverse_complement_edit M e)
                        else Edit_SerializeToString M e)).
    { subst r. unfold stored_record, pos_key, edit_value. reflexivity. }
    replace (0 + length r)%nat with (length r + 0)%nat by lia.
    rewrite record_offsets_shift.
    split.
    + intros Hocc. rewrite Hr in Hocc.
      destruct k as [| [| k]].
      * apply list_elem_of_here.
      * cbn [app drop] in Hocc. apply marker_at_start in Hocc as [rest Hrest].
        congruence.
      * cbn [app drop] in Hocc. rewrite <- app_assoc in Hocc. cbn [app] in Hocc.
        apply marker_skips_payload in Hocc as (k1 & -> & Hocc); [| cbn; congruence].
        apply marker_skips_payload in Hocc as (k2 & -> & Hocc);
          [| rewrite closed_log_head; congruence].
        apply IH in Hocc.
        apply list_elem_of_further. apply list_elem_of_fmap.
        exists k2. split; [| exact Hocc].
        rewrite Hr. cbn [length]. rewrite !length_app. cbn [length]. lia.
    + intros Hin. apply elem_of_cons in Hin as [-> | Hin].
      * rewrite Hr. cbn [app drop]. apply marker_at_start_intro.
      * apply list_elem_of_fmap in Hin as (k' & -> & Hk').
        apply IH in Hk'. rewrite drop_app_add'; [exact Hk' | reflexivity].
Qed.

(** C5. No escaped payload contains the three bytes [delim1 delim2 delim1],
    and in a closed edit log, the records written by the write path followed
    by the pad, these three bytes occur at the offsets where a record, and so
    a key, starts and at no other offset. *)
Theorem key_prefix_marks_record_starts :
  (forall (p : list byte) (k : nat),
      starts_with prefix_marker (drop k (esc p)) = false)
  /\ (forall (recs : list (Z * Edit M * bool)) (k : nat),
        starts_with prefix_marker (drop k (log recs)) = true
        <-> k ∈ offsets recs 0%nat).
Proof.
  split.
  - apply escaped_payload_has_no_marker.
  - apply marker_at_record_starts.
Qed.

End KeyPrefix.

(** ** Vectors given by their entries *)

Section Tabulate.
Context {A : Type}.
Implicit Types (f g : Z -> A) (n i : Z).

Lemma length_tabulate f n : length (tabulate f n) = Z.to_nat n.
Proof. unfold tabulate. rewrite length_fmap, length_seqZ. reflexivity. Qed.

Lemma tabulate_nil f n : n <= 0 -> tabulate f n = [].
Proof. intros H. unfold tabulate. rewrite seqZ_nil by exact H. reflexivity. Qed.

Lemma size_tabulate f n : 0 <= n -> size (tabulate f n) = n.
Proof. intros H. unfold size. rewrite length_tabulate. lia. Qed.

Lemma tabulate_lookup f n i :
  0 <= i < n -> tabulate f n !! Z.to_nat i = Some (f i).
Proof.
  intros H. unfold tabulate. rewrite list_lookup_fmap.
  rewrite lookup_seqZ_lt by lia. cbn. f_equal. f_equal. lia.
Qed.

Lemma vector_at_tabulate f n i :
  0 <= i < n -> vector_at (tabulate f n) i = Ok (f i).
Proof.
  intros H. apply vector_at_lookup; [lia |]. apply tabulate_lookup. exact H.
Qed.

Lemma vector_at_tabulate_out f n i :
  0 <= n -> ~ (0 <= i < n) -> vector_at (tabulate f n) i = Fault OutOfBounds.
Proof.
  intros Hn H. unfold vector_at. rewrite size_tabulate by exact Hn.
  destruct ((0 <=? i) && (i <? n)) eqn:E; [| reflexivity].
  apply andb_prop in E as [E1 E2]. apply Z.leb_le in E1. apply Z.ltb_lt in E2. lia.
Qed.

Lemma tabulate_ext f g n :
  (forall i, 0 <= i < n -> f i = g i) -> tabulate f n = tabulate g n.
Proof.
  intros H. unfold tabulate. apply list_fmap_ext.
  intros k x Hk. apply lookup_seqZ in Hk as [-> Hk]. apply H. lia.
Qed.

Lemma tabulate_insert f g n i :
  0 <= i < n ->
  (forall j, 0 <= j < n -> j <> i -> g j = f j) ->
  <[Z.to_nat i := g i]> (tabulate f n) = tabulate g n.
Proof.
  intros Hi Hother. apply list_eq. intros k.
  destruct (decide (k = Z.to_nat i)) as [-> | Hne].
  - rewrite list_lookup_insert_eq by (rewrite length_tabulate; lia).
    rewrite tabulate_lookup by exact Hi. reflexivity.
  - rewrite list_lookup_insert_ne by congruence.
    unfold tabulate. rewrite !list_lookup_fmap.
    destruct (seqZ 0 n !! k) as [z |] eqn:E; [| reflexivity].
    apply lookup_seqZ in E as [-> Hk]. cbn. f_equal. symmetry.
    apply Hother; lia.
Qed.

Lemma tabulate_const (a : A) n : tabulate (fun _ => a) n = replicate (Z.to_nat n) a.
Proof.
  unfold tabulate. rewrite (const_fmap _ _ a) by reflexivity.
  rewrite length_seqZ. reflexivity.
Qed.

Lemma tabulate_fmap {B} (h : A -> B) f n :
  h <$> tabulate f n = tabulate (fun i => h (f i)) n.
Proof. unfold tabulate. rewrite <- list_fmap_compose. reflexivity. Qed.

End Tabulate.

(** ** Loops *)

Lemma foldM_app {A B} (f : A -> B -> result A) (l1 l2 : list B) (a : A) :
  foldM f (l1 ++ l2) a = (a' <- foldM f l1 a ;; foldM f l2 a').
Proof.
  revert a. induction l1 as [| b l1 IH]; intros a; [reflexivity |].
  cbn [app foldM]. destruct (f a b); cbn [bind]; [apply IH | reflexivity].
Qed.

Lemma foldM_fmap_ext {A B C} (f : A -> C -> result A) (g : A -> B -> result A)
    (h : B -> C) (l : list B) (a : A) :
  (forall a b, b ∈ l -> g a b = f a (h b)) ->
  foldM g l a = foldM f (h <$> l) a.
Proof.
  revert a. induction l as [| b l IH]; intros a H; [reflexivity |].
  cbn [foldM fmap list_fmap]. rewrite H by apply list_elem_of_here.
  destruct (f a (h b)); cbn [bind]; [| reflexivity].
  apply IH. intros a1 b1 Hb1. apply H. apply list_elem_of_further. exact Hb1.
Qed.

Lemma mapM_vector_at_suffix {A} (v pre : list A) :
  mapM (fun i => vector_at (pre ++ v) i) (seqZ (size pre) (size v)) = Ok v.
Proof.
  revert pre. induction v as [| a v IH]; intros pre; [reflexivity |].
  rewrite size_cons. pose proof (size_nonneg v) as Hv.
  rewrite seqZ_cons by lia. cbn [mapM].
  rewrite (vector_at_lookup _ _ a).
  - cbn [bind].
    replace (Z.succ (size pre)) with (size (pre ++ [a]))
      by (rewrite size_app, size_cons; change (size (@nil A)) with 0; lia).
    replace (Z.pred (1 + size v)) with (size v) by lia.
    replace (pre ++ a :: v) with ((pre ++ [a]) ++ v)
      by (rewrite <- app_assoc; reflexivity).
    rewrite IH. reflexivity.
  - apply size_nonneg.
  - unfold size. rewrite Nat2Z.id. apply list_lookup_middle. reflexivity.
Qed.

(** Copying a vector entry by entry gives the vector. *)
Lemma mapM_vector_at_all {A} (v : list A) :
  mapM (fun i => vector_at v i) (seqZ 0 (size v)) = Ok v.
Proof. apply (mapM_vector_at_suffix v []). Qed.

(** ** The write path against its events *)

Lemma wrap_wrap z : wrap (wrap z) = wrap z.
Proof. unfold wrap. apply Z.mod_mod. discriminate. Qed.

Lemma wrap_add_l a b : wrap (wrap a + b) = wrap (a + b).
Proof. unfold wrap. apply Zplus_mod_idemp_l. Qed.

Lemma wrap_sub_l a b : wrap (wrap a - b) = wrap (a - b).
Proof. unfold wrap. apply Zminus_mod_idemp_l. Qed.

(** Bounds between concrete numbers, and over concrete lists of events and
    of alignments. *)
Ltac concrete_bounds := cbn; vm_compute; easy.

Ltac concrete_forall :=
  match goal with
  | |- Forall ?P ?l => let l' := eval vm_compute in l in change (Forall P l')
  end;
  repeat match goal with
         | |- Forall _ [] => apply Forall_nil_2
         | |- Forall _ (_ :: _) => apply Forall_cons_2
         end;
  concrete_bounds.

Ltac concrete_lengths :=
  unfold lengths_in_range; repeat constructor; concrete_bounds.

(** Replace the events of a concrete run by their list. *)
Ltac compute_events :=
  repeat match goal with
         | |- context [add_events ?M ?r ?xg ?alns] =>
             let l := eval vm_compute in (add_events M r xg alns) in
             change (add_events M r xg alns) with l
         | H : context [add_events ?M ?r ?xg ?alns] |- _ =>
             let l := eval vm_compute in (add_events M r xg alns) in
             change (add_events M r xg alns) with l in H
         end.

(** Membership in a concrete list, case by case. *)
Ltac concrete_elem H :=
  repeat (apply elem_of_cons in H as [H | H]; [try discriminate |]);
  try (apply elem_of_nil in H; contradiction).

(** Reduce the member reads of a counter given by its members. *)
Ltac counter_members :=
  cbn [xgidx bin_size n_bins is_compacted coverage_dynamic edit_tmpfile_names
       tmpfstreams coverage_civ edit_csas].

Section WritePath.
Variables delim1 delim2 : byte.
Variable M : Messages.
Variable xg : XG.
Variables binsz nbins : Z.
Hypothesis basis_length_in_range : 0 <= seq_length xg < size_modulus.
Hypothesis bin_size_positive : 0 < binsz.

Local Abbreviation L := (seq_length xg).
Local Abbreviation state := (open_counter delim1 delim2 M xg binsz nbins).
Local Abbreviation in_range := (event_in_range M (seq_length xg) binsz nbins).
Local Abbreviation coverage := (coverage_after M (seq_length xg)).
Local Abbreviation logs := (logs_after delim1 delim2 M binsz nbins).

Lemma tally_app (evs evs' : list (event M)) (p : Z) :
  tally M (evs ++ evs') p = tally M evs p + tally M evs' p.
Proof.
  induction evs as [| [q | i e rev] evs IH]; cbn [app tally]; lia.
Qed.

Lemma tally_increments (ps : list Z) (p : Z) :
  tally M (Increment <$> ps) p = Z.of_nat (length (filter (fun q => q = p) ps)).
Proof.
  induction ps as [| q ps IH]; [reflexivity |].
  cbn [fmap list_fmap tally]. rewrite filter_cons.
  destruct (decide (q = p)) as [-> | Hne].
  - rewrite Z.eqb_refl. cbn [length]. fold (@fmap list _ Z (event M)). lia.
  - apply Z.eqb_neq in Hne. rewrite Hne. fold (@fmap list _ Z (event M)). lia.
Qed.

Lemma tally_nonneg (evs : list (event M)) (p : Z) : 0 <= tally M evs p.
Proof.
  induction evs as [| [q | i e rev] evs IH]; cbn [tally]; [lia | | lia].
  destruct (q =? p); lia.
Qed.

Lemma tally_le_length (evs : list (event M)) (p : Z) :
  tally M evs p <= size evs.
Proof.
  induction evs as [| [q | i e rev] evs IH]; rewrite ?size_cons; cbn [tally].
  - reflexivity.
  - destruct (q =? p); lia.
  - lia.
Qed.

Lemma records_in_app (evs evs' : list (event M)) (bin : Z) :
  records_in M binsz (evs ++ evs') bin
  = records_in M binsz evs bin ++ records_in M binsz evs' bin.
Proof.
  induction evs as [| [q | i e rev] evs IH]; cbn [app records_in]; [reflexivity | exact IH |].
  destruct (i / binsz =? bin); cbn [app]; rewrite IH; reflexivity.
Qed.

Lemma records_in_increments (ps : list Z) (bin : Z) :
  records_in M binsz (Increment <$> ps) bin = [].
Proof. induction ps as [| q ps IH]; [reflexivity | exact IH]. Qed.

Lemma log_of_app (evs evs' : list (event M)) (bin : Z) :
  log_of delim1 delim2 M binsz (evs ++ evs') bin
  = log_of delim1 delim2 M binsz evs bin ++ log_of delim1 delim2 M binsz evs' bin.
Proof. unfold log_of. rewrite records_in_app, fmap_app, concat_app. reflexivity. Qed.

Lemma coverage_after_records (evs : list (event M)) i e rev :
  coverage (evs ++ [Record i e rev]) = coverage evs.
Proof.
  unfold coverage_after. apply tabulate_ext. intros p _.
  rewrite tally_app. cbn [tally]. f_equal. lia.
Qed.

Lemma logs_after_increments (evs : list (event M)) (ps : list Z) :
  logs (evs ++ (Increment <$> ps)) = logs evs.
Proof.
  unfold logs_after. apply tabulate_ext. intros b _.
  rewrite log_of_app. unfold log_of at 2. rewrite records_in_increments.
  cbn. apply app_nil_r.
Qed.

(** One increment. *)
Lemma increment_coverage_after (evs : list (event M)) (p : Z) :
  0 <= p < L ->
  increment (coverage evs) p 1 = Ok (coverage (evs ++ [Increment p])).
Proof.
  intros Hp. unfold increment, coverage_after.
  rewrite vector_at_tabulate by exact Hp. cbn [bind]. f_equal.
  replace (wrap (wrap (tally M evs p) + 1))
    with (wrap (tally M (evs ++ [Increment p]) p)).
  - apply (tabulate_insert _ (fun q => wrap (tally M (evs ++ [Increment p]) q)));
      [exact Hp |].
    intros q _ Hq. rewrite tally_app. cbn [tally].
    assert (Hne : (p =? q) = false) by (apply Z.eqb_neq; congruence).
    rewrite Hne. f_equal. lia.
  - rewrite tally_app. cbn [tally]. rewrite Z.eqb_refl.
    rewrite wrap_add_l. reflexivity.
Qed.

(** A run of increments. *)
Lemma foldM_increment_positions (ps : list Z) :
  forall evs : list (event M),
    Forall (fun p => 0 <= p < L) ps ->
    foldM (fun cov p => increment cov p 1) ps (coverage evs)
    = Ok (coverage (evs ++ (Increment <$> ps))).
Proof.
  induction ps as [| p ps IH]; intros evs Hps.
  - cbn. rewrite app_nil_r. reflexivity.
  - apply Forall_cons in Hps as [Hp Hps].
    cbn [foldM]. rewrite increment_coverage_after by exact Hp. cbn [bind].
    rewrite IH by exact Hps. rewrite <- app_assoc. reflexivity.
Qed.

(** The loop over [j] of a trivial-match segment, from the running index
    [wrap i]. *)
Lemma segment_loop (evs : list (event M)) (rev : bool) (i len : Z) :
  0 <= len < size_modulus ->
  Forall (fun p => 0 <= p < L) (segment_positions rev i len) ->
  foldM (fun cov j =>
           increment cov (if rev then wrap (wrap i - j) else wrap (wrap i + j)) 1)
        (seqZ 0 (wrap len)) (coverage evs)
  = Ok (coverage (evs ++ (Increment <$> segment_positions rev i len))).
Proof.
  intros Hlen Hps. rewrite (wrap_small len) by exact Hlen.
  rewrite <- foldM_increment_positions by exact Hps.
  unfold segment_positions. apply foldM_fmap_ext.
  intros cov j Hj. f_equal.
  rewrite Forall_forall in Hps.
  assert (Hin : (if rev then i - j else i + j)
                ∈ (fun j => if rev then i - j else i + j) <$> seqZ 0 len).
  { apply list_elem_of_fmap. exists j. split; [reflexivity | exact Hj]. }
  apply Hps in Hin.
  destruct rev.
  - rewrite wrap_sub_l. apply wrap_small. lia.
  - rewrite wrap_add_l. apply wrap_small. lia.
Qed.

Lemma bin_for_position_state (evs : list (event M)) (i : Z) :
  bin_for_position (state evs) i = i / binsz.
Proof.
  unfold bin_for_position. cbn [bin_size open_counter].
  assert (H : (binsz >? 0) = true) by (apply Z.gtb_lt; lia).
  rewrite H. reflexivity.
Qed.

(** One pass of the loop over the edits of a mapping. *)
Lemma add_edit_events (record_edits rev : bool) (evs : list (event M))
    (i : Z) (e : Edit M) :
  0 <= from_length M e < size_modulus ->
  Forall in_range (edit_events M record_edits rev i [e]) ->
  add_edit delim1 delim2 M record_edits rev (state evs, wrap i) e
  = Ok (state (evs ++ edit_events M record_edits rev i [e]),
        wrap (if rev then i - from_length M e else i + from_length M e)).
Proof.
  intros Hlen Hev. cbn [edit_events] in *. rewrite app_nil_r in *.
  unfold add_edit.
  assert (Hidx : (if rev then wrap (wrap i - from_length M e)
                  else wrap (wrap i + from_length M e))
                 = wrap (if rev then i - from_length M e else i + from_length M e)).
  { destruct rev; [apply wrap_sub_l | apply wrap_add_l]. }
  rewrite Hidx.
  destruct (edit_is_match M e).
  - cbn [coverage_dynamic open_counter].
    rewrite segment_loop.
    + cbn [bind]. do 2 f_equal.
      unfold set_coverage_dynamic, open_counter. counter_members.
      rewrite logs_after_increments. reflexivity.
    + exact Hlen.
    + rewrite Forall_fmap in Hev. exact Hev.
  - destruct record_edits.
    + apply Forall_cons in Hev as [[Hi Hbin] _].
      rewrite (wrap_small i) by exact Hi.
      rewrite bin_for_position_state.
      assert (Hb : 0 <= i / binsz < nbins).
      { split; [apply Z.div_pos; lia | exact Hbin]. }
      cbn [tmpfstreams open_counter]. unfold logs_after at 1.
      rewrite vector_at_tabulate by exact Hb. cbn [bind]. do 2 f_equal.
      unfold set_tmpfiles, open_counter. counter_members.
      rewrite coverage_after_records. f_equal.
      unfold logs_after.
      replace (log_of delim1 delim2 M binsz evs (i / binsz)
               ++ pos_key delim1 delim2 M i ++ edit_value delim1 delim2 M e rev)
        with (log_of delim1 delim2 M binsz (evs ++ [Record i e rev]) (i / binsz)).
      * apply (tabulate_insert _
                 (log_of delim1 delim2 M binsz (evs ++ [Record i e rev])));
          [exact Hb |].
        intros b _ Hne. rewrite log_of_app. unfold log_of at 2.
        cbn [records_in].
        assert (Hneb : (i / binsz =? b) = false) by (apply Z.eqb_neq; congruence).
        rewrite Hneb. apply app_nil_r.
      * rewrite log_of_app. f_equal. unfold log_of, stored_record.
        cbn [records_in]. rewrite Z.eqb_refl.
        cbn [fmap list_fmap concat]. apply app_nil_r.
    + cbn [bind]. rewrite app_nil_r. reflexivity.
Qed.

Lemma edit_events_cons (record_edits rev : bool) (i : Z) (e : Edit M)
    (edits : list (Edit M)) :
  edit_events M record_edits rev i (e :: edits)
  = edit_events M record_edits rev i [e]
    ++ edit_events M record_edits rev
         (if rev then i - from_length M e else i + from_length M e) edits.
Proof. cbn [edit_events]. rewrite app_nil_r. reflexivity. Qed.

(** The loop over the edits of a mapping. *)
Lemma fold_add_edit (record_edits rev : bool) (edits : list (Edit M)) :
  forall (evs : list (event M)) (i : Z),
    Forall (fun e => 0 <= from_length M e < size_modulus) edits ->
    Forall in_range (edit_events M record_edits rev i edits) ->
    exists i',
      foldM (add_edit delim1 delim2 M record_edits rev) edits (state evs, wrap i)
      = Ok (state (evs ++ edit_events M record_edits rev i edits), i').
Proof.
  induction edits as [| e edits IH]; intros evs i Hlen Hev.
  - exists (wrap i). cbn. rewrite app_nil_r. reflexivity.
  - apply Forall_cons in Hlen as [Hlen1 Hlen].
    rewrite edit_events_cons in Hev |- *.
    apply Forall_app in Hev as [Hev1 Hev].
    cbn [foldM]. rewrite add_edit_events by assumption. cbn [bind].
    destruct (IH (evs ++ edit_events M record_edits rev i [e]) _ Hlen Hev)
      as [i' Hi'].
    exists i'. rewrite Hi'. rewrite <- app_assoc. reflexivity.
Qed.

(** One pass of the loop over the mappings of an alignment. *)
Lemma add_mapping_events (record_edits : bool) (evs : list (event M))
    (m : Mapping M) :
  Forall (fun e => 0 <= from_length M e < size_modulus) (edit m) ->
  Forall in_range (mapping_events M record_edits xg m) ->
  add_mapping delim1 delim2 M record_edits (state evs) m
  = Ok (state (evs ++ mapping_events M record_edits xg m)).
Proof.
  intros Hlen Hev. unfold add_mapping, mapping_events in *.
  destruct (position m) as [pos |].
  - cbn [xgidx open_counter].
    assert (Hw : position_in_basis M xg pos = wrap (position_in_basis M xg pos)).
    { unfold position_in_basis. destruct (is_reverse pos); rewrite wrap_wrap; reflexivity. }
    rewrite Hw at 1.
    destruct (fold_add_edit record_edits (is_reverse pos) (edit m) evs
                (position_in_basis M xg pos) Hlen Hev) as [i' Hi'].
    rewrite Hi'. reflexivity.
  - rewrite app_nil_r. reflexivity.
Qed.

Lemma ensure_edit_tmpfiles_open_state (evs : list (event M)) :
  ensure_edit_tmpfiles_open (state evs) = state evs.
Proof.
  unfold ensure_edit_tmpfiles_open.
  destruct (tmpfstreams (state evs)) eqn:E; [| reflexivity].
  cbn [tmpfstreams open_counter] in E.
  apply (f_equal length) in E. unfold logs_after in E.
  rewrite length_tabulate in E. cbn [length] in E.
  unfold set_tmpfiles, open_counter. counter_members. rewrite E. cbn [replicate].
  f_equal. unfold logs_after, tabulate.
  rewrite seqZ_nil by lia. reflexivity.
Qed.

(** One call of [add]. *)
Lemma add_events_one (record_edits : bool) (evs : list (event M))
    (aln : Alignment M) :
  Forall (fun m => Forall (fun e => 0 <= from_length M e < size_modulus) (edit m)) aln ->
  Forall in_range (concat (mapping_events M record_edits xg <$> aln)) ->
  add delim1 delim2 M (state evs) aln record_edits
  = Ok (state (evs ++ concat (mapping_events M record_edits xg <$> aln))).
Proof.
  unfold add. rewrite ensure_edit_tmpfiles_open_state.
  revert evs. induction aln as [| m aln IH]; intros evs Hlen Hev.
  - cbn. rewrite app_nil_r. reflexivity.
  - apply Forall_cons in Hlen as [Hlen1 Hlen].
    cbn [fmap list_fmap concat] in Hev |- *.
    apply Forall_app in Hev as [Hev1 Hev].
    cbn [foldM]. rewrite add_mapping_events by assumption. cbn [bind].
    rewrite IH by assumption. rewrite <- app_assoc. reflexivity.
Qed.

(** A sequence of calls of [add] on an instance that has its logs open. *)
Lemma add_events_all (record_edits : bool) (alns : list (Alignment M)) :
  forall evs : list (event M),
    Forall (Forall (fun m =>
              Forall (fun e => 0 <= from_length M e < size_modulus) (edit m))) alns ->
    Forall in_range (add_events M record_edits xg alns) ->
    foldM (fun c aln => add delim1 delim2 M c aln record_edits) alns (state evs)
    = Ok (state (evs ++ add_events M record_edits xg alns)).
Proof.
  unfold add_events.
  induction alns as [| aln alns IH]; intros evs Hlen Hev.
  - cbn. rewrite app_nil_r. reflexivity.
  - apply Forall_cons in Hlen as [Hlen1 Hlen].
    cbn [fmap list_fmap concat] in Hev |- *.
    apply Forall_app in Hev as [Hev1 Hev].
    cbn [foldM]. rewrite add_events_one by assumption. cbn [bind].
    rewrite IH by assumption. rewrite <- app_assoc. reflexivity.
Qed.

(** Compaction of an instance that has its logs open. *)
Lemma make_compact_state (evs : list (event M)) :
  make_compact delim1 (state evs)
  = Ok (compacted_counter delim1 delim2 M xg binsz nbins evs).
Proof.
  unfold make_compact. cbn [is_compacted open_counter].
  assert (Hclose : close_edit_tmpfiles delim1 (state evs)
    = set_tmpfiles (state evs)
        (tabulate (fun b => log_of delim1 delim2 M binsz evs b ++ [delim1]) nbins) []).
  { unfold close_edit_tmpfiles.
    destruct (tmpfstreams (state evs)) eqn:E.
    - cbn [tmpfstreams open_counter] in E.
      apply (f_equal length) in E. unfold logs_after in E.
      rewrite length_tabulate in E. cbn [length] in E.
      unfold set_tmpfiles, open_counter. counter_members. rewrite E.
      cbn [replicate].
      unfold logs_after, tabulate. rewrite seqZ_nil by lia. reflexivity.
    - rewrite <- E. cbn [tmpfstreams open_counter]. unfold logs_after.
      rewrite tabulate_fmap. reflexivity. }
  rewrite Hclose. cbn [coverage_dynamic set_tmpfiles open_counter].
  rewrite mapM_vector_at_all. cbn [bind].
  unfold compacted_counter, set_is_compacted, remove_edit_tmpfiles, set_compact,
    set_tmpfiles. counter_members.
  rewrite tabulate_fmap. reflexivity.
Qed.

End WritePath.

(** ** A run: construction, calls of [add], compaction *)

Section Run.
Variables delim1 delim2 : byte.
Variable M : Messages.
Variable xg : XG.
Variable binsz : Z.
Variable record_edits : bool.
Variable alns : list (Alignment M).
Hypothesis basis_length_in_range : 0 <= seq_length xg < size_modulus.
Hypothesis bin_size_positive : 0 < binsz.
Hypothesis lengths : lengths_in_range M alns.
Hypothesis events_in_range :
  Forall (event_in_range M (seq_length xg) binsz (wrap (seq_length xg / binsz + 1)))
         (add_events M record_edits xg alns).

Local Abbreviation nbins := (wrap (seq_length xg / binsz + 1)).
Local Abbreviation evs := (add_events M record_edits xg alns).

Lemma Counter_new_fresh :
  exists c0,
    Counter_new xg binsz = Ok c0
    /\ ensure_edit_tmpfiles_open c0 = open_counter delim1 delim2 M xg binsz nbins []
    /\ make_compact delim1 c0
       = Ok (set_is_compacted
               (set_compact c0 (coverage_after M (seq_length xg) []) []) true).
Proof.
  unfold Counter_new.
  assert (Hnz : (binsz =? 0) = false) by (apply Z.eqb_neq; lia).
  rewrite Hnz. eexists. split; [reflexivity |].
  assert (Hcov : replicate (Z.to_nat (seq_length xg)) 0
                 = coverage_after M (seq_length xg) []).
  { unfold coverage_after. cbn [tally]. symmetry. apply tabulate_const. }
  split.
  - unfold ensure_edit_tmpfiles_open, set_tmpfiles, open_counter. counter_members.
    rewrite Hcov. f_equal. unfold logs_after, log_of. cbn [records_in fmap list_fmap concat].
    symmetry. apply tabulate_const.
  - unfold make_compact. counter_members.
    unfold close_edit_tmpfiles. counter_members.
    rewrite mapM_vector_at_all. cbn [bind].
    unfold set_is_compacted, remove_edit_tmpfiles, set_compact, set_tmpfiles.
    counter_members. rewrite Hcov. reflexivity.
Qed.

(** The run returns, with the coverage array of its events; and when there
    was a call of [add], with the edit logs of its events, indexed. *)
Lemma run_returns :
  exists c0 c1 c2,
    Counter_new xg binsz = Ok c0
    /\ foldM (fun c aln => add delim1 delim2 M c aln record_edits) alns c0 = Ok c1
    /\ make_compact delim1 c1 = Ok c2
    /\ coverage_civ c2 = coverage_after M (seq_length xg) evs
    /\ bin_size c2 = binsz
    /\ (alns <> [] -> c2 = compacted_counter delim1 delim2 M xg binsz nbins evs).
Proof.
  destruct Counter_new_fresh as (c0 & Hnew & Hopen & Hcompact).
  exists c0.
  assert (Hbin0 : bin_size c0 = binsz).
  { unfold Counter_new in Hnew. destruct (binsz =? 0); [discriminate |].
    injection Hnew as <-. reflexivity. }
  pose proof (wrap_range (seq_length xg / binsz + 1)) as Hn.
  destruct alns as [| aln alns'] eqn:Halns.
  - exists c0,
      (set_is_compacted (set_compact c0 (coverage_after M (seq_length xg) []) []) true).
    split; [exact Hnew |]. split; [reflexivity |]. split; [exact Hcompact |].
    split; [reflexivity |]. split; [exact Hbin0 | congruence].
  - unfold lengths_in_range in lengths.
    exists (open_counter delim1 delim2 M xg binsz nbins
              (add_events M record_edits xg (aln :: alns'))).
    exists (compacted_counter delim1 delim2 M xg binsz nbins
              (add_events M record_edits xg (aln :: alns'))).
    repeat split.
    + exact Hnew.
    + assert (Hadd0 :
        add delim1 delim2 M c0 aln record_edits
        = add delim1 delim2 M (open_counter delim1 delim2 M xg binsz nbins []) aln
            record_edits).
      { unfold add. rewrite Hopen.
        rewrite (ensure_edit_tmpfiles_open_state delim1 delim2 M xg binsz nbins).
        reflexivity. }
      cbn [foldM]. rewrite Hadd0.
      apply (add_events_all delim1 delim2 M xg binsz nbins basis_length_in_range
               bin_size_positive record_edits (aln :: alns') []);
        assumption.
    + apply make_compact_state.
Qed.

End Run.

(** ** Coverage *)

(** C6. A run of the counter, construction, a sequence of [add] calls and
    compaction, whose increments all fall inside the basis returns, and
    afterwards [coverage_at_position p] is the number of increments at [p],
    for every position [p] of the basis; the positions incremented by a
    trivial-match segment met at [i] are [i, i+1, ...] on the forward strand
    and [i, i-1, ...] on the reverse strand. *)
Theorem coverage_counts_increments (delim1 delim2 : byte) (M : Messages)
    (xg : XG) (binsz : Z) (record_edits : bool) (alns : list (Alignment M)) :
  0 <= seq_length xg < size_modulus ->
  0 < binsz ->
  lengths_in_range M alns ->
  Forall (event_in_range M (seq_length xg) binsz (wrap (seq_length xg / binsz + 1)))
         (add_events M record_edits xg alns) ->
  size (add_events M record_edits xg alns) < size_modulus ->
  exists c0 c1 c2,
    Counter_new xg binsz = Ok c0
    /\ foldM (fun c aln => add delim1 delim2 M c aln record_edits) alns c0 = Ok c1
    /\ make_compact delim1 c1 = Ok c2
    /\ forall p, 0 <= p < seq_length xg ->
         coverage_at_position c2 p
         = Ok (tally M (add_events M record_edits xg alns) p).
Proof.
  intros HL Hbin Hlen Hev Hcount.
  destruct (run_returns delim1 delim2 M xg binsz record_edits alns HL Hbin Hlen Hev)
    as (c0 & c1 & c2 & Hnew & Hadd & Hcompact & Hcov & _).
  exists c0, c1, c2. repeat split; try assumption.
  intros p Hp. unfold coverage_at_position. rewrite Hcov.
  unfold coverage_after. rewrite vector_at_tabulate by exact Hp.
  f_equal. apply wrap_small.
  pose proof (tally_nonneg M (add_events M record_edits xg alns) p).
  pose proof (tally_le_length M (add_events M record_edits xg alns) p).
  lia.
Qed.

Lemma coverage_counts_increments_witness :
  exists c0 c1 c2,
    Counter_new (Proto.one_node 10) 5 = Ok c0
    /\ foldM (fun c aln => add Proto.delim1 Proto.delim2 Proto.messages c aln true)
             Proto.scenario_alignments c0 = Ok c1
    /\ make_compact Proto.delim1 c1 = Ok c2
    /\ forall p, 0 <= p < seq_length (Proto.one_node 10) ->
         coverage_at_position c2 p
         = Ok (tally Proto.messages
                 (add_events Proto.messages true (Proto.one_node 10)
                    Proto.scenario_alignments) p).
Proof.
  apply (coverage_counts_increments Proto.delim1 Proto.delim2 Proto.messages
           (Proto.one_node 10) 5 true Proto.scenario_alignments).
  - concrete_bounds.
  - concrete_bounds.
  - concrete_lengths.
  - concrete_forall.
  - reflexivity.
Defined.

(** ** The scan for the end of a value *)

Section Scan.
Variables delim1 delim2 : byte.
Variable T : csa.
Hypothesis text_size : size T < size_modulus.

Lemma char_at_drop (j : nat) (ch : byte) (l : list byte) :
  drop j T = ch :: l -> char_at T (Z.of_nat j) = Ok ch.
Proof.
  intros Hd. unfold char_at, extract.
  assert (Hlt : (j < length T)%nat).
  { destruct (decide (j < length T)%nat) as [H | H]; [exact H |].
    rewrite drop_ge in Hd by lia. discriminate. }
  assert (Hb : (0 <=? Z.of_nat j) && (Z.of_nat j <=? Z.of_nat j)
               && (Z.of_nat j <? size T) = true).
  { unfold size. rewrite !andb_true_iff, !Z.leb_le, Z.ltb_lt. lia. }
  rewrite Hb. cbn [bind].
  replace (Z.of_nat j - Z.of_nat j + 1) with 1 by lia.
  rewrite Nat2Z.id, Hd. reflexivity.
Qed.

Lemma char_at_end (j : nat) :
  drop j T = [] -> char_at T (Z.of_nat j) = Fault OutOfBounds.
Proof.
  intros Hd. unfold char_at, extract.
  assert (Hge : (length T <= j)%nat).
  { destruct (decide (length T <= j)%nat) as [H | H]; [exact H |].
    apply (f_equal length) in Hd. rewrite length_drop in Hd. cbn in Hd. lia. }
  assert (Hb : (0 <=? Z.of_nat j) && (Z.of_nat j <=? Z.of_nat j)
               && (Z.of_nat j <? size T) = false).
  { unfold size. rewrite !andb_false_iff, Z.ltb_ge. right. lia. }
  rewrite Hb. reflexivity.
Qed.

Lemma drop_next (j : nat) (ch : byte) (l : list byte) :
  drop j T = ch :: l -> drop (S j) T = l /\ (j < length T)%nat.
Proof.
  intros Hd. split.
  - replace (S j) with (j + 1)%nat by lia.
    rewrite <- drop_drop, Hd. reflexivity.
  - destruct (decide (j < length T)%nat) as [H | H]; [exact H |].
    rewrite drop_ge in Hd by lia. discriminate.
Qed.

Lemma wrap_next (j : nat) :
  (j < length T)%nat -> wrap (Z.of_nat j + 1) = Z.of_nat (S j).
Proof.
  intros H. unfold size in text_size. rewrite wrap_small; lia.
Qed.

(** [skip_to_delim] follows the machine through the bytes that are not the
    marker. *)
Lemma skip_to_delim_run (fuel : nat) :
  forall (j : nat) (r : Z),
    (length T - j < fuel)%nat ->
    run_end delim1 (drop j T) 0 (Z.of_nat j) = Some r ->
    exists (j0 : nat) (l0 : list byte),
      skip_to_delim delim1 fuel T (Z.of_nat j) = Ok (Z.of_nat j0)
      /\ (j <= j0)%nat
      /\ drop j0 T = delim1 :: l0
      /\ run_end delim1 (drop j0 T) 0 (Z.of_nat j0) = Some r.
Proof.
  induction fuel as [| fuel IH]; intros j r Hfuel Hrun; [lia |].
  destruct (drop j T) as [| ch l] eqn:Hd; [discriminate |].
  cbn [skip_to_delim]. rewrite (char_at_drop j ch l Hd). cbn [bind].
  destruct (drop_next j ch l Hd) as [Hnext Hlt].
  destruct (Byte.eqb ch delim1) eqn:E.
  - apply Byte.byte_dec_bl in E. subst ch. cbn [negb].
    exists j, l. rewrite Hd. repeat split; [lia | exact Hrun].
  - cbn [negb]. cbn [run_end] in Hrun. rewrite E in Hrun.
    cbn in Hrun. rewrite wrap_next by exact Hlt.
    replace (Z.of_nat j + 1) with (Z.of_nat (S j)) in Hrun by lia.
    rewrite <- Hnext in Hrun.
    destruct (IH (S j) r ltac:(lia) Hrun) as (j0 & l0 & H1 & H2 & H3 & H4).
    exists j0, l0. repeat split; [exact H1 | lia | exact H3 | exact H4].
Qed.

(** [skip_delims] follows the machine through a run of markers. *)
Lemma skip_delims_run (fuel : nat) :
  forall (j : nat) (n r : Z),
    (length T - j < fuel)%nat ->
    run_end delim1 (drop j T) n (Z.of_nat j) = Some r ->
    exists (j' : nat) (ch : byte) (l' : list byte),
      skip_delims delim1 fuel T (Z.of_nat j) = Ok (Z.of_nat j')
      /\ (j <= j')%nat
      /\ drop j' T = ch :: l'
      /\ Byte.eqb ch delim1 = false
      /\ run_end delim1 (drop j' T) (n + (Z.of_nat j' - Z.of_nat j)) (Z.of_nat j')
         = Some r.
Proof.
  induction fuel as [| fuel IH]; intros j n r Hfuel Hrun; [lia |].
  destruct (drop j T) as [| ch l] eqn:Hd; [discriminate |].
  cbn [skip_delims]. rewrite (char_at_drop j ch l Hd). cbn [bind].
  destruct (drop_next j ch l Hd) as [Hnext Hlt].
  destruct (Byte.eqb ch delim1) eqn:E.
  - cbn [run_end] in Hrun. rewrite E in Hrun.
    rewrite wrap_next by exact Hlt.
    replace (Z.of_nat j + 1) with (Z.of_nat (S j)) in Hrun by lia.
    rewrite <- Hnext in Hrun.
    destruct (IH (S j) (n + 1) r ltac:(lia) Hrun)
      as (j' & ch' & l' & H1 & H2 & H3 & H4 & H5).
    exists j', ch', l'. repeat split; [exact H1 | lia | exact H3 | exact H4 |].
    replace (n + (Z.of_nat j' - Z.of_nat j))
      with (n + 1 + (Z.of_nat j' - Z.of_nat (S j))) by lia.
    exact H5.
  - exists j, ch, l. rewrite Hd.
    replace (n + (Z.of_nat j - Z.of_nat j)) with n by lia.
    repeat split; [lia | exact E | exact Hrun].
Qed.

(** The loop of the read path returns where the machine stops. *)
Lemma find_end_run (fuel : nat) :
  forall (j : nat) (r : Z),
    (length T - j < fuel)%nat ->
    run_end delim1 (drop j T) 0 (Z.of_nat j) = Some r ->
    find_end delim1 fuel T (Z.of_nat j) = Ok r.
Proof.
  induction fuel as [| fuel IH]; intros j r Hfuel Hrun; [lia |].
  cbn [find_end].
  destruct (skip_to_delim_run (S (length T)) j r ltac:(lia) Hrun)
    as (j0 & l0 & H1 & H2 & H3 & H4).
  rewrite H1. cbn [bind].
  destruct (skip_delims_run (S (length T)) j0 0 r ltac:(lia) H4)
    as (j' & ch & l' & G1 & G2 & G3 & G4 & G5).
  rewrite G1. cbn [bind].
  assert (Hlt' : (j' < length T)%nat) by (apply (drop_next j' ch l' G3)).
  assert (Hne : j0 <> j').
  { intros ->. rewrite H3 in G3. injection G3 as <- _.
    rewrite eqb_refl_byte in G4. discriminate. }
  unfold size in text_size.
  rewrite wrap_small by lia.
  replace (0 + (Z.of_nat j' - Z.of_nat j0)) with (Z.of_nat j' - Z.of_nat j0)
    in G5 by lia.
  rewrite G3 in G5. cbn [run_end] in G5. rewrite G4 in G5.
  destruct (negb ((Z.of_nat j' - Z.of_nat j0) mod 2 =? 0)) eqn:Hodd.
  - injection G5 as <-. reflexivity.
  - apply IH; [lia |]. rewrite G3. cbn [run_end]. rewrite G4.
    cbn. exact G5.
Qed.

End Scan.

(** ** The value of a stored record, as the read path finds it *)

Section Value.
Variables delim1 delim2 : byte.
Hypothesis delims_differ : delim1 <> delim2.

Local Abbreviation esc := (escape_delims delim1 delim2).

Lemma run_end_markers (m : nat) (l : list byte) (n k : Z) :
  run_end delim1 (repeat delim1 m ++ l) n k
  = run_end delim1 l (n + Z.of_nat m) (k + Z.of_nat m).
Proof.
  revert n k. induction m as [| m IH]; intros n k.
  - cbn [repeat app]. f_equal; lia.
  - cbn [repeat app run_end]. rewrite eqb_refl_byte. rewrite IH. f_equal; lia.
Qed.

(** Over an escaped payload the machine is in an even run at every
    character of the payload; the odd run after it stops the machine at the
    byte that follows the run. *)
Lemma run_end_payload (v : list byte) (g : nat) (x : byte) (post : list byte) :
  x <> delim1 ->
  forall n k : Z,
    0 <= n -> n mod 2 = 0 ->
    run_end delim1 (esc v ++ repeat delim1 (2 * g + 1) ++ x :: post) n k
    = Some (k + size (esc v) + Z.of_nat (2 * g + 1)).
Proof.
  intros Hx. induction v as [| c v IH]; intros n k Hn Heven.
  - rewrite escape_delims_nil. cbn [app]. rewrite run_end_markers.
    cbn [run_end]. rewrite (eqb_neq_byte _ _ Hx).
    assert (Hodd : negb ((n + Z.of_nat (2 * g + 1)) mod 2 =? 0) = true).
    { apply negb_true_iff, Z.eqb_neq.
      replace (n + Z.of_nat (2 * g + 1)) with (1 + (n / 2 + Z.of_nat g) * 2).
      - rewrite Z.mod_add by lia. discriminate.
      - pose proof (Z.div_mod n 2 ltac:(lia)). lia. }
    rewrite Hodd. change (size (@nil byte)) with 0. f_equal. lia.
  - rewrite (escape_delims_cons delim1 delim2 delims_differ).
    destruct (Byte.eqb c delim1) eqn:E1; [| destruct (Byte.eqb c delim2) eqn:E2].
    + cbn [app run_end]. rewrite !eqb_refl_byte.
      rewrite IH.
      * rewrite !size_cons. f_equal. lia.
      * lia.
      * replace (n + 1 + 1) with (n + 1 * 2) by lia.
        rewrite Z.mod_add by lia. exact Heven.
    + cbn [app run_end].
      rewrite (eqb_neq_byte delim2 delim1) by congruence.
      rewrite Heven. cbn [Z.eqb negb].
      change (0 mod 2 =? 0) with true. cbn [negb].
      rewrite IH by (reflexivity || lia).
      rewrite !size_cons. f_equal. lia.
    + cbn [app run_end]. rewrite E1.
      rewrite Heven. cbn [Z.eqb negb].
      rewrite IH by (reflexivity || lia).
      rewrite !size_cons. f_equal. lia.
Qed.

(** What [unescape_delims] makes of a string that ends in a marker and one
    other byte: nothing. *)
Lemma unescape_delims_terminated (s : list byte) (x : byte) :
  x <> delim1 ->
  size (s ++ [delim1; x]) < size_modulus ->
  unescape_delims delim1 delim2 (s ++ [delim1; x]) = Ok (s ++ [delim1; x]).
Proof.
  intros Hx Hsz. unfold unescape_delims.
  rewrite unescape_delim_two by exact Hsz.
  unfold unescape_tail at 1. rewrite (eqb_neq_byte x delim1 Hx), andb_false_r.
  cbn [bind].
  rewrite unescape_delim_two by exact Hsz.
  unfold unescape_tail. rewrite (eqb_neq_byte delim1 delim2 delims_differ).
  reflexivity.
Qed.

(** The string handed to the parser for a record found at [size pre]: the
    escaped payload, and with it the whole run of markers that ends it and
    the byte after the run. *)
Lemma edit_value_at_record (pre key v post : list byte) (g : nat) (x : byte) :
  x <> delim1 ->
  size (pre ++ key ++ [delim1] ++ esc v ++ repeat delim1 (2 * g + 1) ++ x :: post)
    < size_modulus ->
  edit_value_at delim1 delim2
    (pre ++ key ++ [delim1] ++ esc v ++ repeat delim1 (2 * g + 1) ++ x :: post)
    key (size pre)
  = Ok (esc v ++ repeat delim1 (2 * g + 1) ++ [x]).
Proof.
  intros Hx Hsz.
  set (T := pre ++ key ++ [delim1] ++ esc v ++ repeat delim1 (2 * g + 1) ++ x :: post) in *.
  set (start := (pre ++ key ++ [delim1])).
  assert (HT : T = start ++ esc v ++ repeat delim1 (2 * g + 1) ++ x :: post).
  { subst T start. rewrite <- !app_assoc. reflexivity. }
  assert (Hstart : size pre + size key + 1 = Z.of_nat (length start)).
  { subst start. rewrite !length_app. cbn [length]. unfold size. lia. }
  assert (Hlen : size T = Z.of_nat (length start) + size (esc v)
                          + Z.of_nat (2 * g + 1) + 1 + size post).
  { rewrite HT. rewrite !size_app, size_cons, size_repeat. unfold size. lia. }
  pose proof (size_nonneg post) as Hpost. pose proof (size_nonneg (esc v)) as Hv.
  unfold edit_value_at.
  rewrite Hstart. rewrite wrap_small by lia.
  rewrite (find_end_run delim1 T Hsz (S (length T)) (length start)
             (Z.of_nat (length start) + size (esc v) + Z.of_nat (2 * g + 1))).
  - cbn [bind]. unfold extract.
    assert (Hb : (0 <=? Z.of_nat (length start))
                 && (Z.of_nat (length start)
                     <=? Z.of_nat (length start) + size (esc v) + Z.of_nat (2 * g + 1))
                 && (Z.of_nat (length start) + size (esc v) + Z.of_nat (2 * g + 1)
                     <? size T) = true).
    { rewrite !andb_true_iff, !Z.leb_le, Z.ltb_lt. lia. }
    rewrite Hb. cbn [bind].
    assert (Hex : take (Z.to_nat (Z.of_nat (length start) + size (esc v)
                                  + Z.of_nat (2 * g + 1)
                                  - Z.of_nat (length start) + 1))
                    (drop (Z.to_nat (Z.of_nat (length start))) T)
                  = esc v ++ repeat delim1 (2 * g + 1) ++ [x]).
    { rewrite Nat2Z.id, HT, drop_app_length.
      replace (esc v ++ repeat delim1 (2 * g + 1) ++ x :: post)
        with ((esc v ++ repeat delim1 (2 * g + 1) ++ [x]) ++ post)
        by (rewrite <- !app_assoc; reflexivity).
      apply take_app_length'. rewrite !length_app, repeat_length. cbn [length].
      unfold size. lia. }
    rewrite Hex.
    replace (esc v ++ repeat delim1 (2 * g + 1) ++ [x])
      with ((esc v ++ repeat delim1 (2 * g)) ++ [delim1; x]).
    + apply unescape_delims_terminated; [exact Hx |].
      rewrite size_app, !size_cons, size_app, size_repeat.
      change (size (@nil byte)) with 0. lia.
    + rewrite <- !app_assoc. f_equal.
      rewrite (repeat_app delim1 (2 * g) 1). rewrite <- app_assoc. reflexivity.
  - lia.
  - rewrite HT at 1. rewrite drop_app_length.
    rewrite run_end_payload; [reflexivity | exact Hx | lia | reflexivity].
Qed.

End Value.

(** ** Locating keys in a log *)

Lemma starts_with_app (pat rest : list byte) : starts_with pat (pat ++ rest) = true.
Proof.
  induction pat as [| c pat IH]; [reflexivity |].
  cbn [app starts_with]. rewrite eqb_refl_byte. exact IH.
Qed.

Lemma starts_with_split (pat s : list byte) :
  starts_with pat s = true -> exists rest, s = pat ++ rest.
Proof.
  revert s. induction pat as [| c pat IH]; intros s H.
  - exists s. reflexivity.
  - destruct s as [| a s]; [discriminate |].
    cbn [starts_with] in H. apply andb_prop in H as [Hc H].
    apply Byte.byte_dec_bl in Hc. subst a.
    destruct (IH s H) as [rest ->]. exists rest. reflexivity.
Qed.

Lemma starts_with_app_l (p q s : list byte) :
  starts_with (p ++ q) s = true -> starts_with p s = true.
Proof.
  intros H. apply starts_with_split in H as [rest ->].
  rewrite <- app_assoc. apply starts_with_app.
Qed.

Lemma occurrences_skip (pat s1 rest : list byte) (k : Z) :
  (forall n, (n < length s1)%nat -> starts_with pat (drop n (s1 ++ rest)) = false) ->
  occurrences pat (s1 ++ rest) k = occurrences pat rest (k + size s1).
Proof.
  revert k. induction s1 as [| c s1 IH]; intros k H.
  - cbn [app]. change (size (@nil byte)) with 0. f_equal. lia.
  - cbn [app occurrences].
    pose proof (H 0%nat ltac:(cbn [length]; lia)) as H0.
    cbn [drop app] in H0. rewrite H0.
    rewrite IH.
    + rewrite size_cons. f_equal. lia.
    + intros n Hn. apply (H (S n)). cbn [length]. lia.
Qed.

Lemma occurrences_region (pat s1 rest : list byte) (k : Z) :
  s1 <> [] ->
  (forall n, (0 < n < length s1)%nat -> starts_with pat (drop n (s1 ++ rest)) = false) ->
  occurrences pat (s1 ++ rest) k
  = (if starts_with pat (s1 ++ rest) then [k] else [])
    ++ occurrences pat rest (k + size s1).
Proof.
  intros Hne H. destruct s1 as [| c s1]; [congruence |].
  cbn [app occurrences].
  rewrite (occurrences_skip pat s1 rest (k + 1)).
  - rewrite size_cons.
    replace (k + 1 + size s1) with (k + (1 + size s1)) by lia.
    destruct (starts_with pat (c :: s1 ++ rest)); reflexivity.
  - intros n Hn. apply (H (S n)). cbn [length]. lia.
Qed.

Lemma occurrences_elem (pat s : list byte) :
  forall (k : Z) (j : nat),
    (j < length s)%nat ->
    starts_with pat (drop j s) = true ->
    (k + Z.of_nat j) ∈ occurrences pat s k.
Proof.
  induction s as [| c s IH]; intros k j Hj Hocc; [cbn in Hj; lia |].
  destruct j as [| j].
  - cbn [drop] in Hocc. cbn [occurrences]. rewrite Hocc.
    replace (k + Z.of_nat 0) with k by lia. apply list_elem_of_here.
  - cbn [drop] in Hocc. cbn [length] in Hj.
    assert (Hin : (k + 1 + Z.of_nat j) ∈ occurrences pat s (k + 1))
      by (apply IH; [lia | exact Hocc]).
    replace (k + Z.of_nat (S j)) with (k + 1 + Z.of_nat j) by lia.
    cbn [occurrences]. destruct (starts_with pat (c :: s));
      [apply list_elem_of_further |]; exact Hin.
Qed.

Section TokenLog.
Variables delim1 delim2 : byte.
Variable M : Messages.
Variable P : Z -> Prop.
Hypothesis delims_differ : delim1 <> delim2.
Hypothesis delim1_not_null : delim1 <> x00.
Hypothesis keys_prefix_free : prefix_free_keys M P.

Local Abbreviation esc := (escape_delims delim1 delim2).
Local Abbreviation key_of := (pos_key delim1 delim2 M).
Local Abbreviation bytes_of := (token_bytes delim1 delim2 M).
Local Abbreviation tail_of := (log_tail delim1 delim2 M).

Lemma pos_key_bytes (i : Z) :
  key_of i = delim1 :: delim2 :: delim1 :: esc (position_bytes M i).
Proof. reflexivity. Qed.

Lemma stored_record_bytes (i : Z) (e : Edit M) (rev : bool) :
  stored_record delim1 delim2 M (i, e, rev)
  = key_of i ++ [delim1]
    ++ esc (Edit_SerializeToString M (forward_edit M e rev)).
Proof.
  unfold stored_record, edit_value, forward_edit. destruct rev; reflexivity.
Qed.

(** Two strings whose escaped forms begin alike begin alike. *)
Lemma escape_delims_comparable (p : list byte) :
  forall q r1 r2 : list byte,
    esc p ++ r1 = esc q ++ r2 -> p `prefix_of` q \/ q `prefix_of` p.
Proof.
  induction p as [| c p IH]; intros q r1 r2 H.
  - left. apply prefix_nil.
  - destruct q as [| c' q]; [right; apply prefix_nil |].
    rewrite !(escape_delims_cons delim1 delim2 delims_differ) in H.
    assert (Hc : c = c' /\ esc p ++ r1 = esc q ++ r2).
    { destruct (Byte.eqb c delim1) eqn:E1; [| destruct (Byte.eqb c delim2) eqn:E2];
      (destruct (Byte.eqb c' delim1) eqn:E1'; [| destruct (Byte.eqb c' delim2) eqn:E2']);
      cbn [app] in H;
      repeat match goal with
             | E : Byte.eqb _ _ = true |- _ => apply Byte.byte_dec_bl in E
             | E : Byte.eqb _ _ = false |- _ => apply Byte.eqb_false in E
             end;
      subst; try (split; congruence); try congruence. }
    destruct Hc as [<- Hrest].
    destruct (IH q r1 r2 Hrest) as [Hp | Hp]; [left | right];
      apply prefix_cons; exact Hp.
Qed.

(** A key that is found at the start of a record is the key of the
    record. *)
Lemma key_at_record (i j : Z) (e : Edit M) (rev : bool) (rest : list byte) :
  P i -> P j ->
  starts_with (key_of i) (stored_record delim1 delim2 M (j, e, rev) ++ rest)
  = if decide (key_of i = key_of j) then true else false.
Proof.
  intros Hi Hj. rewrite stored_record_bytes.
  destruct (decide (key_of i = key_of j)) as [E | E].
  - rewrite E. rewrite <- app_assoc. apply starts_with_app.
  - destruct (starts_with (key_of i) _) eqn:Hs; [| reflexivity].
    exfalso. apply E.
    apply starts_with_split in Hs as [rest' Hs].
    rewrite !pos_key_bytes in Hs. rewrite <- !app_assoc in Hs. cbn [app] in Hs.
    injection Hs as Hs.
    rewrite !pos_key_bytes. do 4 f_equal.
    destruct (escape_delims_comparable _ _ _ _ Hs) as [Hp | Hp].
    + symmetry. apply keys_prefix_free; assumption.
    + apply keys_prefix_free; assumption.
Qed.

Lemma log_tail_cons (t : token M) (toks : list (token M)) :
  tail_of (t :: toks) = bytes_of t ++ tail_of toks.
Proof. unfold log_tail. cbn [fmap list_fmap concat]. rewrite <- app_assoc. reflexivity. Qed.

Lemma log_tail_head (toks : list (token M)) : head (tail_of toks) = Some delim1.
Proof.
  destruct toks as [| [i e rev |] toks]; [reflexivity | |];
    rewrite log_tail_cons; reflexivity.
Qed.

Lemma key_needs_marker (i : Z) (l : list byte) :
  starts_with [delim1; delim2; delim1] l = false ->
  starts_with (key_of i) l = false.
Proof.
  intros H. destruct (starts_with (key_of i) l) eqn:E; [| reflexivity].
  rewrite pos_key_bytes in E.
  change (delim1 :: delim2 :: delim1 :: esc (position_bytes M i))
    with ([delim1; delim2; delim1] ++ esc (position_bytes M i)) in E.
  apply starts_with_app_l in E. congruence.
Qed.

(** The occurrences of a key in the text of a log are the starts of the
    records with that key. *)
Lemma occurrences_tokens (i : Z) (toks : list (token M)) :
  P i ->
  Forall P (token_positions M toks) ->
  forall k : Z,
    occurrences (key_of i) (tail_of toks) k
    = matching_offsets delim1 delim2 M (key_of i) toks k.
Proof.
  intros Hi. induction toks as [| [j e rev |] toks IH]; intros Hpos k.
  - unfold log_tail. cbn [fmap list_fmap concat app occurrences matching_offsets].
    rewrite pos_key_bytes. cbn [starts_with].
    rewrite !andb_false_r. reflexivity.
  - cbn [token_positions] in Hpos. apply Forall_cons in Hpos as [Hj Hpos].
    rewrite log_tail_cons. cbn [token_bytes matching_offsets].
    rewrite occurrences_region.
    + rewrite key_at_record by assumption. rewrite IH by exact Hpos.
      destruct (decide (key_of i = key_of j)); reflexivity.
    + rewrite stored_record_bytes, pos_key_bytes. discriminate.
    + intros n Hn. apply key_needs_marker.
      destruct (starts_with [delim1; delim2; delim1] _) eqn:E; [| reflexivity].
      exfalso.
      apply (marker_in_record delim1 delim2 M delims_differ) in E
        as [-> | (k' & -> & _)]; [lia | lia | apply log_tail_head].
  - cbn [token_positions] in Hpos.
    rewrite log_tail_cons. cbn [token_bytes matching_offsets].
    rewrite occurrences_skip.
    + rewrite IH by exact Hpos. reflexivity.
    + intros n Hn. apply key_needs_marker.
      pose proof (log_tail_head toks) as Hh.
      destruct (tail_of toks) as [| a rest] eqn:Et; [discriminate |].
      cbn in Hh. injection Hh as ->.
      destruct n as [| [| n]]; [| | cbn [length] in Hn; lia].
      * cbn [app drop starts_with].
        rewrite (eqb_neq_byte delim2 delim1) by congruence.
        rewrite andb_false_r. reflexivity.
      * cbn [app drop starts_with].
        rewrite (eqb_neq_byte delim2 delim1) by congruence.
        rewrite andb_false_r. reflexivity.
Qed.

(** After the escaped payload of a record comes an odd run of markers and a
    byte that is not the marker. *)
Lemma log_tail_shape (toks : list (token M)) :
  exists (g : nat) (x : byte) (post : list byte),
    tail_of toks = repeat delim1 (2 * g + 1) ++ x :: post
    /\ terminator delim1 delim2 M toks = repeat delim1 (2 * g + 1) ++ [x]
    /\ x <> delim1.
Proof.
  induction toks as [| [j e rev |] toks IH].
  - exists 0%nat, x00, []. repeat split. congruence.
  - exists 0%nat, delim2, (delim1 :: esc (position_bytes M j) ++ [delim1]
                          ++ esc (Edit_SerializeToString M (forward_edit M e rev))
                          ++ tail_of toks).
    repeat split; [| congruence].
    rewrite log_tail_cons. cbn [token_bytes]. rewrite stored_record_bytes.
    rewrite pos_key_bytes. cbn [app repeat Nat.mul Nat.add].
    rewrite <- !app_assoc. reflexivity.
  - destruct IH as (g & x & post & Ht & Hterm & Hx).
    exists (S g), x, post. repeat split; [| | exact Hx].
    + rewrite log_tail_cons, Ht. cbn [token_bytes].
      replace (2 * S g + 1)%nat with (S (S (2 * g + 1))) by lia. reflexivity.
    + cbn [terminator]. rewrite Hterm.
      replace (2 * S g + 1)%nat with (S (S (2 * g + 1))) by lia. reflexivity.
Qed.

(** The strings handed to the parser for the records with a given key. *)
Lemma values_of_tokens (key : list byte) (toks : list (token M)) :
  forall pre : list byte,
    size (pre ++ tail_of toks) < size_modulus ->
    mapM (edit_value_at delim1 delim2 (pre ++ tail_of toks) key)
         (matching_offsets delim1 delim2 M key toks (size pre))
    = Ok (stored_values delim1 delim2 M key toks).
Proof.
  induction toks as [| [j e rev |] toks IH]; intros pre Hsz.
  - reflexivity.
  - cbn [matching_offsets stored_values].
    rewrite log_tail_cons in Hsz |- *. cbn [token_bytes] in Hsz |- *.
    assert (Hnext :
      mapM (edit_value_at delim1 delim2
              (pre ++ stored_record delim1 delim2 M (j, e, rev) ++ tail_of toks) key)
           (matching_offsets delim1 delim2 M key toks
              (size pre + size (stored_record delim1 delim2 M (j, e, rev))))
      = Ok (stored_values delim1 delim2 M key toks)).
    { rewrite <- size_app. rewrite app_assoc. apply IH.
      rewrite <- app_assoc. exact Hsz. }
    destruct (decide (key = key_of j)) as [-> | Hne].
    + cbn [app mapM]. rewrite Hnext.
      destruct (log_tail_shape toks) as (g & x & post & Ht & Hterm & Hx).
      rewrite stored_record_bytes, Ht, Hterm in *.
      rewrite <- !app_assoc in *.
      rewrite (edit_value_at_record delim1 delim2 delims_differ) by assumption.
      reflexivity.
    + cbn [app]. exact Hnext.
  - cbn [matching_offsets stored_values].
    rewrite log_tail_cons in Hsz |- *. cbn [token_bytes] in Hsz |- *.
    replace (size pre + 2) with (size (pre ++ [delim1; delim1]))
      by (rewrite size_app, !size_cons; reflexivity).
    replace (pre ++ [delim1; delim1] ++ tail_of toks)
      with ((pre ++ [delim1; delim1]) ++ tail_of toks)
      by (rewrite <- app_assoc; reflexivity).
    apply IH. rewrite <- app_assoc. exact Hsz.
Qed.

(** The read path on the index of a log: one string per record with the
    key of the position, in the order of the log. *)
Lemma edit_values_at_position_log (c : Counter) (i : Z) (toks : list (token M)) :
  i <> 0 ->
  P i ->
  Forall P (token_positions M toks) ->
  vector_at (edit_csas c) (bin_for_position c i)
  = Ok (construct (token_log delim1 delim2 M toks)) ->
  size (construct (token_log delim1 delim2 M toks)) < size_modulus ->
  edit_values_at_position delim1 delim2 M c i
  = Ok (stored_values delim1 delim2 M (key_of i) toks).
Proof.
  intros Hi HP Hpos Hcsa Hsz. unfold edit_values_at_position.
  assert (Hnz : (i =? 0) = false) by (apply Z.eqb_neq; exact Hi).
  rewrite Hnz, Hcsa. cbn [bind].
  assert (Htext : construct (token_log delim1 delim2 M toks) = tail_of toks).
  { unfold construct, token_log, log_tail. rewrite <- app_assoc. reflexivity. }
  rewrite Htext in *. unfold locate.
  rewrite occurrences_tokens by assumption.
  apply (values_of_tokens (key_of i) toks []). exact Hsz.
Qed.

Lemma length_stored_values (key : list byte) (toks : list (token M)) :
  length (stored_values delim1 delim2 M key toks)
  = length (stored_edits delim1 delim2 M key toks).
Proof.
  induction toks as [| [j e rev |] toks IH]; cbn [stored_values stored_edits];
    [reflexivity | | exact IH].
  destruct (decide (key = key_of j)); cbn [length]; rewrite IH; reflexivity.
Qed.

Lemma stored_edits_elem (i : Z) (e : Edit M) (rev : bool) (toks : list (token M)) :
  Rec i e rev ∈ toks ->
  forward_edit M e rev ∈ stored_edits delim1 delim2 M (key_of i) toks.
Proof.
  induction toks as [| [j e' rev' |] toks IH]; intros Hin.
  - apply elem_of_nil in Hin. contradiction.
  - cbn [stored_edits]. apply elem_of_cons in Hin as [Heq | Hin].
    + injection Heq as <- <- <-.
      destruct (decide (key_of i = key_of i)); [| congruence].
      apply list_elem_of_here.
    + destruct (decide (key_of i = key_of j));
        [apply list_elem_of_further |]; apply IH; exact Hin.
  - cbn [stored_edits]. apply elem_of_cons in Hin as [Heq | Hin]; [discriminate |].
    apply IH. exact Hin.
Qed.

(** The string handed to the parser for a record of the log: its escaped
    payload, an odd run of markers and one more byte. *)
Lemma stored_values_elem (i : Z) (e : Edit M) (rev : bool) (toks : list (token M)) :
  Rec i e rev ∈ toks ->
  exists (g : nat) (x : byte),
    x <> delim1
    /\ (esc (Edit_SerializeToString M (forward_edit M e rev))
          ++ repeat delim1 (2 * g + 1) ++ [x])
        ∈ stored_values delim1 delim2 M (key_of i) toks.
Proof.
  induction toks as [| [j e' rev' |] toks IH]; intros Hin.
  - apply elem_of_nil in Hin. contradiction.
  - cbn [stored_values]. apply elem_of_cons in Hin as [Heq | Hin].
    + injection Heq as <- <- <-.
      destruct (decide (key_of i = key_of i)); [| congruence].
      destruct (log_tail_shape toks) as (g & x & post & _ & Hterm & Hx).
      exists g, x. split; [exact Hx |]. rewrite Hterm. apply list_elem_of_here.
    + destruct (IH Hin) as (g & x & Hx & Hv). exists g, x.
      split; [exact Hx |].
      destruct (decide (key_of i = key_of j));
        [apply list_elem_of_further |]; exact Hv.
  - cbn [stored_values]. apply elem_of_cons in Hin as [Heq | Hin]; [discriminate |].
    apply IH. exact Hin.
Qed.

(** A closed log of records, by its tokens. *)
Lemma token_log_records (recs : list (Z * Edit M * bool)) :
  token_log delim1 delim2 M (rec_tokens recs) = closed_log delim1 delim2 M recs.
Proof.
  unfold token_log, closed_log, rec_tokens. f_equal. f_equal.
  rewrite <- list_fmap_compose. apply list_fmap_ext.
  intros k [[i e] rev] _. reflexivity.
Qed.

Lemma rec_tokens_elem (i : Z) (e : Edit M) (rev : bool)
    (recs : list (Z * Edit M * bool)) :
  (i, e, rev) ∈ recs -> Rec i e rev ∈ rec_tokens recs.
Proof.
  intros H. unfold rec_tokens. apply list_elem_of_fmap.
  exists (i, e, rev). split; [reflexivity | exact H].
Qed.

Lemma rec_tokens_positions (recs : list (Z * Edit M * bool)) :
  (forall i e rev, (i, e, rev) ∈ recs -> P i) ->
  Forall P (token_positions M (rec_tokens recs)).
Proof.
  induction recs as [| [[i e] rev] recs IH]; intros H; [constructor |].
  cbn [rec_tokens fmap list_fmap token_positions]. apply Forall_cons_2.
  - apply (H i e rev). apply list_elem_of_here.
  - apply IH. intros j e' rev' Hin. apply (H j e' rev').
    apply list_elem_of_further. exact Hin.
Qed.

End TokenLog.

Lemma records_in_elem (M : Messages) (binsz : Z) (evs : list (event M))
    (i : Z) (e : Edit M) (rev : bool) :
  Record i e rev ∈ evs -> (i, e, rev) ∈ records_in M binsz evs (i / binsz).
Proof.
  induction evs as [| [q | j e' rev'] evs IH]; intros Hin.
  - apply elem_of_nil in Hin. contradiction.
  - apply elem_of_cons in Hin as [Heq | Hin]; [discriminate |].
    cbn [records_in]. apply IH. exact Hin.
  - cbn [records_in]. apply elem_of_cons in Hin as [Heq | Hin].
    + injection Heq as <- <- <-. rewrite Z.eqb_refl. apply list_elem_of_here.
    + destruct (j / binsz =? i / binsz);
        [apply list_elem_of_further |]; apply IH; exact Hin.
Qed.

Lemma records_in_inv (M : Messages) (binsz : Z) (evs : list (event M))
    (bin i : Z) (e : Edit M) (rev : bool) :
  (i, e, rev) ∈ records_in M binsz evs bin -> Record i e rev ∈ evs.
Proof.
  induction evs as [| [q | j e' rev'] evs IH]; intros Hin.
  - apply elem_of_nil in Hin. contradiction.
  - cbn [records_in] in Hin. apply list_elem_of_further. apply IH. exact Hin.
  - cbn [records_in] in Hin. destruct (j / binsz =? bin).
    + apply elem_of_cons in Hin as [Heq | Hin].
      * injection Heq as <- <- <-. apply list_elem_of_here.
      * apply list_elem_of_further. apply IH. exact Hin.
    + apply list_elem_of_further. apply IH. exact Hin.
Qed.

(** ** Retrieval of recorded edits *)

Section Retrieval.
Variables delim1 delim2 : byte.
Variable M : Messages.
Variable P : Z -> Prop.
Variable xg : XG.
Variable binsz : Z.
Variable alns : list (Alignment M).
Hypothesis delims_differ : delim1 <> delim2.
Hypothesis delim1_not_null : delim1 <> x00.
Hypothesis keys_prefix_free : prefix_free_keys M P.
Hypothesis basis_length_in_range : 0 <= seq_length xg < size_modulus.
Hypothesis bin_size_positive : 0 < binsz.
Hypothesis lengths : lengths_in_range M alns.
Hypothesis events_in_range :
  Forall (event_in_range M (seq_length xg) binsz (wrap (seq_length xg / binsz + 1)))
         (add_events M true xg alns).
Hypothesis record_positions :
  forall i e rev, Record i e rev ∈ add_events M true xg alns -> P i.
Hypothesis logs_in_range :
  forall bin, size (log_of delim1 delim2 M binsz (add_events M true xg alns) bin) + 2
              < size_modulus.

Local Abbreviation evs := (add_events M true xg alns).
Local Abbreviation nbins := (wrap (seq_length xg / binsz + 1)).
Local Abbreviation esc := (escape_delims delim1 delim2).

(** The read path at the position of a record of the run. *)
Lemma edit_values_of_run (c2 : Counter) (i : Z) (e : Edit M) (rev : bool) :
  c2 = compacted_counter delim1 delim2 M xg binsz nbins evs ->
  Record i e rev ∈ evs ->
  i <> 0 ->
  edit_values_at_position delim1 delim2 M c2 i
  = Ok (stored_values delim1 delim2 M (pos_key delim1 delim2 M i)
          (rec_tokens (records_in M binsz evs (i / binsz)))).
Proof.
  intros -> Hin Hi.
  assert (Hrange : event_in_range M (seq_length xg) binsz nbins (Record i e rev)).
  { rewrite Forall_forall in events_in_range. apply events_in_range. exact Hin. }
  destruct Hrange as [Hi0 Hbin].
  assert (Hb : 0 <= i / binsz < nbins).
  { split; [apply Z.div_pos; lia | exact Hbin]. }
  apply (edit_values_at_position_log delim1 delim2 M P delims_differ
           delim1_not_null keys_prefix_free).
  - exact Hi.
  - apply (record_positions i e rev). exact Hin.
  - apply rec_tokens_positions. intros j e' rev' Hj.
    apply (record_positions j e' rev'). eapply records_in_inv. exact Hj.
  - unfold bin_for_position, compacted_counter. counter_members.
    assert (Hgt : (binsz >? 0) = true) by (apply Z.gtb_lt; lia).
    rewrite Hgt. rewrite vector_at_tabulate by exact Hb.
    rewrite token_log_records. reflexivity.
  - rewrite token_log_records. unfold construct, closed_log.
    rewrite !size_app, !size_cons. change (size (@nil byte)) with 0.
    pose proof (logs_in_range (i / binsz)) as Hsz. unfold log_of in Hsz. lia.
Qed.

End Retrieval.

(** C4, as the code has it.  A run with [record_edits] returns.  Afterwards
    [edits_at_position 0] is empty, whatever was added at position 0.  For a
    record added at a position [i] other than 0, on either strand, the edit
    on the forward strand is among the edits stored with the key of [i] in
    the log of the bin of [i], and [edits_at_position i] returns one entry
    for each of these; the edit itself is among the entries when the parser
    recovers an edit from its escaped bytes followed by a run of markers and
    one more byte, which is what the read path hands to it. *)
Theorem recorded_edit_is_returned (delim1 delim2 : byte) (M : Messages)
    (P : Z -> Prop) (xg : XG) (binsz : Z) (alns : list (Alignment M)) :
  delim1 <> delim2 ->
  delim1 <> x00 ->
  prefix_free_keys M P ->
  0 <= seq_length xg < size_modulus ->
  0 < binsz ->
  lengths_in_range M alns ->
  Forall (event_in_range M (seq_length xg) binsz (wrap (seq_length xg / binsz + 1)))
         (add_events M true xg alns) ->
  (forall i e rev, Record i e rev ∈ add_events M true xg alns -> P i) ->
  (forall bin,
      size (log_of delim1 delim2 M binsz (add_events M true xg alns) bin) + 2
      < size_modulus) ->
  exists c0 c1 c2,
    Counter_new xg binsz = Ok c0
    /\ foldM (fun c aln => add delim1 delim2 M c aln true) alns c0 = Ok c1
    /\ make_compact delim1 c1 = Ok c2
    /\ edits_at_position delim1 delim2 M c2 0 = Ok []
    /\ forall i e rev,
         Record i e rev ∈ add_events M true xg alns ->
         i <> 0 ->
         let stored :=
           stored_edits delim1 delim2 M (pos_key delim1 delim2 M i)
             (rec_tokens (records_in M binsz (add_events M true xg alns) (i / binsz))) in
         forward_edit M e rev ∈ stored
         /\ exists l,
              edits_at_position delim1 delim2 M c2 i = Ok l
              /\ length l = length stored
              /\ ((forall (g : nat) (x : byte),
                      x <> delim1 ->
                      Edit_ParseFromString M
                        (escape_delims delim1 delim2
                           (Edit_SerializeToString M (forward_edit M e rev))
                         ++ repeat delim1 (2 * g + 1) ++ [x])
                      = forward_edit M e rev) ->
                  forward_edit M e rev ∈ l).
Proof.
  intros Hd H0 Hkeys HL Hbin Hlen Hev HP Hlogs.
  destruct (run_returns delim1 delim2 M xg binsz true alns HL Hbin Hlen Hev)
    as (c0 & c1 & c2 & Hnew & Hadd & Hcompact & _ & _ & Hc2).
  exists c0, c1, c2. repeat split; try assumption.
  - apply (stored_edits_elem delim1 delim2 M). apply rec_tokens_elem.
    apply records_in_elem. exact H.
  - assert (Halns : alns <> []).
    { intros ->. apply elem_of_nil in H. contradiction. }
    pose proof (edit_values_of_run delim1 delim2 M P xg binsz alns Hd H0 Hkeys Hbin
                  Hev HP Hlogs c2 i e rev (Hc2 Halns) H H1) as Hvalues.
    eexists. split; [| split].
    + unfold edits_at_position. rewrite Hvalues. reflexivity.
    + rewrite length_fmap. apply (length_stored_values delim1 delim2 M).
    + intros Hparse.
      destruct (stored_values_elem delim1 delim2 M Hd H0 i e rev
                  (rec_tokens (records_in M binsz (add_events M true xg alns) (i / binsz))))
        as (g & x & Hx & Hv).
      { apply rec_tokens_elem, records_in_elem. exact H. }
      apply list_elem_of_fmap. eexists. split; [| exact Hv].
      symmetry. apply Hparse. exact Hx.
Qed.

(** ** The concrete message layer *)

Lemma Proto_position_bytes (i : Z) :
  0 <= i < 126 ->
  position_bytes Proto.messages i = [x08; Proto.byte_of_Z (i + 2)].
Proof.
  intros Hi. unfold position_bytes.
  cbn [Position_SerializeToString Proto.messages].
  unfold Proto.serialize_position. cbn [node_id offset is_reverse].
  rewrite wrap_small by (unfold size_modulus; lia).
  assert (Hnz : (i + 2 =? 0) = false) by (apply Z.eqb_neq; lia).
  rewrite Hnz. unfold Proto.uvarint.
  rewrite wrap_small by (unfold size_modulus; lia).
  cbn [Proto.varint].
  assert (Hlt : (i + 2 <? 128) = true) by (apply Z.ltb_lt; lia).
  rewrite Hlt. reflexivity.
Qed.

(** The keys of the positions below 126, one tag byte and one length byte,
    are a prefix code. *)
Lemma Proto_keys_prefix_free :
  prefix_free_keys Proto.messages (fun i => 0 <= i < 126).
Proof.
  intros i j Hi Hj Hpre.
  rewrite (Proto_position_bytes i Hi), (Proto_position_bytes j Hj) in *.
  apply prefix_length_eq; [exact Hpre | reflexivity].
Qed.

(** The parser stops at the first marker byte after the fields of the
    substitution, and returns the substitution. *)
Lemma Proto_parse_snp (g : nat) (x : byte) :
  Edit_ParseFromString Proto.messages
    (escape_delims Proto.delim1 Proto.delim2
       (Edit_SerializeToString Proto.messages Proto.snp)
     ++ repeat Proto.delim1 (2 * g + 1) ++ [x])
  = Proto.snp.
Proof.
  replace (2 * g + 1)%nat with (S (2 * g)) by lia.
  reflexivity.
Qed.

(** ** Witnesses and failing inputs on the concrete message layer *)

Lemma key_prefix_marks_record_starts_witness :
  (forall (p : list byte) (k : nat),
      starts_with [Proto.delim1; Proto.delim2; Proto.delim1]
        (drop k (escape_delims Proto.delim1 Proto.delim2 p)) = false)
  /\ (forall (recs : list (Z * Edit Proto.messages * bool)) (k : nat),
        starts_with [Proto.delim1; Proto.delim2; Proto.delim1]
          (drop k (closed_log Proto.delim1 Proto.delim2 Proto.messages recs)) = true
        <-> k ∈ record_offsets Proto.delim1 Proto.delim2 Proto.messages recs 0%nat).
Proof.
  apply (key_prefix_marks_record_starts Proto.delim1 Proto.delim2 Proto.messages).
  discriminate.
Defined.

(** C3, on a deletion of 255 bases recorded at position 7.  Its serialized
    bytes are [08 ff 01]; the escaped payload [08 ff ff 01] has an even run
    of markers inside, and the pad ends it with a run of one.  The read path
    hands the parser [08 ff ff 01 ff 00]: the payload still escaped, the
    terminator and the byte after it.  The edit that comes back is a
    deletion of 32767 bases. *)
Theorem value_runs_past_terminator :
  exists c,
    Proto.deletion_scenario = Ok c
    /\ Edit_SerializeToString Proto.messages (Proto.deletion 255) = [x08; xff; x01]
    /\ edit_values_at_position Proto.delim1 Proto.delim2 Proto.messages c 7
       = Ok [[x08; xff; xff; x01; xff; x00]]
    /\ edits_at_position Proto.delim1 Proto.delim2 Proto.messages c 7
       = Ok [Proto.deletion 32767].
Proof.
  eexists. split; [vm_compute; reflexivity |].
  split; [reflexivity |]. split; vm_compute; reflexivity.
Qed.

(** In the scenario of the specification the string handed to the parser is
    the serialized substitution followed by the pad and the null symbol; the
    parser stops at the pad and the substitution comes back. *)
Example scenario_edit_at_7 :
  edit_values_at_position Proto.delim1 Proto.delim2 Proto.messages
    Proto.scenario_counter 7
  = Ok [Edit_SerializeToString Proto.messages Proto.snp ++ [xff; x00]]
  /\ edits_at_position Proto.delim1 Proto.delim2 Proto.messages
       Proto.scenario_counter 7
     = Ok [Proto.snp].
Proof. split; vm_compute; reflexivity. Qed.

(** C4, as the specification has it, fails at position 0: a substitution
    recorded at position 0 is in the log, and [edits_at_position 0] returns
    no edit. *)
Lemma edit_at_origin_is_not_returned :
  exists c l,
    Proto.origin_scenario = Ok c
    /\ @Record Proto.messages 0 Proto.snp false
         ∈ add_events Proto.messages true (Proto.one_node 10) Proto.origin_alignments
    /\ edits_at_position Proto.delim1 Proto.delim2 Proto.messages c 0 = Ok l
    /\ forward_edit Proto.messages Proto.snp false ∉ l.
Proof.
  eexists. exists []. split; [vm_compute; reflexivity |].
  split; [compute_events; apply list_elem_of_here |].
  split; [reflexivity |]. apply not_elem_of_nil.
Qed.

Lemma recorded_edit_is_returned_witness :
  exists c0 c1 c2,
    Counter_new (Proto.one_node 10) 5 = Ok c0
    /\ foldM (fun c aln => add Proto.delim1 Proto.delim2 Proto.messages c aln true)
             Proto.scenario_alignments c0 = Ok c1
    /\ make_compact Proto.delim1 c1 = Ok c2
    /\ edits_at_position Proto.delim1 Proto.delim2 Proto.messages c2 0 = Ok []
    /\ exists l,
         edits_at_position Proto.delim1 Proto.delim2 Proto.messages c2 7 = Ok l
         /\ Proto.snp ∈ l.
Proof.
  destruct (recorded_edit_is_returned Proto.delim1 Proto.delim2 Proto.messages
              (fun i => 0 <= i < 126) (Proto.one_node 10) 5 Proto.scenario_alignments)
    as (c0 & c1 & c2 & Hnew & Hadd & Hcompact & Horigin & Hrec).
  - discriminate.
  - discriminate.
  - exact Proto_keys_prefix_free.
  - concrete_bounds.
  - concrete_bounds.
  - concrete_lengths.
  - concrete_forall.
  - intros i e rev H. compute_events. concrete_elem H.
    injection H as -> _ _. lia.
  - intros bin. compute_events. unfold log_of. cbn [records_in].
    change (7 / 5) with 1. destruct (1 =? bin); vm_compute; reflexivity.
  - exists c0, c1, c2. repeat split; try assumption.
    destruct (Hrec 7 Proto.snp false) as (_ & l & Hl & _ & Hparse).
    + compute_events. do 3 apply list_elem_of_further. apply list_elem_of_here.
    + discriminate.
    + exists l. split; [exact Hl |].
      apply Hparse. intros g x _. apply Proto_parse_snp.
Defined.

(** ** Merging *)

(** A loop over all indices of a vector that replaces each entry by a
    function of the index and the entry. *)
Lemma foldM_update_all {A} (body : list A -> Z -> result (list A))
    (upd : Z -> A -> A) (f : Z -> A) (n : Z) :
  (forall v i x,
      0 <= i < n -> size v = n -> v !! Z.to_nat i = Some x ->
      body v i = Ok (<[Z.to_nat i := upd i x]> v)) ->
  0 <= n ->
  foldM body (seqZ 0 n) (tabulate f n) = Ok (tabulate (fun i => upd i (f i)) n).
Proof.
  intros Hbody Hn.
  assert (Hprefix : forall k : nat,
    Z.of_nat k <= n ->
    foldM body (seqZ 0 (Z.of_nat k)) (tabulate f n)
    = Ok (tabulate (fun i => if i <? Z.of_nat k then upd i (f i) else f i) n)).
  { induction k as [| k IH]; intros Hk.
    - cbn [seqZ Z.of_nat foldM]. rewrite seqZ_nil by lia. cbn [foldM].
      f_equal. apply tabulate_ext. intros i Hi.
      assert (H : (i <? Z.of_nat 0) = false) by (apply Z.ltb_ge; lia).
      rewrite H. reflexivity.
    - rewrite seqZ_S, foldM_app, IH by lia. cbn [bind foldM].
      rewrite (Hbody _ _ (f (Z.of_nat k))).
      + cbn [bind]. f_equal.
        replace (upd (0 + Z.of_nat k) (f (Z.of_nat k)))
          with ((fun i => if i <? Z.of_nat (S k) then upd i (f i) else f i)
                  (0 + Z.of_nat k)).
        * apply (tabulate_insert _
                   (fun i => if i <? Z.of_nat (S k) then upd i (f i) else f i));
            [lia |].
          intros j Hj Hne.
          destruct (j <? Z.of_nat (S k)) eqn:E1, (j <? Z.of_nat k) eqn:E2;
            try reflexivity;
            rewrite ?Z.ltb_lt, ?Z.ltb_ge in *; lia.
        * cbn beta.
          assert (H : (0 + Z.of_nat k <? Z.of_nat (S k)) = true)
            by (apply Z.ltb_lt; lia).
          rewrite H. reflexivity.
      + lia.
      + apply size_tabulate. exact Hn.
      + replace (0 + Z.of_nat k) with (Z.of_nat k) by lia.
        rewrite tabulate_lookup by lia.
        rewrite Z.ltb_irrefl. reflexivity. }
  rewrite <- (Z2Nat.id n) at 1 by exact Hn.
  rewrite Hprefix by lia. f_equal. apply tabulate_ext. intros i Hi.
  assert (H : (i <? Z.of_nat (Z.to_nat n)) = true) by (apply Z.ltb_lt; lia).
  rewrite H. reflexivity.
Qed.

Lemma tabulate_total (l : list Z) (n : Z) :
  size l = n -> l = tabulate (fun i => default 0 (l !! Z.to_nat i)) n.
Proof.
  intros Hn. apply list_eq. intros k. unfold tabulate.
  rewrite list_lookup_fmap.
  destruct (decide (k < length l)%nat) as [Hk | Hk].
  - rewrite lookup_seqZ_lt by (unfold size in Hn; lia).
    cbn [fmap option_fmap option_map].
    replace (Z.to_nat (0 + Z.of_nat k)) with k by lia.
    destruct (l !! k) eqn:E; [reflexivity |].
    apply lookup_ge_None in E. lia.
  - rewrite lookup_seqZ_ge by (unfold size in Hn; lia).
    apply lookup_ge_None. lia.
Qed.

Section Merge.
Variables delim1 delim2 : byte.
Variable M : Messages.
Variable xg : XG.
Variables binsz nbins : Z.
Hypothesis basis_length_in_range : 0 <= seq_length xg < size_modulus.
Hypothesis n_bins_nonneg : 0 <= nbins.

Local Abbreviation L := (seq_length xg).
Local Abbreviation tlog := (token_log delim1 delim2 M).

Lemma size_token_log_pos (toks : list (token M)) : 1 <= size (tlog toks).
Proof.
  unfold token_log. rewrite size_app, size_cons.
  pose proof (size_nonneg (concat (token_bytes delim1 delim2 M <$> toks))).
  change (size (@nil byte)) with 0. lia.
Qed.

(** [write_edits] on one bin: the log of the source without the null
    symbol, and one marker more. *)
Lemma write_edits_bin_log (c : Counter) (toks : Z -> list (token M))
    (out : list byte) (bin : Z) :
  edit_csas c = tabulate (fun b => construct (tlog (toks b))) nbins ->
  0 <= bin < nbins ->
  size (construct (tlog (toks bin))) < size_modulus ->
  write_edits_bin delim1 c out bin = Ok (out ++ tlog (toks bin) ++ [delim1]).
Proof.
  intros Hcsas Hbin Hsz. unfold write_edits_bin.
  rewrite Hcsas, vector_at_tabulate by exact Hbin. cbn [bind].
  pose proof (size_token_log_pos (toks bin)) as Hpos.
  assert (Hsize : size (construct (tlog (toks bin))) = size (tlog (toks bin)) + 1).
  { unfold construct. rewrite size_app, size_cons. reflexivity. }
  rewrite Hsize in *. rewrite wrap_small by lia.
  unfold extract. rewrite Hsize.
  assert (Hb : (0 <=? 0) && (0 <=? size (tlog (toks bin)) + 1 - 2)
               && (size (tlog (toks bin)) + 1 - 2 <? size (tlog (toks bin)) + 1) = true).
  { rewrite !andb_true_iff, !Z.leb_le, Z.ltb_lt. lia. }
  rewrite Hb. cbn [bind]. do 2 f_equal.
  unfold construct. change (Z.to_nat 0) with 0%nat. rewrite drop_0.
  replace (Z.to_nat (size (tlog (toks bin)) + 1 - 2 - 0 + 1))
    with (length (tlog (toks bin))) by (unfold size; lia).
  rewrite take_app_length. reflexivity.
Qed.

(** One pass of the loop of [merge_from_files]: the logs get the logs of
    the source, the coverage array gets its counts added. *)
Lemma merge_step (c : Counter) (a : Z -> Z) (toks : Z -> list (token M))
    (coverage : Z -> Z) (logs : Z -> list byte) :
  n_bins c = nbins ->
  coverage_civ c = tabulate a L ->
  edit_csas c = tabulate (fun b => construct (tlog (toks b))) nbins ->
  (forall bin, 0 <= bin < nbins ->
               size (construct (tlog (toks bin))) < size_modulus) ->
  (out <- write_edits delim1 c (tmpfstreams (merging_counter xg binsz nbins coverage logs)) ;;
   collect_coverage
     (set_tmpfiles (merging_counter xg binsz nbins coverage logs)
        (edit_tmpfile_names (merging_counter xg binsz nbins coverage logs)) out) c)
  = Ok (merging_counter xg binsz nbins
          (fun i => wrap (coverage i + a i))
          (fun b => logs b ++ tlog (toks b) ++ [delim1])).
Proof.
  intros Hn Hciv Hcsas Hsz.
  unfold write_edits. rewrite Hn. cbn [tmpfstreams merging_counter].
  rewrite (foldM_update_all _ (fun b o => o ++ tlog (toks b) ++ [delim1]))
    by (try exact n_bins_nonneg;
        intros v i x Hi Hv Hx;
        rewrite (vector_at_lookup v i x) by (lia || exact Hx); cbn [bind];
        rewrite (write_edits_bin_log c toks x i Hcsas Hi (Hsz i Hi));
        reflexivity).
  cbn [bind]. unfold collect_coverage, graph_length, coverage_at_position.
  rewrite Hciv. rewrite size_tabulate by lia.
  unfold set_tmpfiles, merging_counter. counter_members.
  rewrite (foldM_update_all _ (fun i x => wrap (x + a i)))
    by (try lia;
        intros v i x Hi Hv Hx;
        rewrite vector_at_tabulate by exact Hi; cbn [bind];
        unfold increment;
        rewrite (vector_at_lookup v i x) by (lia || exact Hx);
        reflexivity).
  reflexivity.
Qed.

(** Compaction of an open instance. *)
Lemma make_compact_merging (coverage : Z -> Z) (logs : Z -> list byte) :
  exists c2,
    make_compact delim1 (merging_counter xg binsz nbins coverage logs) = Ok c2
    /\ bin_size c2 = binsz
    /\ coverage_civ c2 = tabulate coverage L
    /\ edit_csas c2 = tabulate (fun b => construct (logs b ++ [delim1])) nbins.
Proof.
  unfold make_compact. cbn [is_compacted merging_counter].
  assert (Hclose :
    close_edit_tmpfiles delim1 (merging_counter xg binsz nbins coverage logs)
    = set_tmpfiles (merging_counter xg binsz nbins coverage logs)
        (tabulate (fun b => logs b ++ [delim1]) nbins) []).
  { unfold close_edit_tmpfiles.
    destruct (tmpfstreams (merging_counter xg binsz nbins coverage logs)) eqn:E.
    - cbn [tmpfstreams merging_counter] in E.
      apply (f_equal length) in E. rewrite length_tabulate in E. cbn [length] in E.
      unfold set_tmpfiles, merging_counter. counter_members. rewrite E.
      cbn [replicate]. rewrite !(tabulate_nil _ nbins) by lia. reflexivity.
    - rewrite <- E. cbn [tmpfstreams merging_counter].
      rewrite tabulate_fmap. reflexivity. }
  rewrite Hclose. cbn [coverage_dynamic set_tmpfiles merging_counter].
  rewrite mapM_vector_at_all. cbn [bind].
  eexists. split; [reflexivity |].
  unfold set_is_compacted, remove_edit_tmpfiles, set_compact, set_tmpfiles.
  counter_members. rewrite tabulate_fmap. repeat split.
Qed.

End Merge.

Section MergedEdits.
Variables delim1 delim2 : byte.
Variable M : Messages.
Variable Q : Edit M -> Prop.
Hypothesis delims_differ : delim1 <> delim2.
Hypothesis delim1_not_null : delim1 <> x00.
Hypothesis parser_stops : parse_ignores_terminator delim1 delim2 M Q.

Local Abbreviation values := (stored_values delim1 delim2 M).
Local Abbreviation tlog := (token_log delim1 delim2 M).

(** The edits parsed from a log are those parsed from its parts: what
    follows a record changes the run after its payload, not the edit. *)
Lemma parsed_values_app (key : list byte) (toks1 toks2 : list (token M)) :
  (forall i e rev, Rec i e rev ∈ toks1 -> Q (forward_edit M e rev)) ->
  Edit_ParseFromString M <$> values key (toks1 ++ toks2)
  = (Edit_ParseFromString M <$> values key toks1)
    ++ (Edit_ParseFromString M <$> values key toks2).
Proof.
  induction toks1 as [| [j e rev |] toks1 IH]; intros HQ.
  - reflexivity.
  - assert (IH' : Edit_ParseFromString M <$> values key (toks1 ++ toks2)
                  = (Edit_ParseFromString M <$> values key toks1)
                    ++ (Edit_ParseFromString M <$> values key toks2)).
    { apply IH. intros i e' rev' Hin. apply (HQ i e' rev').
      apply list_elem_of_further. exact Hin. }
    cbn [app stored_values].
    destruct (decide (key = pos_key delim1 delim2 M j)); [| exact IH'].
    cbn [fmap list_fmap app]. fold (@fmap list _ _ _ (Edit_ParseFromString M)).
    rewrite IH'. f_equal.
    destruct (log_tail_shape delim1 delim2 M delims_differ delim1_not_null
                (toks1 ++ toks2)) as (g & x & post & _ & Hterm & Hx).
    destruct (log_tail_shape delim1 delim2 M delims_differ delim1_not_null
                toks1) as (g' & x' & post' & _ & Hterm' & Hx').
    rewrite Hterm, Hterm'.
    apply parser_stops; [| exact Hx | exact Hx'].
    apply (HQ j e rev). apply list_elem_of_here.
  - cbn [app stored_values]. apply IH.
    intros i e' rev' Hin. apply (HQ i e' rev').
    apply list_elem_of_further. exact Hin.
Qed.

(** Two logs, each copied by [write_edits] and then closed, form the log of
    their tokens with a pair of markers after each. *)
Lemma token_log_merged (toksA toksB : list (token M)) :
  (([] ++ tlog toksA ++ [delim1]) ++ tlog toksB ++ [delim1]) ++ [delim1]
  = tlog (toksA ++ [Gap] ++ toksB ++ [Gap]).
Proof.
  unfold token_log. rewrite !fmap_app, !concat_app.
  cbn [fmap list_fmap concat token_bytes app].
  rewrite <- !app_assoc. cbn [app]. rewrite <- ?app_assoc. reflexivity.
Qed.

Lemma size_token_log_merged (toksA toksB : list (token M)) :
  size (construct (tlog (toksA ++ [Gap] ++ toksB ++ [Gap])))
  = size (tlog toksA) + size (tlog toksB) + 4.
Proof.
  unfold construct, token_log. rewrite !fmap_app, !concat_app.
  cbn [fmap list_fmap concat token_bytes app].
  repeat rewrite ?size_app, ?size_cons. change (size (@nil byte)) with 0. lia.
Qed.

Lemma token_positions_Forall (P : Z -> Prop) (toks : list (token M)) :
  (forall i e rev, Rec i e rev ∈ toks -> P i) ->
  Forall P (token_positions M toks).
Proof.
  induction toks as [| [j e rev |] toks IH]; intros H; cbn [token_positions].
  - constructor.
  - apply Forall_cons_2.
    + apply (H j e rev). apply list_elem_of_here.
    + apply IH. intros i e' rev' Hin. apply (H i e' rev').
      apply list_elem_of_further. exact Hin.
  - apply IH. intros i e' rev' Hin. apply (H i e' rev').
    apply list_elem_of_further. exact Hin.
Qed.

End MergedEdits.

Lemma open_counter_merging (delim1 delim2 : byte) (M : Messages) (xg : XG)
    (binsz nbins : Z) :
  open_counter delim1 delim2 M xg binsz nbins []
  = merging_counter xg binsz nbins (fun _ => 0) (fun _ => []).
Proof. reflexivity. Qed.

Lemma serialize_compacted (delim1 : byte) (c : Counter) :
  is_compacted c = true ->
  serialize delim1 c
  = Ok (c, {| file_bin_size := bin_size c;
              file_n_bins := size (edit_csas c);
              file_coverage_civ := coverage_civ c;
              file_edit_csas := edit_csas c |}).
Proof.
  intros H. unfold serialize, make_compact. rewrite H. reflexivity.
Qed.

(** Merging with the occurrences of a key taken in the order of the text:
    all calls return, the coverage of the result is the sum of the coverages
    of the sources, and [edits_at_position] on the result returns what it
    returns on the first source followed by what it returns on the second. *)
Lemma merge_in_text_order (delim1 delim2 : byte) (M : Messages)
    (P : Z -> Prop) (Q : Edit M -> Prop) (xg : XG) (binsz : Z)
    (A B : Counter) (logA logB : Z -> list (token M)) :
  delim1 <> delim2 ->
  delim1 <> x00 ->
  prefix_free_keys M P ->
  parse_ignores_terminator delim1 delim2 M Q ->
  0 <= seq_length xg < size_modulus ->
  0 < binsz ->
  seq_length xg / binsz + 1 < size_modulus ->
  is_compacted A = true ->
  is_compacted B = true ->
  bin_size A = binsz ->
  bin_size B = binsz ->
  size (coverage_civ A) = seq_length xg ->
  Forall2 (fun a b => 0 <= a /\ 0 <= b /\ a + b < size_modulus)
          (coverage_civ A) (coverage_civ B) ->
  edit_csas A
  = tabulate (fun bin => construct (token_log delim1 delim2 M (logA bin)))
             (seq_length xg / binsz + 1) ->
  edit_csas B
  = tabulate (fun bin => construct (token_log delim1 delim2 M (logB bin)))
             (seq_length xg / binsz + 1) ->
  (forall bin i e rev,
      Rec i e rev ∈ logA bin ++ logB bin -> P i /\ Q (forward_edit M e rev)) ->
  (forall i, 0 <= i < seq_length xg -> P i) ->
  (forall bin,
      size (token_log delim1 delim2 M (logA bin))
      + size (token_log delim1 delim2 M (logB bin)) + 4 < size_modulus) ->
  exists T0 fA fB T1 T2,
    Counter_new xg binsz = Ok T0
    /\ serialize delim1 A = Ok (A, fA)
    /\ serialize delim1 B = Ok (B, fB)
    /\ merge_from_files delim1 T0 [fA; fB] = Ok T1
    /\ make_compact delim1 T1 = Ok T2
    /\ forall i,
         0 <= i < seq_length xg ->
         (exists a b,
             coverage_at_position A i = Ok a
             /\ coverage_at_position B i = Ok b
             /\ coverage_at_position T2 i = Ok (a + b))
         /\ (exists ea eb,
               edits_at_position delim1 delim2 M A i = Ok ea
               /\ edits_at_position delim1 delim2 M B i = Ok eb
               /\ edits_at_position delim1 delim2 M T2 i = Ok (ea ++ eb)).
Proof.
  intros Hd H0 Hkeys Hparse HLr Hbin Hsmall HcA HcB HbA HbB HsA Hsum HlA HlB
    Hrec HP Hsz.
  set (L := seq_length xg) in *.
  set (nbins := L / binsz + 1) in *.
  assert (HL : 0 <= L) by lia.
  assert (Hq : 0 <= L / binsz) by (apply Z.div_pos; lia).
  assert (Hn : 0 <= nbins) by (subst nbins; lia).
  assert (Hwrap : wrap (L / binsz + 1) = nbins) by (apply wrap_small; lia).
  assert (HsB : size (coverage_civ B) = L).
  { apply Forall2_length in Hsum. unfold size in *. lia. }
  (* the fresh instance *)
  destruct (Counter_new_fresh delim1 delim2 M xg binsz Hbin)
    as (T0 & Hnew & Hopen & _).
  fold L in Hopen. rewrite Hwrap, open_counter_merging in Hopen.
  (* the sources, as files *)
  set (fA := {| file_bin_size := bin_size A; file_n_bins := size (edit_csas A);
                file_coverage_civ := coverage_civ A;
                file_edit_csas := edit_csas A |}).
  set (fB := {| file_bin_size := bin_size B; file_n_bins := size (edit_csas B);
                file_coverage_civ := coverage_civ B;
                file_edit_csas := edit_csas B |}).
  set (a := fun i => default 0 (coverage_civ A !! Z.to_nat i)).
  set (b := fun i => default 0 (coverage_civ B !! Z.to_nat i)).
  assert (HcivA : coverage_civ A = tabulate a L) by (apply tabulate_total; exact HsA).
  assert (HcivB : coverage_civ B = tabulate b L) by (apply tabulate_total; exact HsB).
  assert (Hload : forall S f logS,
    f = {| file_bin_size := bin_size S; file_n_bins := size (edit_csas S);
           file_coverage_civ := coverage_civ S; file_edit_csas := edit_csas S |} ->
    edit_csas S
    = tabulate (fun bin => construct (token_log delim1 delim2 M (logS bin))) nbins ->
    n_bins (load Counter_default f) = nbins
    /\ coverage_civ (load Counter_default f) = coverage_civ S
    /\ edit_csas (load Counter_default f)
       = tabulate (fun bin => construct (token_log delim1 delim2 M (logS bin))) nbins).
  { intros S f logS -> Hl. unfold load, set_compact, set_bins. counter_members.
    cbn [file_n_bins file_coverage_civ file_edit_csas file_bin_size].
    rewrite Hl, size_tabulate by exact Hn.
    repeat split. apply take_ge. rewrite length_tabulate. lia. }
  destruct (Hload A fA logA eq_refl HlA) as (HnA & HvA & HeA).
  destruct (Hload B fB logB eq_refl HlB) as (HnB & HvB & HeB).
  assert (HszA : forall bin, 0 <= bin < nbins ->
            size (construct (token_log delim1 delim2 M (logA bin))) < size_modulus).
  { intros bin _. pose proof (Hsz bin).
    pose proof (size_token_log_pos delim1 delim2 M (logB bin)).
    unfold construct. rewrite size_app, size_cons.
    change (size (@nil byte)) with 0. lia. }
  assert (HszB : forall bin, 0 <= bin < nbins ->
            size (construct (token_log delim1 delim2 M (logB bin))) < size_modulus).
  { intros bin _. pose proof (Hsz bin).
    pose proof (size_token_log_pos delim1 delim2 M (logA bin)).
    unfold construct. rewrite size_app, size_cons.
    change (size (@nil byte)) with 0. lia. }
  (* the merge and the compaction *)
  destruct (make_compact_merging delim1 xg binsz nbins
              (fun i => wrap (wrap (0 + a i) + b i))
              (fun bin => ([] ++ token_log delim1 delim2 M (logA bin) ++ [delim1])
                          ++ token_log delim1 delim2 M (logB bin) ++ [delim1]))
    as (T2 & Hcompact & HbT & HcivT & HcsaT).
  exists T0, fA, fB. eexists. exists T2.
  split; [exact Hnew |].
  split; [apply serialize_compacted; exact HcA |].
  split; [apply serialize_compacted; exact HcB |].
  split.
  { unfold merge_from_files. rewrite Hopen. cbn [foldM].
    rewrite (merge_step delim1 delim2 M xg binsz nbins HLr Hn _ a logA)
      by (try rewrite HvA; assumption).
    cbn [bind].
    rewrite (merge_step delim1 delim2 M xg binsz nbins HLr Hn _ b logB)
      by (try rewrite HvB; assumption).
    reflexivity. }
  split; [exact Hcompact |].
  intros i Hi. split.
  - (* coverage *)
    destruct (coverage_civ A !! Z.to_nat i) as [va |] eqn:EA;
      [| apply lookup_ge_None in EA; unfold size in HsA; lia].
    destruct (coverage_civ B !! Z.to_nat i) as [vb |] eqn:EB;
      [| apply lookup_ge_None in EB; unfold size in HsB; lia].
    destruct (Forall2_lookup_lr _ _ _ _ _ _ Hsum EA EB) as (Hva & Hvb & Hvab).
    exists va, vb. unfold coverage_at_position.
    split; [apply vector_at_lookup; [lia | exact EA] |].
    split; [apply vector_at_lookup; [lia | exact EB] |].
    rewrite HcivT, vector_at_tabulate by exact Hi. f_equal.
    subst a b. cbn beta. rewrite EA, EB. cbn [default]. unfold id.
    rewrite (wrap_small (0 + va)) by lia. apply wrap_small. lia.
  - (* edits *)
    destruct (decide (i = 0)) as [-> | Hnz]; [exists [], []; repeat split |].
    assert (Hb : 0 <= i / binsz < nbins).
    { split; [apply Z.div_pos; lia |].
      assert (i / binsz <= L / binsz) by (apply Z.div_le_mono; lia).
      subst nbins. lia. }
    assert (Hgt : (binsz >? 0) = true) by (apply Z.gtb_lt; lia).
    assert (HPA : forall j e rev, Rec j e rev ∈ logA (i / binsz) ->
                    P j /\ Q (forward_edit M e rev)).
    { intros j e rev Hin. apply (Hrec (i / binsz)). apply elem_of_app. left. exact Hin. }
    assert (HPB : forall j e rev, Rec j e rev ∈ logB (i / binsz) ->
                    P j /\ Q (forward_edit M e rev)).
    { intros j e rev Hin. apply (Hrec (i / binsz)). apply elem_of_app. right. exact Hin. }
    assert (HvalA :
      edit_values_at_position delim1 delim2 M A i
      = Ok (stored_values delim1 delim2 M (pos_key delim1 delim2 M i) (logA (i / binsz)))).
    { apply (edit_values_at_position_log delim1 delim2 M P Hd H0 Hkeys);
        [exact Hnz | apply HP; exact Hi | | | apply HszA; exact Hb].
      - apply token_positions_Forall. intros j e rev Hin. apply (HPA j e rev Hin).
      - unfold bin_for_position. rewrite HbA, Hgt, HlA.
        rewrite vector_at_tabulate by exact Hb. reflexivity. }
    assert (HvalB :
      edit_values_at_position delim1 delim2 M B i
      = Ok (stored_values delim1 delim2 M (pos_key delim1 delim2 M i) (logB (i / binsz)))).
    { apply (edit_values_at_position_log delim1 delim2 M P Hd H0 Hkeys);
        [exact Hnz | apply HP; exact Hi | | | apply HszB; exact Hb].
      - apply token_positions_Forall. intros j e rev Hin. apply (HPB j e rev Hin).
      - unfold bin_for_position. rewrite HbB, Hgt, HlB.
        rewrite vector_at_tabulate by exact Hb. reflexivity. }
    assert (HvalT :
      edit_values_at_position delim1 delim2 M T2 i
      = Ok (stored_values delim1 delim2 M (pos_key delim1 delim2 M i)
              (logA (i / binsz) ++ [Gap] ++ logB (i / binsz) ++ [Gap]))).
    { apply (edit_values_at_position_log delim1 delim2 M P Hd H0 Hkeys);
        [exact Hnz | apply HP; exact Hi | | |].
      - apply token_positions_Forall. intros j e rev Hin.
        rewrite !elem_of_app in Hin.
        destruct Hin as [Hin | [Hin | [Hin | Hin]]].
        + apply (HPA j e rev Hin).
        + apply elem_of_cons in Hin as [Hin | Hin]; [discriminate |].
          apply elem_of_nil in Hin. contradiction.
        + apply (HPB j e rev Hin).
        + apply elem_of_cons in Hin as [Hin | Hin]; [discriminate |].
          apply elem_of_nil in Hin. contradiction.
      - unfold bin_for_position. rewrite HbT, Hgt, HcsaT.
        rewrite vector_at_tabulate by exact Hb.
        rewrite token_log_merged. reflexivity.
      - rewrite size_token_log_merged. apply Hsz. }
    eexists. eexists. unfold edits_at_position. rewrite HvalA, HvalB, HvalT.
    cbn [bind]. repeat split. f_equal.
    rewrite (parsed_values_app delim1 delim2 M Q Hd H0 Hparse)
      by (intros j e rev Hin; apply (HPA j e rev Hin)).
    f_equal.
    cbn [app stored_values].
    rewrite (parsed_values_app delim1 delim2 M Q Hd H0 Hparse)
      by (intros j e rev Hin; apply (HPB j e rev Hin)).
    cbn [stored_values fmap list_fmap]. apply app_nil_r.
Qed.

(** ** The order of the occurrences *)

Lemma mapM_Permutation {A B} (f : A -> result B) (l l' : list A) :
  l ≡ₚ l' ->
  forall r, mapM f l = Ok r -> exists r', mapM f l' = Ok r' /\ r' ≡ₚ r.
Proof.
  induction 1 as [| x l l' _ IH | x y l | l l' l'' _ IH1 _ IH2]; intros r Hr.
  - exists r. split; [exact Hr | reflexivity].
  - cbn [mapM] in Hr |- *. destruct (f x) as [b |]; cbn [bind] in Hr |- *;
      [| discriminate].
    destruct (mapM f l) as [bs |]; cbn [bind] in Hr; [| discriminate].
    injection Hr as <-. destruct (IH bs eq_refl) as (bs' & -> & Hp).
    cbn [bind]. exists (b :: bs'). split; [reflexivity |]. rewrite Hp. reflexivity.
  - cbn [mapM] in Hr |- *.
    destruct (f y) as [by' |]; cbn [bind] in Hr; [| discriminate].
    destruct (f x) as [bx |]; cbn [bind] in Hr |- *; [| discriminate].
    destruct (mapM f l) as [bs |]; cbn [bind] in Hr |- *; [| discriminate].
    injection Hr as <-. exists (bx :: by' :: bs). split; [reflexivity |].
    apply perm_swap.
  - destruct (IH1 r Hr) as (r1 & Hr1 & Hp1).
    destruct (IH2 r1 Hr1) as (r2 & Hr2 & Hp2).
    exists r2. split; [exact Hr2 |]. etransitivity; eassumption.
Qed.

(** In whatever order [locate] reports the occurrences, the read path
    returns the edits it returns in the order of the text, permuted. *)
Lemma edits_in_order_Permutation (delim1 delim2 : byte) (M : Messages)
    (order : list Z -> list Z) (c : Counter) (i : Z) (es : list (Edit M)) :
  (forall l, order l ≡ₚ l) ->
  edits_at_position delim1 delim2 M c i = Ok es ->
  exists es', edits_in_order delim1 delim2 M order c i = Ok es' /\ es' ≡ₚ es.
Proof.
  intros Horder.
  unfold edits_at_position, edits_in_order, edit_values_at_position,
    edit_values_in_order.
  destruct (i =? 0).
  - cbn [bind]. intros H. exists es. split; [exact H | reflexivity].
  - destruct (vector_at _ _) as [edit_csa |]; cbn [bind]; [| discriminate].
    destruct (mapM _ (locate _ _)) as [values |] eqn:E; cbn [bind]; [| discriminate].
    intros H. injection H as <-.
    destruct (mapM_Permutation _ _ (order (locate edit_csa (pos_key delim1 delim2 M i)))
                (symmetry (Horder _)) values E) as (values' & -> & Hp).
    cbn [bind]. eexists. split; [reflexivity |]. rewrite Hp. reflexivity.
Qed.

(** C7. Two compacted sources over the same basis and bins, holding closed
    edit logs, are merged into a fresh instance, which is then compacted:
    all calls return; at every position of the basis the coverage of the
    result is the sum of the coverages of the sources; and the edits that
    [edits_at_position] returns on the result are, as a multiset, those it
    returns on the first source together with those it returns on the
    second, in whatever order [locate] reports the occurrences of a key in
    each of the three indices.  The keys of the positions are a prefix code,
    and the parser stops at the marker that follows the fields of a stored
    edit. *)
Theorem merge_accumulates (delim1 delim2 : byte) (M : Messages)
    (P : Z -> Prop) (Q : Edit M -> Prop) (xg : XG) (binsz : Z)
    (A B : Counter) (logA logB : Z -> list (token M))
    (orderA orderB orderT : list Z -> list Z) :
  delim1 <> delim2 ->
  delim1 <> x00 ->
  prefix_free_keys M P ->
  parse_ignores_terminator delim1 delim2 M Q ->
  0 <= seq_length xg < size_modulus ->
  0 < binsz ->
  seq_length xg / binsz + 1 < size_modulus ->
  is_compacted A = true ->
  is_compacted B = true ->
  bin_size A = binsz ->
  bin_size B = binsz ->
  size (coverage_civ A) = seq_length xg ->
  Forall2 (fun a b => 0 <= a /\ 0 <= b /\ a + b < size_modulus)
          (coverage_civ A) (coverage_civ B) ->
  edit_csas A
  = tabulate (fun bin => construct (token_log delim1 delim2 M (logA bin)))
             (seq_length xg / binsz + 1) ->
  edit_csas B
  = tabulate (fun bin => construct (token_log delim1 delim2 M (logB bin)))
             (seq_length xg / binsz + 1) ->
  (forall bin i e rev,
      Rec i e rev ∈ logA bin ++ logB bin -> P i /\ Q (forward_edit M e rev)) ->
  (forall i, 0 <= i < seq_length xg -> P i) ->
  (forall bin,
      size (token_log delim1 delim2 M (logA bin))
      + size (token_log delim1 delim2 M (logB bin)) + 4 < size_modulus) ->
  (forall l, orderA l ≡ₚ l) ->
  (forall l, orderB l ≡ₚ l) ->
  (forall l, orderT l ≡ₚ l) ->
  exists T0 fA fB T1 T2,
    Counter_new xg binsz = Ok T0
    /\ serialize delim1 A = Ok (A, fA)
    /\ serialize delim1 B = Ok (B, fB)
    /\ merge_from_files delim1 T0 [fA; fB] = Ok T1
    /\ make_compact delim1 T1 = Ok T2
    /\ forall i,
         0 <= i < seq_length xg ->
         (exists a b,
             coverage_at_position A i = Ok a
             /\ coverage_at_position B i = Ok b
             /\ coverage_at_position T2 i = Ok (a + b))
         /\ (exists ea eb eT,
               edits_in_order delim1 delim2 M orderA A i = Ok ea
               /\ edits_in_order delim1 delim2 M orderB B i = Ok eb
               /\ edits_in_order delim1 delim2 M orderT T2 i = Ok eT
               /\ eT ≡ₚ ea ++ eb).
Proof.
  intros Hd H0 Hkeys Hparse HLr Hbin Hsmall HcA HcB HbA HbB HsA Hsum HlA HlB
    Hrec HP Hsz HoA HoB HoT.
  destruct (merge_in_text_order delim1 delim2 M P Q xg binsz A B logA logB
              Hd H0 Hkeys Hparse HLr Hbin Hsmall HcA HcB HbA HbB HsA Hsum HlA HlB
              Hrec HP Hsz)
    as (T0 & fA & fB & T1 & T2 & Hnew & HfA & HfB & Hmerge & Hcompact & Hq).
  exists T0, fA, fB, T1, T2. repeat split; try assumption.
  - destruct (Hq i H) as [Hcov _]. exact Hcov.
  - destruct (Hq i H) as (_ & ea0 & eb0 & HA & HB & HT).
    destruct (edits_in_order_Permutation delim1 delim2 M orderA A i ea0 HoA HA)
      as (ea & Hea & HpA).
    destruct (edits_in_order_Permutation delim1 delim2 M orderB B i eb0 HoB HB)
      as (eb & Heb & HpB).
    destruct (edits_in_order_Permutation delim1 delim2 M orderT T2 i _ HoT HT)
      as (eT & HeT & HpT).
    exists ea, eb, eT. repeat split; try assumption.
    rewrite HpT, HpA, HpB. reflexivity.
Qed.

Lemma merge_accumulates_witness :
  exists T0 fA fB T1 T2,
    Counter_new (Proto.one_node 10) 5 = Ok T0
    /\ serialize Proto.delim1 Proto.scenario_counter = Ok (Proto.scenario_counter, fA)
    /\ serialize Proto.delim1 Proto.scenario_counter = Ok (Proto.scenario_counter, fB)
    /\ merge_from_files Proto.delim1 T0 [fA; fB] = Ok T1
    /\ make_compact Proto.delim1 T1 = Ok T2
    /\ forall i,
         0 <= i < seq_length (Proto.one_node 10) ->
         (exists a b,
             coverage_at_position Proto.scenario_counter i = Ok a
             /\ coverage_at_position Proto.scenario_counter i = Ok b
             /\ coverage_at_position T2 i = Ok (a + b))
         /\ (exists ea eb eT,
               edits_in_order Proto.delim1 Proto.delim2 Proto.messages
                 (fun l => l) Proto.scenario_counter i = Ok ea
               /\ edits_in_order Proto.delim1 Proto.delim2 Proto.messages
                    (@rev Z) Proto.scenario_counter i = Ok eb
               /\ edits_in_order Proto.delim1 Proto.delim2 Proto.messages
                    (@rev Z) T2 i = Ok eT
               /\ eT ≡ₚ ea ++ eb).
Proof.
  apply (merge_accumulates Proto.delim1 Proto.delim2 Proto.messages
           (fun i => 0 <= i < 126) (fun e => e = Proto.snp)
           (Proto.one_node 10) 5 Proto.scenario_counter Proto.scenario_counter
           scenario_tokens scenario_tokens (fun l => l) (@rev Z) (@rev Z)).
  - discriminate.
  - discriminate.
  - exact Proto_keys_prefix_free.
  - intros e g g' x x' -> _ _. rewrite !Proto_parse_snp. reflexivity.
  - concrete_bounds.
  - lia.
  - concrete_bounds.
  - reflexivity.
  - reflexivity.
  - reflexivity.
  - reflexivity.
  - reflexivity.
  - match goal with
    | |- Forall2 ?R ?l ?k =>
        let l' := eval vm_compute in l in
        let k' := eval vm_compute in k in change (Forall2 R l' k')
    end.
    repeat constructor; unfold size_modulus; lia.
  - vm_compute. reflexivity.
  - vm_compute. reflexivity.
  - intros bin i e rev H. unfold scenario_tokens in H.
    destruct (bin =? 1); cbn [app] in H; concrete_elem H;
      injection H as -> -> ->; (split; [lia | reflexivity]).
  - intros i Hi. change (seq_length (Proto.one_node 10)) with 10 in Hi. lia.
  - intros bin. unfold scenario_tokens.
    destruct (bin =? 1); vm_compute; reflexivity.
  - reflexivity.
  - intros l. symmetry. apply Permutation_rev.
  - intros l. symmetry. apply Permutation_rev.
Defined.

(** * Further properties of the counter *)

(** ** The codec *)

Lemma escape_delim_free (s : list byte) (d : byte) :
  Forall (fun x => x <> d) s -> escape_delim s d = s.
Proof.
  induction 1 as [| x s Hx _ IH]; [reflexivity |].
  cbn [escape_delim]. rewrite (eqb_neq_byte x d Hx), IH. reflexivity.
Qed.

(** [escape_delim] adds one byte for every delimiter of its input, and
    nothing else. *)
Theorem escape_delim_size (s : list byte) (d : byte) :
  size (escape_delim s d) = size s + Z.of_nat (count_occ Byte.byte_eq_dec s d).
Proof.
  induction s as [| c s IH]; [reflexivity |].
  cbn [escape_delim count_occ].
  destruct (Byte.byte_eq_dec c d) as [-> | Hne].
  - rewrite eqb_refl_byte, !size_cons, IH. lia.
  - rewrite (eqb_neq_byte c d Hne), !size_cons, IH. lia.
Qed.

Lemma escape_delim_injective (d : byte) (s t : list byte) :
  escape_delim s d = escape_delim t d -> s = t.
Proof.
  revert t. induction s as [| c s IH]; intros [| c' t] H.
  - reflexivity.
  - cbn [escape_delim] in H. destruct (Byte.eqb c' d); discriminate.
  - cbn [escape_delim] in H. destruct (Byte.eqb c d); discriminate.
  - cbn [escape_delim] in H.
    destruct (Byte.eqb c d) eqn:Ec, (Byte.eqb c' d) eqn:Ec'.
    + assert (c = c') by congruence.
      assert (escape_delim s d = escape_delim t d) by congruence.
      f_equal; [assumption | apply IH; assumption].
    + exfalso. apply Byte.byte_dec_bl in Ec. subst c.
      assert (c' = d) by congruence. subst c'.
      rewrite eqb_refl_byte in Ec'. discriminate.
    + exfalso. apply Byte.byte_dec_bl in Ec'. subst c'.
      assert (c = d) by congruence. subst c.
      rewrite eqb_refl_byte in Ec. discriminate.
    + assert (c = c') by congruence.
      assert (escape_delim s d = escape_delim t d) by congruence.
      f_equal; [assumption | apply IH; assumption].
Qed.

(** [escape_delims] loses nothing: two payloads with the same escaped form
    are the same payload. *)
Theorem escape_delims_injective (delim1 delim2 : byte) (s t : list byte) :
  escape_delims delim1 delim2 s = escape_delims delim1 delim2 t -> s = t.
Proof.
  unfold escape_delims. intros H.
  apply (escape_delim_injective delim1), (escape_delim_injective delim2). exact H.
Qed.

Lemma escape_delims_injective_witness : [x08; xff; x01] = [x08; xff; x01].
Proof.
  apply (escape_delims_injective xff xfe [x08; xff; x01] [x08; xff; x01]).
  reflexivity.
Defined.

(** On a string of two or more characters [unescape_delim] returns the
    string as it is, doubled delimiters inside included, except that the
    last character is dropped when the last two are both the delimiter. *)
Theorem unescape_delim_drops_only_last (d : byte) (pre : list byte) (c b : byte) :
  size (pre ++ [c; b]) < size_modulus ->
  unescape_delim (pre ++ [c; b]) d
  = Ok (if Byte.eqb c d && Byte.eqb b d then pre ++ [c] else pre ++ [c; b]).
Proof.
  intros Hsz. rewrite unescape_delim_two by exact Hsz.
  unfold unescape_tail. destruct (Byte.eqb c d && Byte.eqb b d); reflexivity.
Qed.

Lemma unescape_delim_drops_only_last_witness :
  unescape_delim ([x61; xff; xff] ++ [x62; x63]) xff
  = Ok (if Byte.eqb x62 xff && Byte.eqb x63 xff
        then [x61; xff; xff] ++ [x62]
        else [x61; xff; xff] ++ [x62; x63]).
Proof.
  apply (unescape_delim_drops_only_last xff [x61; xff; xff] x62 x63).
  reflexivity.
Defined.

(** The round trip does hold for the strings of two or more characters in
    which no character but the last is a marker. *)
Theorem round_trip_marker_last_only (delim1 delim2 : byte) (pre : list byte)
    (c b : byte) :
  delim1 <> delim2 ->
  Forall (fun x => x <> delim1 /\ x <> delim2) (pre ++ [c]) ->
  size (pre ++ [c; b]) + 1 < size_modulus ->
  unescape_delims delim1 delim2 (escape_delims delim1 delim2 (pre ++ [c; b]))
  = Ok (pre ++ [c; b]).
Proof.
  intros Hd Hfree Hsz.
  assert (H1 : Forall (fun x => x <> delim1) (pre ++ [c])).
  { eapply Forall_impl; [exact Hfree |]. intros x [H _]. exact H. }
  assert (H2 : Forall (fun x => x <> delim2) (pre ++ [c])).
  { eapply Forall_impl; [exact Hfree |]. intros x [_ H]. exact H. }
  assert (Hc1 : Byte.eqb c delim1 = false).
  { apply eqb_neq_byte. apply Forall_app in H1 as [_ H1].
    apply Forall_cons in H1 as [H1 _]. exact H1. }
  assert (Hc2 : Byte.eqb c delim2 = false).
  { apply eqb_neq_byte. apply Forall_app in H2 as [_ H2].
    apply Forall_cons in H2 as [H2 _]. exact H2. }
  assert (Hesc : escape_delims delim1 delim2 (pre ++ [c; b])
                 = pre ++ [c] ++ escape_delims delim1 delim2 [b]).
  { replace (pre ++ [c; b]) with ((pre ++ [c]) ++ [b])
      by (rewrite <- app_assoc; reflexivity).
    unfold escape_delims.
    rewrite escape_delim_app, (escape_delim_free _ delim1 H1).
    rewrite escape_delim_app, (escape_delim_free _ delim2 H2).
    rewrite <- app_assoc. reflexivity. }
  rewrite Hesc. rewrite size_app, !size_cons in Hsz.
  change (size (@nil byte)) with 0 in Hsz.
  unfold escape_delims, unescape_delims. cbn [escape_delim].
  destruct (Byte.eqb b delim1) eqn:E1.
  - apply Byte.byte_dec_bl in E1. subst b. cbn [escape_delim].
    rewrite (eqb_neq_byte delim1 delim2 Hd). cbn [app].
    replace (pre ++ [c; delim1; delim1]) with ((pre ++ [c]) ++ [delim1; delim1])
      by (rewrite <- app_assoc; reflexivity).
    rewrite (unescape_delim_two delim1 (pre ++ [c]) delim1 delim1)
      by (repeat rewrite ?size_app, ?size_cons; change (size (@nil byte)) with 0; lia).
    unfold unescape_tail. rewrite eqb_refl_byte. cbn [andb bind].
    rewrite <- app_assoc. cbn [app].
    rewrite (unescape_delim_two delim2 pre c delim1)
      by (repeat rewrite ?size_app, ?size_cons; change (size (@nil byte)) with 0; lia).
    unfold unescape_tail. rewrite Hc2. reflexivity.
  - cbn [escape_delim]. destruct (Byte.eqb b delim2) eqn:E2.
    + apply Byte.byte_dec_bl in E2. subst b. cbn [app].
      replace (pre ++ [c; delim2; delim2]) with ((pre ++ [c]) ++ [delim2; delim2])
        by (rewrite <- app_assoc; reflexivity).
      rewrite (unescape_delim_two delim1 (pre ++ [c]) delim2 delim2)
        by (repeat rewrite ?size_app, ?size_cons; change (size (@nil byte)) with 0; lia).
      unfold unescape_tail. rewrite E1. cbn [andb bind].
      rewrite (unescape_delim_two delim2 (pre ++ [c]) delim2 delim2)
        by (repeat rewrite ?size_app, ?size_cons; change (size (@nil byte)) with 0; lia).
      unfold unescape_tail. rewrite eqb_refl_byte. cbn [andb].
      rewrite <- app_assoc. reflexivity.
    + cbn [app].
      rewrite (unescape_delim_two delim1 pre c b)
        by (repeat rewrite ?size_app, ?size_cons; change (size (@nil byte)) with 0; lia).
      unfold unescape_tail. rewrite Hc1. cbn [andb bind].
      rewrite (unescape_delim_two delim2 pre c b)
        by (repeat rewrite ?size_app, ?size_cons; change (size (@nil byte)) with 0; lia).
      unfold unescape_tail. rewrite Hc2. reflexivity.
Qed.

Lemma round_trip_marker_last_only_witness :
  unescape_delims xff xfe (escape_delims xff xfe ([x08] ++ [x01; xff]))
  = Ok ([x08] ++ [x01; xff]).
Proof.
  apply (round_trip_marker_last_only xff xfe [x08] x01 xff).
  - discriminate.
  - repeat constructor; discriminate.
  - reflexivity.
Defined.

(** ** Construction and bins *)

(** Every position of the basis, and the position one past its end, falls
    in a bin of the constructed instance. *)
Theorem position_has_bin (xidx : XG) (binsz : Z) (c : Counter) (i : Z) :
  0 < binsz ->
  seq_length xidx / binsz + 1 < size_modulus ->
  Counter_new xidx binsz = Ok c ->
  0 <= i <= seq_length xidx ->
  0 <= bin_for_position c i < n_bins c.
Proof.
  intros Hb Hsmall Hnew Hi. unfold Counter_new in Hnew.
  assert (Hnz : (binsz =? 0) = false) by (apply Z.eqb_neq; lia).
  rewrite Hnz in Hnew. injection Hnew as <-.
  unfold bin_for_position. cbn [bin_size n_bins].
  assert (Hgt : (binsz >? 0) = true) by (apply Z.gtb_lt; lia).
  rewrite Hgt.
  assert (0 <= i / binsz) by (apply Z.div_pos; lia).
  assert (i / binsz <= seq_length xidx / binsz) by (apply Z.div_le_mono; lia).
  rewrite wrap_small by lia. lia.
Qed.

Lemma position_has_bin_witness :
  exists c,
    Counter_new (Proto.one_node 10) 5 = Ok c
    /\ 0 <= bin_for_position c 10 < n_bins c.
Proof.
  eexists. split; [reflexivity |].
  apply (position_has_bin (Proto.one_node 10) 5).
  - lia.
  - reflexivity.
  - reflexivity.
  - cbn [seq_length Proto.one_node]. lia.
Defined.

(** ** What [add] leaves alone *)

Lemma foldM_preserves {A B C} (I : A -> C) (f : A -> B -> result A) (l : list B) :
  (forall a b a', f a b = Ok a' -> I a' = I a) ->
  forall a a', foldM f l a = Ok a' -> I a' = I a.
Proof.
  intros Hf. induction l as [| b l IH]; intros a a' H; cbn [foldM] in H.
  - injection H as <-. reflexivity.
  - destruct (f a b) as [a1 |] eqn:E; cbn [bind] in H; [| discriminate].
    rewrite (IH _ _ H). apply (Hf _ _ _ E).
Qed.

Section AddInvariant.
Variables delim1 delim2 : byte.
Variable M : Messages.

Lemma add_edit_compact_members (record_edits rev : bool) (st : Counter * Z)
    (e : Edit M) (st' : Counter * Z) :
  add_edit delim1 delim2 M record_edits rev st e = Ok st' ->
  compact_members (fst st') = compact_members (fst st).
Proof.
  unfold add_edit. destruct st as [c i].
  destruct (edit_is_match M e).
  - destruct (foldM _ _ _); cbn [bind]; [| discriminate].
    intros H. injection H as <-. reflexivity.
  - destruct record_edits.
    + destruct (vector_at _ _); cbn [bind]; [| discriminate].
      intros H. injection H as <-. reflexivity.
    + cbn [bind]. intros H. injection H as <-. reflexivity.
Qed.

Lemma add_mapping_compact_members (record_edits : bool) (c : Counter)
    (m : Mapping M) (c' : Counter) :
  add_mapping delim1 delim2 M record_edits c m = Ok c' ->
  compact_members c' = compact_members c.
Proof.
  unfold add_mapping. destruct (position m) as [pos |].
  - destruct (xgidx c) as [xg |]; [| discriminate].
    destruct (foldM _ _ _) as [st |] eqn:E; cbn [bind]; [| discriminate].
    intros H. injection H as <-.
    apply (foldM_preserves (fun st => compact_members (fst st)) _ _
             (add_edit_compact_members record_edits (is_reverse pos)) _ _ E).
  - intros H. injection H as <-. reflexivity.
Qed.

Lemma ensure_edit_tmpfiles_open_compact_members (c : Counter) :
  compact_members (ensure_edit_tmpfiles_open c) = compact_members c.
Proof. unfold ensure_edit_tmpfiles_open. destruct (tmpfstreams c); reflexivity. Qed.

Lemma add_compact_members (c c' : Counter) (aln : Alignment M)
    (record_edits : bool) :
  add delim1 delim2 M c aln record_edits = Ok c' ->
  compact_members c' = compact_members c.
Proof.
  unfold add. intros H.
  rewrite (foldM_preserves compact_members _ _
             (add_mapping_compact_members record_edits) _ _ H).
  apply ensure_edit_tmpfiles_open_compact_members.
Qed.

Lemma queries_of_compact_members (c c' : Counter) :
  compact_members c' = compact_members c ->
  (forall i, coverage_at_position c' i = coverage_at_position c i)
  /\ (forall i, edits_at_position delim1 delim2 M c' i
                = edits_at_position delim1 delim2 M c i).
Proof.
  unfold compact_members. intros H.
  assert (Hb : bin_size c' = bin_size c) by congruence.
  assert (Hv : coverage_civ c' = coverage_civ c) by congruence.
  assert (He : edit_csas c' = edit_csas c) by congruence.
  split; intros i.
  - unfold coverage_at_position. rewrite Hv. reflexivity.
  - unfold edits_at_position, edit_values_at_position, bin_for_position.
    rewrite Hb, He. reflexivity.
Qed.

End AddInvariant.

(** [add] writes to the open members only: every query answers after it as
    before.  On a compacted instance, where [make_compact] returns at once,
    what [add] counted therefore never reaches a query. *)
Theorem add_is_invisible_before_compaction (delim1 delim2 : byte) (M : Messages)
    (c c' : Counter) (aln : Alignment M) (record_edits : bool) :
  add delim1 delim2 M c aln record_edits = Ok c' ->
  (forall i, coverage_at_position c' i = coverage_at_position c i)
  /\ (forall i, edits_at_position delim1 delim2 M c' i
                = edits_at_position delim1 delim2 M c i)
  /\ (is_compacted c = true -> make_compact delim1 c' = Ok c').
Proof.
  intros H. apply add_compact_members in H.
  destruct (queries_of_compact_members delim1 delim2 M c c' H) as [Hcov Hed].
  repeat split; try assumption.
  intros Hc. unfold make_compact.
  assert (Hc' : is_compacted c' = true).
  { unfold compact_members in H. congruence. }
  rewrite Hc'. reflexivity.
Qed.

Lemma add_is_invisible_before_compaction_witness :
  exists c',
    add Proto.delim1 Proto.delim2 Proto.messages Proto.scenario_counter
      [Proto.mapping (Proto.forward 3) [Proto.match_edit 3]] true = Ok c'
    /\ coverage_at_position c' 3 = coverage_at_position Proto.scenario_counter 3
    /\ make_compact Proto.delim1 c' = Ok c'.
Proof.
  eexists. split; [vm_compute; reflexivity |].
  match goal with
  | |- coverage_at_position ?c' _ = _ /\ _ =>
      destruct (add_is_invisible_before_compaction Proto.delim1 Proto.delim2
                  Proto.messages Proto.scenario_counter c'
                  [Proto.mapping (Proto.forward 3) [Proto.match_edit 3]] true)
        as (Hcov & _ & Hcompact)
  end.
  - vm_compute. reflexivity.
  - split; [apply Hcov | apply Hcompact; reflexivity].
Defined.

(** ** Mappings without a position *)

(** [add] skips the mappings that have no position: an alignment of such
    mappings only opens the temporary files. *)
Theorem add_skips_positionless (delim1 delim2 : byte) (M : Messages)
    (c : Counter) (aln : Alignment M) (record_edits : bool) :
  Forall (fun m => position m = None) aln ->
  add delim1 delim2 M c aln record_edits = Ok (ensure_edit_tmpfiles_open c).
Proof.
  unfold add. generalize (ensure_edit_tmpfiles_open c) as c0.
  intros c0. induction 1 as [| m aln Hm _ IH]; [reflexivity |].
  cbn [foldM]. unfold add_mapping at 1. rewrite Hm. cbn [bind]. exact IH.
Qed.

Lemma add_skips_positionless_witness :
  add Proto.delim1 Proto.delim2 Proto.messages Counter_default
    [Build_Mapping Proto.messages None [Proto.snp]] true
  = Ok (ensure_edit_tmpfiles_open Counter_default).
Proof.
  apply (add_skips_positionless Proto.delim1 Proto.delim2 Proto.messages).
  repeat constructor.
Defined.

(** ** Compaction of an open instance *)

(** [make_compact] on an open instance always returns.  The instance it
    returns is compacted, holds the counts of the dynamic array unchanged
    and has the same bins; no temporary file is left; and every stream that
    was open has become one index, of what was written to it and the pad. *)
Theorem make_compact_open (delim1 : byte) (c : Counter) :
  is_compacted c = false ->
  exists c2,
    make_compact delim1 c = Ok c2
    /\ is_compacted c2 = true
    /\ coverage_civ c2 = coverage_dynamic c
    /\ bin_size c2 = bin_size c
    /\ n_bins c2 = n_bins c
    /\ tmpfstreams c2 = []
    /\ edit_tmpfile_names c2 = []
    /\ (tmpfstreams c <> [] ->
        edit_csas c2 = (fun s => construct (s ++ [delim1])) <$> tmpfstreams c).
Proof.
  intros Hopen. unfold make_compact. rewrite Hopen.
  assert (Hcov : coverage_dynamic (close_edit_tmpfiles delim1 c) = coverage_dynamic c).
  { unfold close_edit_tmpfiles. destruct (tmpfstreams c); reflexivity. }
  rewrite Hcov, mapM_vector_at_all. cbn [bind].
  eexists. split; [reflexivity |].
  unfold set_is_compacted, remove_edit_tmpfiles, set_compact, set_tmpfiles.
  counter_members.
  unfold close_edit_tmpfiles.
  destruct (tmpfstreams c) as [| s ss] eqn:E; unfold set_tmpfiles; counter_members;
    rewrite ?E; repeat split; try reflexivity.
  - intros H. contradiction.
  - intros _. rewrite <- list_fmap_compose. reflexivity.
Qed.

Lemma make_compact_open_witness :
  exists c2,
    make_compact Proto.delim1 (set_is_compacted Proto.scenario_counter false) = Ok c2
    /\ is_compacted c2 = true
    /\ coverage_civ c2
       = coverage_dynamic (set_is_compacted Proto.scenario_counter false).
Proof.
  destruct (make_compact_open Proto.delim1
              (set_is_compacted Proto.scenario_counter false))
    as (c2 & H1 & H2 & H3 & _).
  - reflexivity.
  - exists c2. repeat split; assumption.
Defined.

(** An instance that is compacted before any call of [add] or
    [merge_from_files] has no edit index at all: its coverage is zero at
    every position of the basis, and [edits_at_position], at any position
    but 0, reads [edit_csas[bin]] in an empty vector. *)
Theorem edits_without_logs_out_of_bounds (delim1 delim2 : byte) (M : Messages)
    (xg : XG) (binsz : Z) :
  0 < binsz ->
  exists c0 c2,
    Counter_new xg binsz = Ok c0
    /\ make_compact delim1 c0 = Ok c2
    /\ edit_csas c2 = []
    /\ (forall p, 0 <= p < seq_length xg -> coverage_at_position c2 p = Ok 0)
    /\ (forall i, i <> 0 ->
          edits_at_position delim1 delim2 M c2 i = Fault OutOfBounds).
Proof.
  intros Hbin.
  destruct (Counter_new_fresh delim1 delim2 M xg binsz Hbin)
    as (c0 & Hnew & _ & Hcompact).
  exists c0. eexists. split; [exact Hnew |]. split; [exact Hcompact |].
  unfold set_is_compacted, set_compact. counter_members.
  split; [reflexivity |]. split.
  - intros p Hp. unfold coverage_at_position. counter_members.
    unfold coverage_after. rewrite vector_at_tabulate by exact Hp. reflexivity.
  - intros i Hi. unfold edits_at_position, edit_values_at_position.
    apply Z.eqb_neq in Hi. rewrite Hi. counter_members.
    unfold vector_at. change (size (@nil csa)) with 0.
    destruct ((0 <=? _) && (_ <? 0)) eqn:E; [| reflexivity].
    rewrite lookup_nil. reflexivity.
Qed.

Lemma edits_without_logs_out_of_bounds_witness :
  exists c0 c2,
    Counter_new (Proto.one_node 10) 5 = Ok c0
    /\ make_compact Proto.delim1 c0 = Ok c2
    /\ edit_csas c2 = []
    /\ (forall p, 0 <= p < seq_length (Proto.one_node 10) ->
          coverage_at_position c2 p = Ok 0)
    /\ (forall i, i <> 0 ->
          edits_at_position Proto.delim1 Proto.delim2 Proto.messages c2 i
          = Fault OutOfBounds).
Proof.
  apply (edits_without_logs_out_of_bounds Proto.delim1 Proto.delim2 Proto.messages
           (Proto.one_node 10) 5).
  lia.
Defined.

(** ** The write path without [record_edits] *)

Section Unrecorded.
Variable M : Messages.

Lemma increments_only_app (evs evs' : list (event M)) :
  increments_only (evs ++ evs') = increments_only evs ++ increments_only evs'.
Proof.
  induction evs as [| [q | i e rev] evs IH]; cbn [app increments_only];
    [reflexivity | rewrite IH; reflexivity | exact IH].
Qed.

Lemma increments_only_increments (ps : list Z) :
  increments_only (@Increment M <$> ps) = Increment <$> ps.
Proof.
  induction ps as [| q ps IH]; [reflexivity |].
  cbn [fmap list_fmap increments_only]. f_equal. exact IH.
Qed.

Lemma edit_events_unrecorded (rev : bool) (edits : list (Edit M)) :
  forall i,
    edit_events M false rev i edits
    = increments_only (edit_events M true rev i edits).
Proof.
  induction edits as [| e edits IH]; intros i; [reflexivity |].
  cbn [edit_events]. rewrite increments_only_app, <- IH. f_equal.
  destruct (edit_is_match M e); [| reflexivity].
  symmetry. apply increments_only_increments.
Qed.

(** Without [record_edits] the write path does what it does with it, less
    the records. *)
Lemma add_events_unrecorded (xg : XG) (alns : list (Alignment M)) :
  add_events M false xg alns = increments_only (add_events M true xg alns).
Proof.
  unfold add_events. induction alns as [| aln alns IH]; [reflexivity |].
  cbn [fmap list_fmap concat]. rewrite increments_only_app, <- IH. f_equal.
  induction aln as [| m aln IHm]; [reflexivity |].
  cbn [fmap list_fmap concat]. rewrite increments_only_app, <- IHm. f_equal.
  unfold mapping_events. destruct (position m); [| reflexivity].
  apply edit_events_unrecorded.
Qed.

Lemma tally_increments_only (evs : list (event M)) (p : Z) :
  tally M (increments_only evs) p = tally M evs p.
Proof.
  induction evs as [| [q | i e rev] evs IH]; cbn [increments_only tally];
    [reflexivity | rewrite IH; reflexivity | exact IH].
Qed.

Lemma records_in_increments_only (binsz : Z) (evs : list (event M)) (bin : Z) :
  records_in M binsz (increments_only evs) bin = [].
Proof.
  induction evs as [| [q | i e rev] evs IH]; cbn [increments_only records_in];
    [reflexivity | exact IH | exact IH].
Qed.

Lemma Forall_increments_only (Q : event M -> Prop) (evs : list (event M)) :
  Forall Q evs -> Forall Q (increments_only evs).
Proof.
  induction 1 as [| [q | i e rev] evs Hq _ IH]; cbn [increments_only].
  - constructor.
  - apply Forall_cons_2; assumption.
  - exact IH.
Qed.

End Unrecorded.

Lemma starts_with_length (pat s : list byte) :
  starts_with pat s = true -> (length pat <= length s)%nat.
Proof.
  revert s. induction pat as [| p pat IH]; intros [| c s] H; cbn [length];
    try lia; cbn [starts_with] in H; [discriminate |].
  apply andb_prop in H as [_ H]. apply IH in H. lia.
Qed.

(** A text shorter than the pattern has no occurrence of it. *)
Lemma occurrences_short (pat s : list byte) :
  (length s < length pat)%nat -> forall k, occurrences pat s k = [].
Proof.
  induction s as [| c s IH]; intros Hlen k; [reflexivity |].
  cbn [occurrences]. destruct (starts_with pat (c :: s)) eqn:E.
  - apply starts_with_length in E. lia.
  - apply IH. cbn [length] in Hlen. lia.
Qed.

(** A run without [record_edits] returns (given, as for the coverage, that
    its increments fall inside the basis and that there is a call of [add]),
    and leaves every edit log with the pad alone: [edits_at_position] is
    empty at every position of the basis. *)
Theorem unrecorded_edits_are_absent (delim1 delim2 : byte) (M : Messages)
    (xg : XG) (binsz : Z) (alns : list (Alignment M)) :
  0 <= seq_length xg < size_modulus ->
  0 < binsz ->
  seq_length xg / binsz + 1 < size_modulus ->
  lengths_in_range M alns ->
  Forall (event_in_range M (seq_length xg) binsz (wrap (seq_length xg / binsz + 1)))
         (add_events M false xg alns) ->
  alns <> [] ->
  exists c0 c1 c2,
    Counter_new xg binsz = Ok c0
    /\ foldM (fun c aln => add delim1 delim2 M c aln false) alns c0 = Ok c1
    /\ make_compact delim1 c1 = Ok c2
    /\ forall i, 0 <= i <= seq_length xg ->
         edits_at_position delim1 delim2 M c2 i = Ok [].
Proof.
  intros HL Hbin Hsmall Hlen Hev Halns.
  destruct (run_returns delim1 delim2 M xg binsz false alns HL Hbin Hlen Hev)
    as (c0 & c1 & c2 & Hnew & Hadd & Hcompact & _ & _ & Hc2).
  exists c0, c1, c2. repeat split; try assumption.
  intros i Hi. rewrite (Hc2 Halns).
  unfold edits_at_position, edit_values_at_position.
  destruct (i =? 0); [reflexivity |].
  unfold bin_for_position, compacted_counter. counter_members.
  assert (Hgt : (binsz >? 0) = true) by (apply Z.gtb_lt; lia).
  assert (Hq : 0 <= seq_length xg / binsz) by (apply Z.div_pos; lia).
  assert (Hb : 0 <= i / binsz < wrap (seq_length xg / binsz + 1)).
  { rewrite wrap_small by lia. split; [apply Z.div_pos; lia |].
    assert (i / binsz <= seq_length xg / binsz) by (apply Z.div_le_mono; lia).
    lia. }
  rewrite Hgt, vector_at_tabulate by exact Hb. cbn [bind].
  unfold log_of. rewrite add_events_unrecorded, records_in_increments_only.
  unfold locate. rewrite occurrences_short; [reflexivity |].
  unfold pos_key. cbn [fmap list_fmap concat app construct length]. lia.
Qed.

Lemma unrecorded_edits_are_absent_witness :
  exists c0 c1 c2,
    Counter_new (Proto.one_node 10) 5 = Ok c0
    /\ foldM (fun c aln => add Proto.delim1 Proto.delim2 Proto.messages c aln false)
             Proto.scenario_alignments c0 = Ok c1
    /\ make_compact Proto.delim1 c1 = Ok c2
    /\ forall i, 0 <= i <= seq_length (Proto.one_node 10) ->
         edits_at_position Proto.delim1 Proto.delim2 Proto.messages c2 i = Ok [].
Proof.
  apply (unrecorded_edits_are_absent Proto.delim1 Proto.delim2 Proto.messages
           (Proto.one_node 10) 5 Proto.scenario_alignments).
  - concrete_bounds.
  - lia.
  - concrete_bounds.
  - concrete_lengths.
  - concrete_forall.
  - discriminate.
Defined.

(** The coverage does not depend on [record_edits]: a run that records the
    edits and the run on the same alignments that does not end with the same
    compact coverage array. *)
Theorem coverage_ignores_record_edits (delim1 delim2 : byte) (M : Messages)
    (xg : XG) (binsz : Z) (alns : list (Alignment M)) :
  0 <= seq_length xg < size_modulus ->
  0 < binsz ->
  lengths_in_range M alns ->
  Forall (event_in_range M (seq_length xg) binsz (wrap (seq_length xg / binsz + 1)))
         (add_events M true xg alns) ->
  exists c0 c1 c2 c1' c2',
    Counter_new xg binsz = Ok c0
    /\ foldM (fun c aln => add delim1 delim2 M c aln true) alns c0 = Ok c1
    /\ make_compact delim1 c1 = Ok c2
    /\ foldM (fun c aln => add delim1 delim2 M c aln false) alns c0 = Ok c1'
    /\ make_compact delim1 c1' = Ok c2'
    /\ coverage_civ c2' = coverage_civ c2.
Proof.
  intros HL Hbin Hlen Hev.
  assert (Hev' : Forall (event_in_range M (seq_length xg) binsz
                           (wrap (seq_length xg / binsz + 1)))
                        (add_events M false xg alns)).
  { rewrite add_events_unrecorded. apply Forall_increments_only. exact Hev. }
  destruct (run_returns delim1 delim2 M xg binsz true alns HL Hbin Hlen Hev)
    as (c0 & c1 & c2 & Hnew & Hadd & Hcompact & Hcov & _).
  destruct (run_returns delim1 delim2 M xg binsz false alns HL Hbin Hlen Hev')
    as (c0' & c1' & c2' & Hnew' & Hadd' & Hcompact' & Hcov' & _).
  assert (c0' = c0) by congruence. subst c0'.
  exists c0, c1, c2, c1', c2'. repeat split; try assumption.
  rewrite Hcov, Hcov'. unfold coverage_after. apply tabulate_ext.
  intros p _. rewrite add_events_unrecorded, tally_increments_only. reflexivity.
Qed.

Lemma coverage_ignores_record_edits_witness :
  exists c0 c1 c2 c1' c2',
    Counter_new (Proto.one_node 10) 5 = Ok c0
    /\ foldM (fun c aln => add Proto.delim1 Proto.delim2 Proto.messages c aln true)
             Proto.scenario_alignments c0 = Ok c1
    /\ make_compact Proto.delim1 c1 = Ok c2
    /\ foldM (fun c aln => add Proto.delim1 Proto.delim2 Proto.messages c aln false)
             Proto.scenario_alignments c0 = Ok c1'
    /\ make_compact Proto.delim1 c1' = Ok c2'
    /\ coverage_civ c2' = coverage_civ c2.
Proof.
  apply (coverage_ignores_record_edits Proto.delim1 Proto.delim2 Proto.messages
           (Proto.one_node 10) 5 Proto.scenario_alignments).
  - concrete_bounds.
  - lia.
  - concrete_lengths.
  - concrete_forall.
Defined.

(** ** Saving and loading *)

(** What [serialize] writes, [load_from_file] reads back: the loaded
    instance is compacted and answers every query as the saved one does.
    Its number of bins is the number of edit indices that were saved. *)
Theorem save_load_round_trip (delim1 delim2 : byte) (M : Messages)
    (c c' : Counter) (f : counter_file) :
  serialize delim1 c = Ok (c', f) ->
  is_compacted (load_from_file Counter_default f) = true
  /\ bin_size (load_from_file Counter_default f) = bin_size c'
  /\ n_bins (load_from_file Counter_default f) = size (edit_csas c')
  /\ graph_length (load_from_file Counter_default f) = graph_length c'
  /\ (forall i, coverage_at_position (load_from_file Counter_default f) i
                = coverage_at_position c' i)
  /\ (forall i, edits_at_position delim1 delim2 M (load_from_file Counter_default f) i
                = edits_at_position delim1 delim2 M c' i).
Proof.
  unfold serialize. destruct (make_compact delim1 c) as [c2 |]; cbn [bind];
    [| discriminate].
  intros H. injection H as <- <-.
  assert (Hcsas : edit_csas (load_from_file Counter_default
                    {| file_bin_size := bin_size c2;
                       file_n_bins := size (edit_csas c2);
                       file_coverage_civ := coverage_civ c2;
                       file_edit_csas := edit_csas c2 |}) = edit_csas c2).
  { unfold load_from_file, load, set_is_compacted, set_compact, set_bins.
    counter_members. cbn [file_n_bins file_edit_csas].
    apply take_ge. unfold size. lia. }
  repeat split.
  - unfold edits_at_position, edit_values_at_position, bin_for_position.
    intros i. rewrite Hcsas. reflexivity.
Qed.

Lemma save_load_round_trip_witness :
  exists f,
    serialize Proto.delim1 Proto.scenario_counter = Ok (Proto.scenario_counter, f)
    /\ is_compacted (load_from_file Counter_default f) = true
    /\ (forall i,
          edits_at_position Proto.delim1 Proto.delim2 Proto.messages
            (load_from_file Counter_default f) i
          = edits_at_position Proto.delim1 Proto.delim2 Proto.messages
              Proto.scenario_counter i).
Proof.
  eexists. split; [reflexivity |].
  match goal with
  | |- is_compacted (load_from_file _ ?f) = _ /\ _ =>
      destruct (save_load_round_trip Proto.delim1 Proto.delim2 Proto.messages
                  Proto.scenario_counter Proto.scenario_counter f)
        as (H1 & _ & _ & _ & _ & H2)
  end.
  - reflexivity.
  - split; [exact H1 | exact H2].
Defined.

(** ** Merging sources that do not fit the target *)

Lemma vector_at_fault {A} (v : list A) (i : Z) (flt : fault) :
  vector_at v i = Fault flt -> flt = OutOfBounds.
Proof.
  unfold vector_at. destruct ((0 <=? i) && (i <? size v)).
  - destruct (v !! Z.to_nat i); [discriminate | congruence].
  - congruence.
Qed.

Lemma vector_at_end {A} (v : list A) : vector_at v (size v) = Fault OutOfBounds.
Proof.
  unfold vector_at. rewrite Z.ltb_irrefl, andb_false_r. reflexivity.
Qed.

Lemma extract_fault (c : csa) (b e : Z) (flt : fault) :
  extract c b e = Fault flt -> flt = OutOfBounds.
Proof. unfold extract. destruct (_ && _); [discriminate | congruence]. Qed.

Lemma size_insert {A} (v : list A) (i : nat) (x : A) : size (<[i := x]> v) = size v.
Proof. unfold size. rewrite length_insert. reflexivity. Qed.

Lemma foldM_fault {A B} (f : A -> B -> result A) (l : list B) :
  (forall a b flt, f a b = Fault flt -> flt = OutOfBounds) ->
  forall a flt, foldM f l a = Fault flt -> flt = OutOfBounds.
Proof.
  intros Hf. induction l as [| b l IH]; intros a flt H; cbn [foldM] in H;
    [discriminate |].
  destruct (f a b) as [a1 | flt1] eqn:E; cbn [bind] in H.
  - apply (IH _ _ H).
  - injection H as <-. apply (Hf _ _ _ E).
Qed.

(** A loop over the indices below [n] whose body reads the vector it
    carries at the index and keeps its size runs off the end of a vector
    that is shorter than [n]. *)
Lemma foldM_seqZ_overrun {A} (body : list A -> Z -> result (list A))
    (v : list A) (n : Z) :
  (forall a i a', body a i = Ok a' -> size a' = size a) ->
  (forall a i flt, body a i = Fault flt -> flt = OutOfBounds) ->
  (forall a, size a = size v -> exists flt, body a (size v) = Fault flt) ->
  size v < n ->
  foldM body (seqZ 0 n) v = Fault OutOfBounds.
Proof.
  intros Hsize Hkind Hend Hlt.
  pose proof (size_nonneg v) as Hv.
  replace n with (size v + (n - size v)) by lia.
  rewrite seqZ_app by lia. rewrite foldM_app.
  destruct (foldM body (seqZ 0 (size v)) v) as [v' | flt] eqn:E; cbn [bind].
  - pose proof (foldM_preserves size body _ Hsize _ _ E) as Hv'.
    rewrite seqZ_cons by lia. cbn [foldM]. rewrite Z.add_0_l.
    destruct (Hend v' Hv') as [flt Hflt]. rewrite Hflt. cbn [bind].
    f_equal. apply (Hkind _ _ _ Hflt).
  - f_equal. apply (foldM_fault body _ Hkind _ _ E).
Qed.

(** [write_edits] indexes the target's streams by the bins of the source:
    with fewer streams than the source has bins it reads past the last
    one. *)
Theorem write_edits_overruns_streams (delim1 : byte) (c : Counter)
    (out : list (list byte)) :
  size out < n_bins c ->
  write_edits delim1 c out = Fault OutOfBounds.
Proof.
  intros Hlt. unfold write_edits. apply foldM_seqZ_overrun; [| | | exact Hlt].
  - intros a i a' H.
    destruct (vector_at a i); cbn [bind] in H; [| discriminate].
    destruct (write_edits_bin delim1 c _ i); cbn [bind] in H; [| discriminate].
    injection H as <-. apply size_insert.
  - intros a i flt H.
    destruct (vector_at a i) eqn:E1; cbn [bind] in H;
      [| injection H as <-; apply (vector_at_fault _ _ _ E1)].
    unfold write_edits_bin in H.
    destruct (vector_at (edit_csas c) i) eqn:E2; cbn [bind] in H;
      [| injection H as <-; apply (vector_at_fault _ _ _ E2)].
    destruct (extract _ _ _) eqn:E3; cbn [bind] in H;
      [discriminate | injection H as <-; apply (extract_fault _ _ _ _ E3)].
  - intros a Ha. rewrite <- Ha, vector_at_end. eexists. reflexivity.
Qed.

Lemma write_edits_overruns_streams_witness :
  write_edits Proto.delim1 Proto.scenario_counter [[]; []] = Fault OutOfBounds.
Proof.
  apply (write_edits_overruns_streams Proto.delim1 Proto.scenario_counter).
  reflexivity.
Defined.

(** [collect_coverage] walks the coverage of the source: when that is
    longer than the coverage array of the target, the increment at the first
    position past the end of the target's array is out of bounds. *)
Theorem collect_coverage_overruns_target (this c : Counter) :
  size (coverage_dynamic this) < graph_length c ->
  collect_coverage this c = Fault OutOfBounds.
Proof.
  intros Hlt. unfold collect_coverage.
  rewrite foldM_seqZ_overrun; [reflexivity | | | | exact Hlt].
  - intros a i a' H.
    destruct (coverage_at_position c i); cbn [bind] in H; [| discriminate].
    unfold increment in H.
    destruct (vector_at a i); cbn [bind] in H; [| discriminate].
    injection H as <-. apply size_insert.
  - intros a i flt H. unfold coverage_at_position, increment in H.
    destruct (vector_at (coverage_civ c) i) eqn:E1; cbn [bind] in H;
      [| injection H as <-; apply (vector_at_fault _ _ _ E1)].
    destruct (vector_at a i) eqn:E2; cbn [bind] in H;
      [discriminate | injection H as <-; apply (vector_at_fault _ _ _ E2)].
  - intros a Ha. unfold increment.
    destruct (coverage_at_position c _); cbn [bind]; [| eexists; reflexivity].
    rewrite <- Ha, vector_at_end. eexists. reflexivity.
Qed.

Lemma collect_coverage_overruns_target_witness :
  collect_coverage Counter_default Proto.scenario_counter = Fault OutOfBounds.
Proof.
  apply (collect_coverage_overruns_target Counter_default Proto.scenario_counter).
  reflexivity.
Defined.

(** ** Positions with no record *)

Lemma pos_key_injective (delim1 delim2 : byte) (M : Messages) (i j : Z) :
  pos_key delim1 delim2 M j = pos_key delim1 delim2 M i ->
  position_bytes M j = position_bytes M i.
Proof.
  unfold pos_key, position_bytes. intros H. apply app_inv_head in H.
  unfold escape_delims in H.
  apply (escape_delim_injective delim1), (escape_delim_injective delim2). exact H.
Qed.

Lemma stored_values_absent (delim1 delim2 : byte) (M : Messages)
    (key : list byte) (toks : list (token M)) :
  (forall j e rev, Rec j e rev ∈ toks -> pos_key delim1 delim2 M j <> key) ->
  stored_values delim1 delim2 M key toks = [].
Proof.
  induction toks as [| [j e rev |] toks IH]; intros H; cbn [stored_values].
  - reflexivity.
  - destruct (decide (key = pos_key delim1 delim2 M j)) as [E | _].
    + exfalso. apply (H j e rev); [apply list_elem_of_here | symmetry; exact E].
    + apply IH. intros j' e' rev' Hin. apply (H j' e' rev').
      apply list_elem_of_further. exact Hin.
  - apply IH. intros j' e' rev' Hin. apply (H j' e' rev').
    apply list_elem_of_further. exact Hin.
Qed.

Lemma rec_tokens_inv {M : Messages} (i : Z) (e : Edit M) (rev : bool)
    (recs : list (Z * Edit M * bool)) :
  Rec i e rev ∈ rec_tokens recs -> (i, e, rev) ∈ recs.
Proof.
  unfold rec_tokens. intros H.
  apply list_elem_of_fmap in H as ([[j e'] rev'] & Heq & Hin).
  injection Heq as -> -> ->. exact Hin.
Qed.

(** After a run that records edits, [edits_at_position] is empty at every
    position in a bin of the instance at which the run recorded no edit:
    the records of the other positions of the bin are passed over, as no
    key of theirs is the key searched for. *)
Theorem edits_at_unrecorded_position (delim1 delim2 : byte) (M : Messages)
    (P : Z -> Prop) (xg : XG) (binsz : Z) (alns : list (Alignment M)) (i : Z) :
  delim1 <> delim2 ->
  delim1 <> x00 ->
  prefix_free_keys M P ->
  0 <= seq_length xg < size_modulus ->
  0 < binsz ->
  lengths_in_range M alns ->
  Forall (event_in_range M (seq_length xg) binsz (wrap (seq_length xg / binsz + 1)))
         (add_events M true xg alns) ->
  (forall j e rev, Record j e rev ∈ add_events M true xg alns -> P j) ->
  (forall bin,
      size (log_of delim1 delim2 M binsz (add_events M true xg alns) bin) + 2
      < size_modulus) ->
  alns <> [] ->
  P i ->
  0 <= i / binsz < wrap (seq_length xg / binsz + 1) ->
  (forall j e rev,
      Record j e rev ∈ add_events M true xg alns ->
      position_bytes M j <> position_bytes M i) ->
  exists c0 c1 c2,
    Counter_new xg binsz = Ok c0
    /\ foldM (fun c aln => add delim1 delim2 M c aln true) alns c0 = Ok c1
    /\ make_compact delim1 c1 = Ok c2
    /\ edits_at_position delim1 delim2 M c2 i = Ok [].
Proof.
  intros Hd H0 Hkeys HL Hbin Hlen Hev HP Hlogs Halns HPi Hb Hfresh.
  destruct (run_returns delim1 delim2 M xg binsz true alns HL Hbin Hlen Hev)
    as (c0 & c1 & c2 & Hnew & Hadd & Hcompact & _ & _ & Hc2).
  exists c0, c1, c2. repeat split; try assumption.
  rewrite (Hc2 Halns). unfold edits_at_position.
  destruct (decide (i = 0)) as [-> | Hi]; [reflexivity |].
  rewrite (edit_values_at_position_log delim1 delim2 M P Hd H0 Hkeys _ i
             (rec_tokens (records_in M binsz (add_events M true xg alns) (i / binsz)))).
  - cbn [bind]. rewrite stored_values_absent; [reflexivity |].
    intros j e rev Hin Hkey.
    apply rec_tokens_inv, records_in_inv in Hin.
    apply (Hfresh j e rev Hin). apply (pos_key_injective delim1 delim2). exact Hkey.
  - exact Hi.
  - exact HPi.
  - apply rec_tokens_positions. intros j e rev Hj.
    apply (HP j e rev). eapply records_in_inv. exact Hj.
  - unfold bin_for_position, compacted_counter. counter_members.
    assert (Hgt : (binsz >? 0) = true) by (apply Z.gtb_lt; lia).
    rewrite Hgt. rewrite vector_at_tabulate by exact Hb.
    rewrite token_log_records. reflexivity.
  - rewrite token_log_records. unfold construct, closed_log.
    rewrite !size_app, !size_cons. change (size (@nil byte)) with 0.
    pose proof (Hlogs (i / binsz)) as Hsz. unfold log_of in Hsz. lia.
Qed.

Lemma edits_at_unrecorded_position_witness :
  exists c0 c1 c2,
    Counter_new (Proto.one_node 10) 5 = Ok c0
    /\ foldM (fun c aln => add Proto.delim1 Proto.delim2 Proto.messages c aln true)
             Proto.scenario_alignments c0 = Ok c1
    /\ make_compact Proto.delim1 c1 = Ok c2
    /\ edits_at_position Proto.delim1 Proto.delim2 Proto.messages c2 8 = Ok [].
Proof.
  apply (edits_at_unrecorded_position Proto.delim1 Proto.delim2 Proto.messages
           (fun i => 0 <= i < 126) (Proto.one_node 10) 5 Proto.scenario_alignments 8).
  - discriminate.
  - discriminate.
  - exact Proto_keys_prefix_free.
  - concrete_bounds.
  - lia.
  - concrete_lengths.
  - concrete_forall.
  - intros i e rev H. compute_events. concrete_elem H.
    injection H as -> _ _. lia.
  - intros bin. compute_events. unfold log_of. cbn [records_in].
    change (7 / 5) with 1. destruct (1 =? bin); vm_compute; reflexivity.
  - discriminate.
  - lia.
  - concrete_bounds.
  - intros j e rev H. compute_events. concrete_elem H.
    injection H as -> _ _.
    rewrite !Proto_position_bytes by lia. discriminate.
Defined.

(** ** The order of the merged files *)

Section MergeTwo.
Variables delim1 delim2 : byte.
Variable M : Messages.
Variable xg : XG.
Variable binsz : Z.
Hypothesis basis_length_in_range : 0 <= seq_length xg < size_modulus.
Hypothesis bin_size_positive : 0 < binsz.
Hypothesis n_bins_in_range : seq_length xg / binsz + 1 < size_modulus.

Local Abbreviation L := (seq_length xg).
Local Abbreviation nbins := (seq_length xg / binsz + 1).
Local Abbreviation tlog := (token_log delim1 delim2 M).

Local Abbreviation fits := (file_fits delim1 delim2 M xg binsz).

Local Abbreviation count_of f := (fun i => default 0 (file_coverage_civ f !! Z.to_nat i)).

Lemma merge_two_files (f1 f2 : counter_file) (toks1 toks2 : Z -> list (token M)) :
  fits f1 toks1 -> fits f2 toks2 ->
  exists T0,
    Counter_new xg binsz = Ok T0
    /\ merge_from_files delim1 T0 [f1; f2]
       = Ok (merging_counter xg binsz nbins
               (fun i => wrap (wrap (0 + count_of f1 i) + count_of f2 i))
               (fun bin => ([] ++ tlog (toks1 bin) ++ [delim1])
                           ++ tlog (toks2 bin) ++ [delim1])).
Proof.
  intros (Hn1 & Hs1 & Hl1 & Hsz1) (Hn2 & Hs2 & Hl2 & Hsz2).
  assert (Hq : 0 <= L / binsz) by (apply Z.div_pos; lia).
  assert (Hn : 0 <= nbins) by lia.
  destruct (Counter_new_fresh delim1 delim2 M xg binsz bin_size_positive)
    as (T0 & Hnew & Hopen & _).
  rewrite (wrap_small nbins) in Hopen by lia.
  rewrite open_counter_merging in Hopen.
  assert (Hload : forall f toks,
    file_n_bins f = nbins ->
    file_edit_csas f = tabulate (fun bin => construct (tlog (toks bin))) nbins ->
    n_bins (load Counter_default f) = nbins
    /\ coverage_civ (load Counter_default f) = file_coverage_civ f
    /\ edit_csas (load Counter_default f)
       = tabulate (fun bin => construct (tlog (toks bin))) nbins).
  { intros f toks Hf Hl. unfold load, set_compact, set_bins. counter_members.
    rewrite Hf, Hl. repeat split. apply take_ge. rewrite length_tabulate. lia. }
  destruct (Hload f1 toks1 Hn1 Hl1) as (HnA & HvA & HeA).
  destruct (Hload f2 toks2 Hn2 Hl2) as (HnB & HvB & HeB).
  exists T0. split; [exact Hnew |].
  unfold merge_from_files. rewrite Hopen. cbn [foldM].
  rewrite (merge_step delim1 delim2 M xg binsz nbins basis_length_in_range Hn
             _ (count_of f1) toks1);
    [| exact HnA | rewrite HvA; apply tabulate_total; exact Hs1 | exact HeA
     | intros bin _; apply Hsz1].
  cbn [bind].
  rewrite (merge_step delim1 delim2 M xg binsz nbins basis_length_in_range Hn
             _ (count_of f2) toks2);
    [| exact HnB | rewrite HvB; apply tabulate_total; exact Hs2 | exact HeB
     | intros bin _; apply Hsz2].
  reflexivity.
Qed.

End MergeTwo.

(** Merging two files in either order gives the same coverage.  The files
    are over the basis and the bins of the target and hold closed edit
    logs. *)
Theorem merge_coverage_commutes (delim1 delim2 : byte) (M : Messages) (xg : XG)
    (binsz : Z) (fA fB : counter_file) (logA logB : Z -> list (token M)) :
  0 <= seq_length xg < size_modulus ->
  0 < binsz ->
  seq_length xg / binsz + 1 < size_modulus ->
  file_n_bins fA = seq_length xg / binsz + 1 ->
  file_n_bins fB = seq_length xg / binsz + 1 ->
  size (file_coverage_civ fA) = seq_length xg ->
  size (file_coverage_civ fB) = seq_length xg ->
  file_edit_csas fA
  = tabulate (fun bin => construct (token_log delim1 delim2 M (logA bin)))
             (seq_length xg / binsz + 1) ->
  file_edit_csas fB
  = tabulate (fun bin => construct (token_log delim1 delim2 M (logB bin)))
             (seq_length xg / binsz + 1) ->
  (forall bin, size (construct (token_log delim1 delim2 M (logA bin))) < size_modulus) ->
  (forall bin, size (construct (token_log delim1 delim2 M (logB bin))) < size_modulus) ->
  exists T0 T1 T1' T2 T2',
    Counter_new xg binsz = Ok T0
    /\ merge_from_files delim1 T0 [fA; fB] = Ok T1
    /\ merge_from_files delim1 T0 [fB; fA] = Ok T1'
    /\ make_compact delim1 T1 = Ok T2
    /\ make_compact delim1 T1' = Ok T2'
    /\ coverage_civ T2 = coverage_civ T2'.
Proof.
  intros HL Hbin Hsmall HnA HnB HsA HsB HlA HlB HszA HszB.
  destruct (merge_two_files delim1 delim2 M xg binsz HL Hbin Hsmall fA fB logA logB)
    as (T0 & Hnew & Hab); [repeat split; assumption | repeat split; assumption |].
  destruct (merge_two_files delim1 delim2 M xg binsz HL Hbin Hsmall fB fA logB logA)
    as (T0' & Hnew' & Hba); [repeat split; assumption | repeat split; assumption |].
  assert (T0' = T0) by congruence. subst T0'.
  match type of Hab with
  | _ = Ok (merging_counter _ _ ?n ?cov ?logs) =>
      destruct (make_compact_merging delim1 xg binsz n cov logs)
        as (T2 & Hc & _ & Hciv & _)
  end.
  match type of Hba with
  | _ = Ok (merging_counter _ _ ?n ?cov ?logs) =>
      destruct (make_compact_merging delim1 xg binsz n cov logs)
        as (T2' & Hc' & _ & Hciv' & _)
  end.
  do 2 eexists. eexists. exists T2, T2'.
  split; [exact Hnew |]. split; [exact Hab |]. split; [exact Hba |].
  split; [exact Hc |]. split; [exact Hc' |].
  rewrite Hciv, Hciv'. apply tabulate_ext. intros i _.
  rewrite !wrap_add_l. f_equal. lia.
Qed.

Lemma merge_coverage_commutes_witness :
  exists T0 T1 T1' T2 T2',
    Counter_new (Proto.one_node 10) 5 = Ok T0
    /\ merge_from_files Proto.delim1 T0
         [ {| file_bin_size := 5; file_n_bins := 3;
              file_coverage_civ := coverage_civ Proto.scenario_counter;
              file_edit_csas := edit_csas Proto.scenario_counter |};
           {| file_bin_size := 5; file_n_bins := 3;
              file_coverage_civ := replicate 10 1;
              file_edit_csas := replicate 3 (construct [Proto.delim1]) |} ] = Ok T1
    /\ merge_from_files Proto.delim1 T0
         [ {| file_bin_size := 5; file_n_bins := 3;
              file_coverage_civ := replicate 10 1;
              file_edit_csas := replicate 3 (construct [Proto.delim1]) |};
           {| file_bin_size := 5; file_n_bins := 3;
              file_coverage_civ := coverage_civ Proto.scenario_counter;
              file_edit_csas := edit_csas Proto.scenario_counter |} ] = Ok T1'
    /\ make_compact Proto.delim1 T1 = Ok T2
    /\ make_compact Proto.delim1 T1' = Ok T2'
    /\ coverage_civ T2 = coverage_civ T2'.
Proof.
  apply (merge_coverage_commutes Proto.delim1 Proto.delim2 Proto.messages
           (Proto.one_node 10) 5 _ _ scenario_tokens (fun _ => [])).
  - concrete_bounds.
  - lia.
  - concrete_bounds.
  - reflexivity.
  - reflexivity.
  - reflexivity.
  - reflexivity.
  - vm_compute. reflexivity.
  - vm_compute. reflexivity.
  - intros bin. unfold scenario_tokens. destruct (bin =? 1); vm_compute; reflexivity.
  - intros bin. vm_compute. reflexivity.
Defined.

(** ** The edit logs are append-only *)

Lemma foldM_related {A B} (R : A -> A -> Prop) (f : A -> B -> result A)
    (l : list B) :
  (forall a, R a a) ->
  (forall a b c, R a b -> R b c -> R a c) ->
  (forall a b a', f a b = Ok a' -> R a a') ->
  forall a a', foldM f l a = Ok a' -> R a a'.
Proof.
  intros Hrefl Htrans Hf. induction l as [| b l IH]; intros a a' H; cbn [foldM] in H.
  - injection H as <-. apply Hrefl.
  - destruct (f a b) as [a1 |] eqn:E; cbn [bind] in H; [| discriminate].
    apply (Htrans _ a1); [apply (Hf _ _ _ E) | apply (IH _ _ H)].
Qed.

Lemma extends_refl (l : list (list byte)) :
  Forall2 (fun s s' => s `prefix_of` s') l l.
Proof. induction l as [| s l IH]; constructor; [reflexivity | exact IH]. Qed.

Lemma extends_trans (l1 l2 l3 : list (list byte)) :
  Forall2 (fun s s' => s `prefix_of` s') l1 l2 ->
  Forall2 (fun s s' => s `prefix_of` s') l2 l3 ->
  Forall2 (fun s s' => s `prefix_of` s') l1 l3.
Proof.
  intros H. revert l3. induction H as [| s1 s2 l1 l2 Hs _ IH]; intros l3 H23.
  - inversion H23. constructor.
  - inversion H23 as [| ? s3 ? l3' Hs' H' ]; subst. constructor.
    + etransitivity; eassumption.
    + apply IH. exact H'.
Qed.

Lemma extends_insert (l : list (list byte)) (n : nat) (s x : list byte) :
  l !! n = Some s ->
  Forall2 (fun s s' => s `prefix_of` s') l (<[n := s ++ x]> l).
Proof.
  revert n. induction l as [| s0 l IH]; intros [| n] H; cbn in H; try discriminate.
  - injection H as ->. cbn. constructor; [| apply extends_refl].
    exists x. reflexivity.
  - cbn. constructor; [reflexivity | apply IH; exact H].
Qed.

(** Once the temporary files are open, [add] only ever appends to them:
    what each stream held before the call is a prefix of what it holds
    after it. *)
Theorem add_appends_to_logs (delim1 delim2 : byte) (M : Messages)
    (c c' : Counter) (aln : Alignment M) (record_edits : bool) :
  tmpfstreams c <> [] ->
  add delim1 delim2 M c aln record_edits = Ok c' ->
  Forall2 (fun s s' => s `prefix_of` s') (tmpfstreams c) (tmpfstreams c').
Proof.
  intros Hopen. unfold add.
  assert (Hsame : ensure_edit_tmpfiles_open c = c).
  { unfold ensure_edit_tmpfiles_open. destruct (tmpfstreams c); [contradiction | reflexivity]. }
  rewrite Hsame.
  apply (foldM_related
           (fun a a' => Forall2 (fun s s' => s `prefix_of` s')
                          (tmpfstreams a) (tmpfstreams a'))).
  - intros a. apply extends_refl.
  - intros a b d. apply extends_trans.
  - intros a m a'. unfold add_mapping.
    destruct (position m) as [pos |];
      [| intros H; injection H as <-; apply extends_refl].
    destruct (xgidx a) as [xg |]; [| discriminate].
    destruct (foldM _ _ _) as [st |] eqn:E; cbn [bind]; [| discriminate].
    intros H. injection H as <-.
    apply (foldM_related
             (fun st st' : Counter * Z =>
                Forall2 (fun s s' => s `prefix_of` s')
                  (tmpfstreams (fst st)) (tmpfstreams (fst st')))
             _ _ (fun st => extends_refl _)
             (fun st1 st2 st3 => extends_trans _ _ _)) in E; [exact E |].
    clear. intros [c0 i] e st'. unfold add_edit.
    destruct (edit_is_match M e).
    + destruct (foldM _ _ _); cbn [bind]; [| discriminate].
      intros H. injection H as <-. apply extends_refl.
    + destruct record_edits.
      * destruct (vector_at _ _) as [s |] eqn:Ev; cbn [bind]; [| discriminate].
        intros H. injection H as <-.
        cbn [fst]. unfold set_tmpfiles. counter_members.
        apply extends_insert. apply vector_at_Ok in Ev as [_ Ev]. exact Ev.
      * cbn [bind]. intros H. injection H as <-. apply extends_refl.
Qed.

Lemma add_appends_to_logs_witness :
  exists c',
    add Proto.delim1 Proto.delim2 Proto.messages
      (set_tmpfiles Proto.scenario_counter [[]; []; []] [[x01]; [x02]; [x03]])
      [Proto.mapping (Proto.forward 7) [Proto.snp]] true = Ok c'
    /\ Forall2 (fun s s' => s `prefix_of` s')
         [[x01]; [x02]; [x03]] (tmpfstreams c').
Proof.
  eexists. split; [vm_compute; reflexivity |].
  apply (add_appends_to_logs Proto.delim1 Proto.delim2 Proto.messages
           (set_tmpfiles Proto.scenario_counter [[]; []; []] [[x01]; [x02]; [x03]])
           _ [Proto.mapping (Proto.forward 7) [Proto.snp]] true).
  - discriminate.
  - vm_compute. reflexivity.
Defined.

(** ** The order of the alignments *)

Lemma concat_Permutation {A} (l l' : list (list A)) :
  l ≡ₚ l' -> concat l ≡ₚ concat l'.
Proof.
  induction 1 as [| x l l' _ IH | x y l | l l' l'' _ IH1 _ IH2]; cbn [concat].
  - reflexivity.
  - rewrite IH. reflexivity.
  - rewrite !app_assoc. rewrite (Permutation_app_comm y x). reflexivity.
  - etransitivity; eassumption.
Qed.

Lemma tally_Permutation (M : Messages) (evs evs' : list (event M)) (p : Z) :
  evs ≡ₚ evs' -> tally M evs p = tally M evs' p.
Proof.
  induction 1 as [| x l l' _ IH | x y l | l l' l'' _ IH1 _ IH2].
  - reflexivity.
  - destruct x; cbn [tally]; rewrite IH; reflexivity.
  - destruct x, y; cbn [tally]; lia.
  - congruence.
Qed.

(** The coverage does not depend on the order of the calls of [add]: two
    runs on the same alignments, in any two orders, end with the same compact
    coverage array. *)
Theorem coverage_order_independent (delim1 delim2 : byte) (M : Messages)
    (xg : XG) (binsz : Z) (record_edits : bool) (alns alns' : list (Alignment M)) :
  alns ≡ₚ alns' ->
  0 <= seq_length xg < size_modulus ->
  0 < binsz ->
  lengths_in_range M alns ->
  Forall (event_in_range M (seq_length xg) binsz (wrap (seq_length xg / binsz + 1)))
         (add_events M record_edits xg alns) ->
  exists c0 c1 c2 c1' c2',
    Counter_new xg binsz = Ok c0
    /\ foldM (fun c aln => add delim1 delim2 M c aln record_edits) alns c0 = Ok c1
    /\ make_compact delim1 c1 = Ok c2
    /\ foldM (fun c aln => add delim1 delim2 M c aln record_edits) alns' c0 = Ok c1'
    /\ make_compact delim1 c1' = Ok c2'
    /\ coverage_civ c2' = coverage_civ c2.
Proof.
  intros Hperm HL Hbin Hlen Hev.
  assert (Hevs : add_events M record_edits xg alns ≡ₚ add_events M record_edits xg alns').
  { unfold add_events. apply concat_Permutation. rewrite Hperm. reflexivity. }
  assert (Hlen' : lengths_in_range M alns').
  { unfold lengths_in_range in *. rewrite <- Hperm. exact Hlen. }
  assert (Hev' : Forall (event_in_range M (seq_length xg) binsz
                           (wrap (seq_length xg / binsz + 1)))
                        (add_events M record_edits xg alns')).
  { rewrite <- Hevs. exact Hev. }
  destruct (run_returns delim1 delim2 M xg binsz record_edits alns HL Hbin Hlen Hev)
    as (c0 & c1 & c2 & Hnew & Hadd & Hcompact & Hcov & _).
  destruct (run_returns delim1 delim2 M xg binsz record_edits alns' HL Hbin Hlen' Hev')
    as (c0' & c1' & c2' & Hnew' & Hadd' & Hcompact' & Hcov' & _).
  assert (c0' = c0) by congruence. subst c0'.
  exists c0, c1, c2, c1', c2'. repeat split; try assumption.
  rewrite Hcov, Hcov'. unfold coverage_after. apply tabulate_ext.
  intros p _. f_equal. symmetry. apply tally_Permutation. exact Hevs.
Qed.

Lemma coverage_order_independent_witness :
  exists c0 c1 c2 c1' c2',
    Counter_new (Proto.one_node 10) 5 = Ok c0
    /\ foldM (fun c aln => add Proto.delim1 Proto.delim2 Proto.messages c aln true)
             [ [Proto.mapping (Proto.forward 3) [Proto.match_edit 3]];
               [Proto.mapping (Proto.forward 4) [Proto.match_edit 2; Proto.snp]] ]
             c0 = Ok c1
    /\ make_compact Proto.delim1 c1 = Ok c2
    /\ foldM (fun c aln => add Proto.delim1 Proto.delim2 Proto.messages c aln true)
             [ [Proto.mapping (Proto.forward 4) [Proto.match_edit 2; Proto.snp]];
               [Proto.mapping (Proto.forward 3) [Proto.match_edit 3]] ]
             c0 = Ok c1'
    /\ make_compact Proto.delim1 c1' = Ok c2'
    /\ coverage_civ c2' = coverage_civ c2.
Proof.
  apply (coverage_order_independent Proto.delim1 Proto.delim2 Proto.messages
           (Proto.one_node 10) 5 true).
  - apply perm_swap.
  - concrete_bounds.
  - lia.
  - concrete_lengths.
  - concrete_forall.
Defined.

(** ** What the read path hands to the parser *)

(** For every edit recorded at a position [i] other than 0, one of the
    strings that [edits_at_position i] parses is the escaped payload of the
    edit on the forward strand, followed by the odd run of markers that
    ends it and by the byte after the run: the payload is not unescaped and
    the string does not stop before the terminator. *)
Theorem read_path_value_shape (delim1 delim2 : byte) (M : Messages)
    (P : Z -> Prop) (xg : XG) (binsz : Z) (alns : list (Alignment M)) :
  delim1 <> delim2 ->
  delim1 <> x00 ->
  prefix_free_keys M P ->
  0 <= seq_length xg < size_modulus ->
  0 < binsz ->
  lengths_in_range M alns ->
  Forall (event_in_range M (seq_length xg) binsz (wrap (seq_length xg / binsz + 1)))
         (add_events M true xg alns) ->
  (forall i e rev, Record i e rev ∈ add_events M true xg alns -> P i) ->
  (forall bin,
      size (log_of delim1 delim2 M binsz (add_events M true xg alns) bin) + 2
      < size_modulus) ->
  exists c0 c1 c2,
    Counter_new xg binsz = Ok c0
    /\ foldM (fun c aln => add delim1 delim2 M c aln true) alns c0 = Ok c1
    /\ make_compact delim1 c1 = Ok c2
    /\ forall i e rev,
         Record i e rev ∈ add_events M true xg alns ->
         i <> 0 ->
         exists (values : list (list byte)) (g : nat) (x : byte),
           edit_values_at_position delim1 delim2 M c2 i = Ok values
           /\ x <> delim1
           /\ (escape_delims delim1 delim2
                 (Edit_SerializeToString M (forward_edit M e rev))
               ++ repeat delim1 (2 * g + 1) ++ [x]) ∈ values.
Proof.
  intros Hd H0 Hkeys HL Hbin Hlen Hev HP Hlogs.
  destruct (run_returns delim1 delim2 M xg binsz true alns HL Hbin Hlen Hev)
    as (c0 & c1 & c2 & Hnew & Hadd & Hcompact & _ & _ & Hc2).
  exists c0, c1, c2. repeat split; try assumption.
  intros i e rev Hin Hi.
  assert (Halns : alns <> []).
  { intros ->. apply elem_of_nil in Hin. contradiction. }
  pose proof (edit_values_of_run delim1 delim2 M P xg binsz alns Hd H0 Hkeys Hbin
                Hev HP Hlogs c2 i e rev (Hc2 Halns) Hin Hi) as Hvalues.
  destruct (stored_values_elem delim1 delim2 M Hd H0 i e rev
              (rec_tokens (records_in M binsz (add_events M true xg alns) (i / binsz))))
    as (g & x & Hx & Hv).
  { apply rec_tokens_elem, records_in_elem. exact Hin. }
  eexists. exists g, x. split; [exact Hvalues |]. split; [exact Hx | exact Hv].
Qed.

Lemma read_path_value_shape_witness :
  exists c0 c1 c2,
    Counter_new (Proto.one_node 10) 5 = Ok c0
    /\ foldM (fun c aln => add Proto.delim1 Proto.delim2 Proto.messages c aln true)
             Proto.scenario_alignments c0 = Ok c1
    /\ make_compact Proto.delim1 c1 = Ok c2
    /\ exists (values : list (list byte)) (g : nat) (x : byte),
         edit_values_at_position Proto.delim1 Proto.delim2 Proto.messages c2 7
         = Ok values
         /\ x <> Proto.delim1
         /\ (escape_delims Proto.delim1 Proto.delim2
               (Edit_SerializeToString Proto.messages Proto.snp)
             ++ repeat Proto.delim1 (2 * g + 1) ++ [x]) ∈ values.
Proof.
  destruct (read_path_value_shape Proto.delim1 Proto.delim2 Proto.messages
              (fun i => 0 <= i < 126) (Proto.one_node 10) 5 Proto.scenario_alignments)
    as (c0 & c1 & c2 & Hnew & Hadd & Hcompact & Hrec).
  - discriminate.
  - discriminate.
  - exact Proto_keys_prefix_free.
  - concrete_bounds.
  - lia.
  - concrete_lengths.
  - concrete_forall.
  - intros i e rev H. compute_events. concrete_elem H.
    injection H as -> _ _. lia.
  - intros bin. compute_events. unfold log_of. cbn [records_in].
    change (7 / 5) with 1. destruct (1 =? bin); vm_compute; reflexivity.
  - exists c0, c1, c2. repeat split; try assumption.
    apply (Hrec 7 Proto.snp false).
    + compute_events. do 3 apply list_elem_of_further. apply list_elem_of_here.
    + discriminate.
Defined.
